(** * Blender-Spine-IO: the geometry/animation compiler, embedded and verified

    A shallow embedding of the exporter's pure core
    ([SPINE_Output_meshutils.py], [SPINE_Output_weights.py],
    [SPINE_Output_helpers.py], [SPINE_Output_animation.py] and the bone loop
    of [SPINE_Output_exporter.py]).

    Conventions of the embedding:
    - Python [int] is [Z]; list positions and counts are [nat].
    - Python [float] is idealised as an exact rational [Q]; numeric equality
      of floats is [Qeq] (written [==]).
    - A [dict] is a [gmap], a [set] is a [gset] (stdpp).
    - A Python exception is an explicit error result. *)

From stdpp Require Import gmap strings list sorting.
From Stdlib Require Import ZArith QArith Qcanon Qabs Qround Lia Lqa.

Local Open Scope Z_scope.

(** ** Python numerics on rationals *)

Module PyNum.
Local Open Scope Q_scope.

(** [x > y] on floats. *)
Definition Qgt_bool (x y : Q) : bool := negb (Qle_bool x y).

(** [x < y] on floats. *)
Definition Qlt_bool (x y : Q) : bool := negb (Qle_bool y x).

(** [a % m] for a positive divisor: the result has the sign of [m]. *)
Definition py_mod (a m : Q) : Q := a - m * inject_Z (Qfloor (a / m)).

(** [round(x)]: to the nearest integer, ties to even. *)
Definition round_half_even (x : Q) : Z :=
  let f := Qfloor x in
  match Qcompare (x - inject_Z f) (1 # 2) with
  | Lt => f
  | Gt => (f + 1)%Z
  | Eq => if Z.even f then f else (f + 1)%Z
  end.

(** [round(x, ndigits)] *)
Definition py_round (x : Q) (ndigits : nat) : Q :=
  Qred (inject_Z (round_half_even (x * inject_Z (10 ^ Z.of_nat ndigits)))
        / inject_Z (10 ^ Z.of_nat ndigits)).

End PyNum.

(** ** Edge streams ([SPINE_Output_meshutils.py]) *)

Module Edges.

(** [0 <= xi < max(0, int(vcount))] *)
Definition in_vrange (vcount xi : Z) : bool :=
  (0 <=? xi) && (xi <? Z.max 0 vcount).

(** [if len(ints) % 2: ints = ints[:-1]] *)
Definition drop_unpaired (ints : list Z) : list Z :=
  if Nat.odd (length ints) then removelast ints else ints.

(** The pair loop of [_sanitize_pairs]: skip self-loops, canonicalise to
    [(min, max)], skip pairs already in [seen]. *)
Fixpoint sanitize_loop (seen : gset (Z * Z)) (ints : list Z) : list Z :=
  match ints with
  | a :: b :: rest =>
      if a =? b then sanitize_loop seen rest
      else
        let p := if a <? b then (a, b) else (b, a) in
        if decide (p ∈ seen) then sanitize_loop seen rest
        else p.1 :: p.2 :: sanitize_loop ({[ p ]} ∪ seen) rest
  | _ => []
  end.

(** [_sanitize_pairs(flat_list, vcount)] on a list of integers. *)
Definition _sanitize_pairs (flat_list : list Z) (vcount : Z) : list Z :=
  sanitize_loop ∅ (drop_unpaired (filter (λ x, in_vrange vcount x = true) flat_list)).

(** [sanitize_vert_edges] repeats the body of [_sanitize_pairs] behind an
    emptiness test. *)
Definition sanitize_vert_edges (edges_vert : list Z) (vcount : Z) : list Z :=
  match edges_vert with
  | [] => []
  | _ => _sanitize_pairs edges_vert vcount
  end.

(** The doubling loop of [encode_spine_edges]. *)
Fixpoint encode_loop (max_stream : Z) (clean : list Z) : list Z :=
  match clean with
  | x :: y :: rest =>
      let a := x * 2 in
      let b := y * 2 in
      if (0 <=? a) && (a <=? max_stream) && (0 <=? b) && (b <=? max_stream)
         && negb (a =? b)
      then a :: b :: encode_loop max_stream rest
      else encode_loop max_stream rest
  | _ => []
  end.

Definition encode_spine_edges (keep_edges_new : list Z) (vertex_count : Z) : list Z :=
  let clean := _sanitize_pairs keep_edges_new vertex_count in
  match clean with
  | [] => []
  | _ => encode_loop (vertex_count * 2 - 1) clean
  end.

(** [edges_perimeter_from_hull] *)
Definition edges_perimeter_from_hull (hull_idx : list Z) : list Z :=
  let n := length hull_idx in
  if (n <? 3)%nat then []
  else
    flat_map (λ i, [nth i hull_idx 0; nth ((i + 1) mod n)%nat hull_idx 0]) (seq 0 n).

(** The attachment fields read by [validate_attachment_edges]. *)
Record attachment := {
  att_name : string;
  att_uvs : list Q;
  att_edges : option (list Z);
}.

Inductive edge_error :=
| NoVerts
| OddIndex (ii : Z)
| OutOfRange (ii max_stream : Z).

(** The [for idx in e] loop: the first offending value raises. *)
Fixpoint validate_loop (max_stream : Z) (e : list Z) : option edge_error :=
  match e with
  | [] => None
  | ii :: rest =>
      if negb (Z.land ii 1 =? 0) then Some (OddIndex ii)
      else if (ii <? 0) || (ii >? max_stream) then Some (OutOfRange ii max_stream)
      else validate_loop max_stream rest
  end.

(** [validate_attachment_edges(att)]: [None] is a normal return, [Some err]
    a raised [RuntimeError]. *)
Definition validate_attachment_edges (att : attachment) : option edge_error :=
  match att_edges att with
  | None | Some [] => None
  | Some e =>
      let vcount := Z.of_nat (length (att_uvs att)) / 2 in
      if vcount <=? 0 then Some NoVerts
      else validate_loop (vcount * 2 - 1) e
  end.

(** Consecutive pairs of a flat stream. *)
Fixpoint pairs_of (flat : list Z) : list (Z * Z) :=
  match flat with
  | a :: b :: rest => (a, b) :: pairs_of rest
  | _ => []
  end.

Definition stream_value_ok (v x : Z) : Prop :=
  Z.even x = true ∧ 0 <= x < 2 * v.

End Edges.

(** ** Edge derivation from triangles and marked mesh edges *)

Module EdgeTopology.
Import Edges.

(** [(e0, e1) if e0 < e1 else (e1, e0)] *)
Definition canon (a b : Z) : Z * Z := if a <? b then (a, b) else (b, a).

(** [counts[(u,v)] = counts.get((u,v), 0) + 1] *)
Definition bump (counts : gmap (Z * Z) nat) (a b : Z) : gmap (Z * Z) nat :=
  <[canon a b := S (default 0%nat (counts !! canon a b))]> counts.

(** [_edge_counts_from_tris]: the loop reads [tri_indices] three at a time;
    a stream whose length is not a multiple of 3 ends in [IndexError]
    ([None]). *)
Fixpoint edge_counts_loop (counts : gmap (Z * Z) nat) (tri_indices : list Z)
  : option (gmap (Z * Z) nat) :=
  match tri_indices with
  | [] => Some counts
  | a :: b :: c :: rest =>
      edge_counts_loop (bump (bump (bump counts a b) b c) c a) rest
  | _ => None
  end.

Definition _edge_counts_from_tris (tri_indices : list Z) : option (gmap (Z * Z) nat) :=
  edge_counts_loop ∅ tri_indices.

(** [[e for (e,cnt) in counts.items() if cnt == k]]; the caller puts the
    edges into a set, so the order of [items()] is immaterial. *)
Definition edges_with_count (k : nat) (counts : gmap (Z * Z) nat) : list (Z * Z) :=
  (map_to_list (filter (λ kv, kv.2 = k) counts)).*1.

Definition _tri_boundary_edges_from_tris (tri_indices : list Z) : option (list (Z * Z)) :=
  edges_with_count 1 <$> _edge_counts_from_tris tri_indices.

Definition _tri_internal_edges_from_tris (tri_indices : list Z) : option (list (Z * Z)) :=
  edges_with_count 2 <$> _edge_counts_from_tris tri_indices.

(** The scan of [_map_src_edge_to_new] with its two early [break]s. *)
Fixpoint map_src_scan (src_i src_j : Z) (first_i first_j : option nat)
    (new_idx : nat) (new_to_src : list (Z * Z)) : option nat * option nat :=
  match new_to_src with
  | [] => (first_i, first_j)
  | (svi, _) :: rest =>
      let hit_i := bool_decide (first_i = None) && (svi =? src_i) in
      let first_i' := if hit_i then Some new_idx else first_i in
      if hit_i && bool_decide (first_j ≠ None) then (first_i', first_j)
      else
        let hit_j := bool_decide (first_j = None) && (svi =? src_j) in
        let first_j' := if hit_j then Some new_idx else first_j in
        if hit_j && bool_decide (first_i' ≠ None) then (first_i', first_j')
        else map_src_scan src_i src_j first_i' first_j' (S new_idx) rest
  end.

Definition _map_src_edge_to_new (src_edge : Z * Z) (new_to_src : list (Z * Z))
  : option (Z * Z) :=
  match map_src_scan src_edge.1 src_edge.2 None None 0 new_to_src with
  | (Some fi, Some fj) =>
      if bool_decide (fi = fj) then None
      else Some (canon (Z.of_nat fi) (Z.of_nat fj))
  | _ => None
  end.

(** The fields of a Blender mesh edge the function reads. *)
Record mesh_edge := {
  vertices : Z * Z;
  use_seam : bool;
  use_edge_sharp : bool;
}.

(** The normalised mode string; [OtherMode] is any string outside the four
    recognised ones. *)
Inductive edge_mode := Boundary | Manual | Mixed | All | OtherMode.

Global Instance edge_mode_eq_dec : EqDecision edge_mode.
Proof. solve_decision. Defined.

(** Python's order on pairs of integers. *)
Definition pair_le (p q : Z * Z) : Prop :=
  p.1 < q.1 ∨ (p.1 = q.1 ∧ p.2 <= q.2).

Global Instance pair_le_dec : RelDecision pair_le.
Proof. intros p q. unfold pair_le. apply _. Defined.

(** [_pairs_to_flat] *)
Definition _pairs_to_flat (edges_pairs : list (Z * Z)) : list Z :=
  flat_map (λ p, [p.1; p.2]) edges_pairs.

(** [0 <= u < vcount and 0 <= v < vcount and u != v] followed by the
    canonical insertion into [edge_pairs]. *)
Definition add_edge (vcount : Z) (edge_pairs : gset (Z * Z)) (p : Z * Z)
  : gset (Z * Z) :=
  if (0 <=? p.1) && (p.1 <? vcount) && (0 <=? p.2) && (p.2 <? vcount)
     && negb (p.1 =? p.2)
  then {[ canon p.1 p.2 ]} ∪ edge_pairs
  else edge_pairs.

(** One iteration of the [for e in me_edges] loop. *)
Definition add_manual (m : edge_mode) (use_seams use_sharp : bool)
    (new_to_src : list (Z * Z)) (vcount : Z)
    (edge_pairs : gset (Z * Z)) (e : mesh_edge) : gset (Z * Z) :=
  let allowed :=
    bool_decide (m = All)
    || (use_seams && use_seam e) || (use_sharp && use_edge_sharp e) in
  if allowed then
    match _map_src_edge_to_new (vertices e) new_to_src with
    | Some mapped => add_edge vcount edge_pairs mapped
    | None => edge_pairs
    end
  else edge_pairs.

(** [len(region_xy) if region_xy is not None else
    (len(new_to_src) if new_to_src else 0)] *)
Definition edge_vcount (region_xy : option (list (Q * Q)))
    (new_to_src : list (Z * Z)) : Z :=
  match region_xy with
  | Some r => Z.of_nat (length r)
  | None => Z.of_nat (length new_to_src)
  end.

(** [build_edges_from_tris_and_manual]. [mode = None] resolves to
    [default_mode], the value of [_default_edge_mode()]. *)
Definition build_edges_from_tris_and_manual
    (default_mode : edge_mode)
    (triangles : list Z) (new_to_src : list (Z * Z))
    (region_xy : option (list (Q * Q)))
    (me_edges : option (list mesh_edge)) (mode : option edge_mode)
    (use_seams use_sharp include_boundary : bool) : option (list Z) :=
  let m := default default_mode mode in
  let vcount := edge_vcount region_xy new_to_src in
  edge_pairs ←
    (if bool_decide (m ∈ [Boundary; Mixed; All]) && include_boundary
        && bool_decide (triangles ≠ [])
     then foldl (add_edge vcount) ∅ <$> _tri_boundary_edges_from_tris triangles
     else Some ∅);
  let edge_pairs' :=
    match me_edges with
    | Some es =>
        if bool_decide (m ∈ [Manual; Mixed; All])
        then foldl (add_manual m use_seams use_sharp new_to_src vcount) edge_pairs es
        else edge_pairs
    | None => edge_pairs
    end in
  Some (_sanitize_pairs (_pairs_to_flat (merge_sort pair_le (elements edge_pairs'))) vcount).

(** The undirected edges of a triangle stream, one entry per triangle side:
    the multiset whose multiplicities the spec speaks of. *)
Fixpoint tri_sides (tri_indices : list Z) : list (Z * Z) :=
  match tri_indices with
  | a :: b :: c :: rest => canon a b :: canon b c :: canon c a :: tri_sides rest
  | _ => []
  end.

Definition multiplicity (tri_indices : list Z) (e : Z * Z) : nat :=
  length (filter (λ s, s = e) (tri_sides tri_indices)).

(** The count recorded for an edge (0 when absent), and the dictionary
    invariant that recorded counts are positive. *)
Definition count_of (m : gmap (Z * Z) nat) (e : Z * Z) : nat :=
  default 0%nat (m !! e).

Definition positive_counts (m : gmap (Z * Z) nat) : Prop :=
  ∀ e n, m !! e = Some n → (0 < n)%nat.

(** An edge the insertion guard lets through. *)
Definition edge_admissible (vcount : Z) (q : Z * Z) : Prop :=
  0 <= q.1 < vcount ∧ 0 <= q.2 < vcount ∧ q.1 ≠ q.2.

(** The four perimeter sides of a quad split along the diagonal [a-c]. *)
Definition quad_perimeter (a b c d : Z) : list (Z * Z) :=
  [canon a b; canon b c; canon c d; canon d a].

End EdgeTopology.

(** ** Per-vertex bone influences ([SPINE_Output_weights.py]) *)

Module Weights.
Local Open Scope Q_scope.

(** A [VertexGroupElement]: the index of a vertex group and the weight. *)
Record group_element := {
  group : Z;
  weight : Q;
}.

Record mesh_vertex := {
  index : Z;
  groups : list group_element;
}.

(** What the weight helpers read of a mesh object: the names of
    [obj.vertex_groups] in order and [obj.data.vertices]. *)
Record mesh_object := {
  vertex_groups : list string;
  mesh_vertices : list mesh_vertex;
}.

Definition influence : Type := string * Q.

(** [{i: vg.name for i, vg in enumerate(obj.vertex_groups)}] *)
Definition vg_index_to_name (obj : mesh_object) : gmap Z string :=
  list_to_map (imap (λ i name, (Z.of_nat i, name)) (vertex_groups obj)).

(** The inner [for g in v.groups] loop: a group contributes when its name is
    found, is a non-empty string, names a deform bone and its weight is
    positive. *)
Definition collect_raw (names : gmap Z string) (deform_names : gset string)
    (gs : list group_element) : list influence :=
  omap (λ g,
    match names !! group g with
    | Some vg_name =>
        if bool_decide (vg_name ≠ EmptyString)
           && bool_decide (vg_name ∈ deform_names)
           && negb (Qle_bool (weight g) 0)
        then Some (vg_name, weight g) else None
    | None => None
    end) gs.

(** [sort(key=lambda t: t[1], reverse=True)]: descending by weight, stable
    (ties keep their original order). *)
Fixpoint insert_desc (x : influence) (l : list influence) : list influence :=
  match l with
  | [] => [x]
  | y :: l' => if Qle_bool y.2 x.2 then x :: l else y :: insert_desc x l'
  end.

Definition sort_desc (l : list influence) : list influence :=
  foldr insert_desc [] l.

(** The slice [l[:n]] for an integer [n] of either sign. *)
Definition slice_to {A} (n : Z) (l : list A) : list A :=
  if (0 <=? n)%Z then take (Z.to_nat n) l
  else take (length l - Z.to_nat (- n)) l.

Definition sum_weights (l : list influence) : Q :=
  foldr (λ t acc, t.2 + acc) 0 l.

(** The body of the [for v in me.vertices] loop. *)
Definition vertex_influences (names : gmap Z string) (deform_names : gset string)
    (weight_eps : Q) (max_influences : Z) (fallback_bone : string)
    (v : mesh_vertex) : list influence :=
  let infl_raw := collect_raw names deform_names (groups v) in
  let infl_raw := filter (λ t, Qle_bool t.2 weight_eps = false) infl_raw in
  let infl_raw := sort_desc infl_raw in
  let infl_raw := slice_to max_influences infl_raw in
  match infl_raw with
  | [] => [(fallback_bone, 1)]
  | _ =>
      let s := sum_weights infl_raw in
      map (λ t, (t.1, if Qle_bool s 0 then 0 else t.2 / s)) infl_raw
  end.

(** [build_vertex_influences]: the dictionary [v.index -> influences]; a later
    vertex with the same index overwrites an earlier one. *)
Definition build_vertex_influences (obj : mesh_object) (deform_names : gset string)
    (weight_eps : Q) (max_influences : Z) (fallback_bone : string)
  : gmap Z (list influence) :=
  foldl (λ out v,
           <[index v := vertex_influences (vg_index_to_name obj) deform_names
                          weight_eps max_influences fallback_bone v]> out)
        ∅ (mesh_vertices obj).

(** A vertex has a usable deform weight: some group of a (non-empty named)
    deform bone with weight above [weight_eps]. *)
Definition has_deform_weight_above (names : gmap Z string)
    (deform_names : gset string) (weight_eps : Q) (v : mesh_vertex) : Prop :=
  ∃ g vg_name, g ∈ groups v ∧ names !! group g = Some vg_name
    ∧ vg_name ≠ EmptyString ∧ vg_name ∈ deform_names ∧ weight_eps < weight g.

(** Descending by weight. *)
Definition weight_ge (a b : influence) : Prop := b.2 <= a.2.

(** The list the loop body keeps before renormalising. *)
Definition kept_influences (names : gmap Z string) (deform_names : gset string)
    (weight_eps : Q) (max_influences : Z) (v : mesh_vertex) : list influence :=
  slice_to max_influences
    (sort_desc (filter (λ t, Qle_bool t.2 weight_eps = false)
                  (collect_raw names deform_names (groups v)))).

End Weights.

(** ** Angles and the bone loop ([SPINE_Output_helpers.py], [export_now]) *)

Module Skeleton.
Import PyNum.
Local Open Scope Q_scope.

(** [normalize_deg] *)
Definition normalize_deg (a : Q) : Q :=
  let a := py_mod (a + 180) 360 - 180 in
  if Qeq_bool a (-180) then 180 else a.

(** [is_vertical_rel_deg] *)
Definition is_vertical_rel_deg (rel_ccw tol : Q) : bool :=
  let rel_n := Qabs (normalize_deg rel_ccw) in
  Qle_bool (Qabs (rel_n - 90)) tol.

(** The rotation of a non-root bone before rounding, from the frame-space
    angles of the bone and of its parent ([angleF[b.name]],
    [angleF[p.name]]) and [VERTICAL_TOL_DEG]. *)
Definition rot_spine (angle_b angle_p vertical_tol_deg : Q) : Q :=
  let rel_ccw := angle_b - angle_p in
  let rot := normalize_deg (- rel_ccw) in
  if negb (is_vertical_rel_deg rel_ccw vertical_tol_deg) then - rot else rot.

(** [if abs(rot_spine) > 1e-6: d["rotation"] = round(rot_spine, 4)]: the
    [rotation] entry of the bone record, absent when [None]. *)
Definition exported_rotation (angle_b angle_p vertical_tol_deg : Q) : option Q :=
  let r := rot_spine angle_b angle_p vertical_tol_deg in
  if Qgt_bool (Qabs r) (1 # 1000000) then Some (py_round r 4) else None.


End Skeleton.

(** ** Region vertices from mesh loops ([build_region_vertices_uvs]) *)

Module Region.
Import PyNum.
Local Open Scope Q_scope.

Record mesh_loop := {
  vertex_index : Z;
}.

(** [uv_layer.data], one [(uv.x, uv.y)] per loop; [None] is a missing
    layer. *)
Definition uv_layer : Type := option (list (Q * Q)).

(** The dictionary key [(vi, round(u, 6), round(v, 6))]; the rounded floats
    are kept in canonical form so that key equality is numeric equality. *)
Definition loop_key : Type := Z * Qc * Qc.

(** [(u, v)] of loop [li]: [(uv.x, 1 - uv.y)], or [(0, 1)] without UV
    data. *)
Definition loop_uv (uvl : uv_layer) (li : nat) : Q * Q :=
  match uvl with
  | Some data =>
      match data !! li with
      | Some uv => (uv.1, 1 - uv.2)
      | None => (0, 1)
      end
  | None => (0, 1)
  end.

Definition key_of (uvl : uv_layer) (li : nat) (loop : mesh_loop) : loop_key :=
  let uv := loop_uv uvl li in
  (vertex_index loop, Q2Qc (py_round uv.1 6), Q2Qc (py_round uv.2 6)).

(** The four accumulators of [build_region_vertices_uvs]. *)
Record region := {
  uvs : list Q;
  region_xy : list (Q * Q);
  new_to_src : list (Z * nat);
  loopkey_to_new : gmap loop_key nat;
}.

Definition empty_region : region :=
  {| uvs := []; region_xy := []; new_to_src := []; loopkey_to_new := ∅ |}.

(** One iteration of [for li, loop in enumerate(me.loops)]. *)
Definition region_step (uvl : uv_layer) (img_w img_h : Q)
    (st : region) (entry : nat * mesh_loop) : region :=
  let '(li, loop) := entry in
  let cx := img_w * (1 # 2) in
  let cy := img_h * (1 # 2) in
  let uv := loop_uv uvl li in
  let key := key_of uvl li loop in
  match loopkey_to_new st !! key with
  | Some _ => st
  | None =>
      {| loopkey_to_new := <[key := size (loopkey_to_new st)]> (loopkey_to_new st);
         new_to_src := new_to_src st ++ [(vertex_index loop, li)];
         uvs := uvs st ++ [py_round uv.1 6; py_round uv.2 6];
         region_xy := region_xy st ++ [(uv.1 * img_w - cx, cy - uv.2 * img_h)] |}
  end.

Definition enumerate {A} (l : list A) : list (nat * A) :=
  imap (λ i x, (i, x)) l.

Definition build_region_vertices_uvs (loops : list mesh_loop) (uvl : uv_layer)
    (img_w img_h : Q) : region :=
  foldl (region_step uvl img_w img_h) empty_region (enumerate loops).

(** The NEW index a loop is sent to, as [remap_triangles_to_new] looks it
    up. *)
Definition new_index_of (r : region) (uvl : uv_layer) (li : nat)
    (loop : mesh_loop) : option nat :=
  loopkey_to_new r !! key_of uvl li loop.

(** What holds of the accumulators after any number of iterations over the
    entries [ps]. *)
Record dedup_inv (uvl : uv_layer) (ps : list (nat * mesh_loop)) (r : region) : Prop := {
  inv_size : size (loopkey_to_new r) = length (new_to_src r);
  inv_xy : length (region_xy r) = length (new_to_src r);
  inv_uvs : length (uvs r) = (2 * length (new_to_src r))%nat;
  inv_bound : (length (new_to_src r) ≤ length ps)%nat;
  inv_found : ∀ li loop, (li, loop) ∈ ps →
                is_Some (loopkey_to_new r !! key_of uvl li loop);
  inv_src : ∀ k i, loopkey_to_new r !! k = Some i →
              ∃ li loop, (li, loop) ∈ ps ∧ key_of uvl li loop = k
                ∧ new_to_src r !! i = Some (vertex_index loop, li);
  inv_inj : ∀ k1 k2 i, loopkey_to_new r !! k1 = Some i →
              loopkey_to_new r !! k2 = Some i → k1 = k2;
  inv_onto : ∀ i, (i < length (new_to_src r))%nat →
              ∃ k, loopkey_to_new r !! k = Some i;
}.

End Region.

(** ** Keyframe timelines ([SPINE_Output_animation.py]) *)

Module Animation.
Import PyNum.
Local Open Scope Q_scope.

(** Blender's keyframe interpolation modes; [OtherInterp] stands for the
    easing modes the exporter does not look at. *)
Inductive interpolation_mode := BEZIER | CONSTANT | LINEAR | OtherInterp.

Global Instance interpolation_mode_eq_dec : EqDecision interpolation_mode.
Proof. solve_decision. Defined.

Record keyframe := {
  co : Q * Q;
  interpolation : interpolation_mode;
  handle_left : Q * Q;
  handle_right : Q * Q;
}.

(** An F-curve: [evaluate] is Blender's [fc.evaluate(frame)]. *)
Record fcurve := {
  data_path : string;
  array_index : Z;
  keyframe_points : list keyframe;
  evaluate : Z → Q;
}.

(** The [curve] entry of a keyframe record. *)
Inductive curve_tag :=
| Stepped
| CurveArray (c : list Q).

(** A record as [_emit_channel_timelines] returns it. *)
Record key_record := {
  time : Q;
  _vals : list Q;
  curve : option curve_tag;
}.

(** [_scene_seconds] *)
Definition _scene_seconds (frame fps : Q) : Q :=
  if Qgt_bool fps 0 then frame / fps else frame.

(** [int(round(k.co.x))] *)
Definition frame_of (k : keyframe) : Z := round_half_even (co k).1.

(** [_knot_map_by_frame]: a later keyframe on the same rounded frame
    replaces an earlier one. *)
Definition _knot_map_by_frame (fc : fcurve) : gmap Z keyframe :=
  foldl (λ m k, <[frame_of k := k]> m) ∅ (keyframe_points fc).

Definition tiny : Q := 1 # 1000000000000.

(** [_handles_to_curve_abs_seconds] *)
Definition _handles_to_curve_abs_seconds (k_i k_j : option keyframe) (fps : Q)
    (value_xform : option (Q → Q)) : option (list Q) :=
  match k_i, k_j with
  | Some k_i, Some k_j =>
      if bool_decide (interpolation k_i ≠ BEZIER)
         || bool_decide (interpolation k_j ≠ BEZIER) then None
      else
        let '(ti_f, vi) := co k_i in
        let '(tj_f, vj) := co k_j in
        let '(hi_t_f, hi_v) := handle_right k_i in
        let '(hj_t_f, hj_v) := handle_left k_j in
        if Qle_bool (Qabs (tj_f - ti_f)) tiny then None
        else
          let vx v := match value_xform with Some f => f v | None => v end in
          let cx1 := _scene_seconds hi_t_f fps in
          let cy1 := vx hi_v in
          let cx2 := _scene_seconds hj_t_f fps in
          let cy2 := vx hj_v in
          if Qle_bool (Qabs (vj - vi)) tiny then None
          else Some [py_round cx1 6; py_round cy1 6; py_round cx2 6; py_round cy2 6]
  | _, _ => None
  end.

(** [sorted(frames)] for the set of rounded keyframe times. *)
Definition frames_of (fcurves : list fcurve) : list Z :=
  merge_sort Z.le
    (elements (list_to_set (C := gset Z)
                 (flat_map (λ fc, frame_of <$> keyframe_points fc) fcurves))).

(** [value_xform_per_channel[ch] if value_xform_per_channel else None];
    the outer [None] is the [IndexError] of a list that is too short. *)
Definition xform_at (value_xform_per_channel : list (Q → Q)) (ch : nat)
  : option (option (Q → Q)) :=
  match value_xform_per_channel with
  | [] => Some None
  | _ => Some <$> (value_xform_per_channel !! ch)
  end.

(** The curve tag of the segment from frame [f] to the next frame [nxt]. *)
Definition segment_curve (fcurves : list fcurve) (knotmaps : list (gmap Z keyframe))
    (fps : Q) (value_xform_per_channel : list (Q → Q)) (f nxt : Z)
  : option (option curve_tag) :=
  let km0 := default ∅ (knotmaps !! 0%nat) in
  let k_i_ref := km0 !! f in
  let k_j_ref := km0 !! nxt in
  if match k_i_ref with
     | Some k => bool_decide (interpolation k = CONSTANT)
     | None => false
     end
  then Some (Some Stepped)
  else if bool_decide (length fcurves = 1%nat) then
    xf0 ← xform_at value_xform_per_channel 0;
    Some (CurveArray <$> _handles_to_curve_abs_seconds k_i_ref k_j_ref fps xf0)
  else
    let km1 := default ∅ (knotmaps !! 1%nat) in
    xf0 ← xform_at value_xform_per_channel 0;
    let cx := _handles_to_curve_abs_seconds (km0 !! f) (km0 !! nxt) fps xf0 in
    xf1 ← xform_at value_xform_per_channel 1;
    let cy := _handles_to_curve_abs_seconds (km1 !! f) (km1 !! nxt) fps xf1 in
    match cx, cy with
    | Some cx, Some cy => Some (Some (CurveArray (cx ++ cy)))
    | _, _ => Some None
    end.

(** The sampled, transformed values of all channels at frame [f]. *)
Definition sample_vals (fcurves : list fcurve)
    (value_xform_per_channel : list (Q → Q)) (f : Z) : list Q :=
  imap (λ ch fc,
          match value_xform_per_channel !! ch with
          | Some xform => xform (evaluate fc f)
          | None => evaluate fc f
          end) fcurves.

Definition is_curve_array (tag : option curve_tag) : bool :=
  match tag with Some (CurveArray _) => true | _ => false end.

(** The [for idx, f in enumerate(frames)] loop; the flag is [stepped_only]. *)
Fixpoint emit_loop (fcurves : list fcurve) (knotmaps : list (gmap Z keyframe))
    (fps : Q) (to_seconds : Z → Q) (value_xform_per_channel : list (Q → Q))
    (frames : list Z) : option (list key_record * bool) :=
  match frames with
  | [] => Some ([], true)
  | f :: rest =>
      tag ← match rest with
            | nxt :: _ => segment_curve fcurves knotmaps fps value_xform_per_channel f nxt
            | [] => Some None
            end;
      tl ← emit_loop fcurves knotmaps fps to_seconds value_xform_per_channel rest;
      Some ({| time := py_round (to_seconds f) 6;
               _vals := sample_vals fcurves value_xform_per_channel f;
               curve := tag |} :: tl.1,
            negb (is_curve_array tag) && tl.2)
  end.

(** [_emit_channel_timelines]; [fps] is [bpy.context.scene.render.fps]. *)
Definition _emit_channel_timelines (fps : Q) (fcurves : list fcurve)
    (to_seconds : Z → Q) (value_xform_per_channel : list (Q → Q))
  : option (list key_record * bool) :=
  match fcurves with
  | [] => Some ([], false)
  | _ =>
      match frames_of fcurves with
      | [] => Some ([], false)
      | frames =>
          emit_loop fcurves (_knot_map_by_frame <$> fcurves) fps to_seconds
            value_xform_per_channel frames
      end
  end.

(** *** [build_animations] *)

(** The double-quote character of the data paths. *)
Definition dquote : string :=
  String (Ascii.Ascii false true false false false true false false) EmptyString.

(** [_bone_path]: the path [pose.bones[<quoted name>].<prop>]. *)
Definition _bone_path (bone_name prop : string) : string :=
  ("pose.bones[" +:+ dquote +:+ bone_name +:+ dquote +:+ "]." +:+ prop)%string.

Record action := {
  action_name : string;
  fcurves : list fcurve;
}.

(** [_fcurves_for_path] with an index whitelist. *)
Definition _fcurves_for_path (act : action) (data_path_prefix : string)
    (index_whitelist : list Z) : list fcurve :=
  filter (λ fc, String.prefix data_path_prefix (data_path fc) = true
                ∧ array_index fc ∈ index_whitelist) (fcurves act).

(** [AXIS_MAP] *)
Definition loc_x_index : Z := 1.
Definition loc_y_index : Z := 0.
Definition rot_euler_index : Z := 2.
Definition scale_x_index : Z := 0.
Definition scale_y_index : Z := 2.
Definition per_bone_rot_euler_index : gmap string Z := ∅.

(** [{fc.array_index: fc for fc in fcs}] *)
Definition by_index (fcs : list fcurve) : gmap Z fcurve :=
  foldl (λ m fc, <[array_index fc := fc]> m) ∅ fcs.

(** The two conditional [append]s that build [pair] / [spair]. *)
Definition channel_pair (by_idx : gmap Z fcurve) (ix iy : Z) : list fcurve :=
  option_list (by_idx !! ix) ++ option_list (by_idx !! iy).

(** [pair.sort(key=lambda fc: 0 if fc.array_index == ix else 1)] on the two
    elements of a pair (stable). *)
Definition sort_pair (ix : Z) (pair : list fcurve) : list fcurve :=
  match pair with
  | [a; b] =>
      if bool_decide (array_index a ≠ ix) && bool_decide (array_index b = ix)
      then [b; a] else [a; b]
  | _ => pair
  end.

(** A record of an output timeline: [time], optional [curve], and the value
    fields present. *)
Record out_key := {
  k_time : Q;
  k_curve : option curve_tag;
  k_x : option Q;
  k_y : option Q;
  k_value : option Q;
}.

(** [x, y = k.pop("_vals"); k["x"] = x; k["y"] = y]; unpacking anything but
    two values raises. *)
Definition xy_key (k : key_record) : option out_key :=
  match _vals k with
  | [x; y] => Some {| k_time := time k; k_curve := curve k;
                      k_x := Some x; k_y := Some y; k_value := None |}
  | _ => None
  end.

(** [(angle,) = k.pop("_vals"); if abs(angle) > 1e-9: k["value"] = angle] *)
Definition rotate_key (k : key_record) : option out_key :=
  match _vals k with
  | [angle] =>
      Some {| k_time := time k; k_curve := curve k; k_x := None; k_y := None;
              k_value := if Qgt_bool (Qabs angle) (1 # 1000000000)
                         then Some angle else None |}
  | _ => None
  end.

(** The timelines of one bone; an absent timeline is [None]. *)
Record bone_timelines := {
  translate : option (list out_key);
  rotate : option (list out_key);
  scale : option (list out_key);
}.

Definition no_timelines : bone_timelines :=
  {| translate := None; rotate := None; scale := None |}.

Section build.
(** [math.degrees], [bpy.context.scene.render.fps] and the rig scale. *)
Variable degrees : Q → Q.
Variable fps : Q.
Variable SCALE : Q.

Definition to_seconds (f : Z) : Q := _scene_seconds (inject_Z f) fps.

(** The TRANSLATE block of the bone loop: [None] is a raised exception,
    [Some None] no timeline. *)
Definition translate_timeline (act : action) (bname : string)
  : option (option (list out_key)) :=
  let loc_fc := _fcurves_for_path act (_bone_path bname "location") [0; 1; 2]%Z in
  let pair := channel_pair (by_index loc_fc) loc_x_index loc_y_index in
  if bool_decide (length pair = 2%nat) then
    let vx v := py_round (v * SCALE) 4 in
    let vy v := py_round (v * SCALE) 4 in
    res ← _emit_channel_timelines fps (sort_pair loc_x_index pair) to_seconds [vx; vy];
    match res.1 with
    | [] => Some None
    | keys => Some <$> mapM xy_key keys
    end
  else Some None.

(** The ROTATE block. *)
Definition rotate_timeline (act : action) (bname : string)
  : option (option (list out_key)) :=
  let rot_idx := default rot_euler_index (per_bone_rot_euler_index !! bname) in
  let rot_fc := _fcurves_for_path act (_bone_path bname "rotation_euler") [rot_idx] in
  match rot_fc with
  | [] => Some None
  | _ =>
      let rxf v := py_round (degrees v) 4 in
      res ← _emit_channel_timelines fps rot_fc to_seconds [rxf];
      match res.1 with
      | [] => Some None
      | keys =>
          keys' ← mapM rotate_key keys;
          let wrote_any := existsb (λ k, bool_decide (is_Some (k_value k))) keys' in
          Some (if wrote_any then Some keys' else None)
      end
  end.

(** The SCALE block. *)
Definition scale_timeline (act : action) (bname : string)
  : option (option (list out_key)) :=
  let scl_fc := _fcurves_for_path act (_bone_path bname "scale") [0; 1; 2]%Z in
  let spair := channel_pair (by_index scl_fc) scale_x_index scale_y_index in
  if bool_decide (length spair = 2%nat) then
    let idf v := py_round v 6 in
    res ← _emit_channel_timelines fps (sort_pair scale_x_index spair) to_seconds [idf; idf];
    match res.1 with
    | [] => Some None
    | keys => Some <$> mapM xy_key keys
    end
  else Some None.

(** [bones_block.setdefault(bname, {})[kind] = keys], done only for a
    timeline that is present. *)
Definition set_timeline (bname : string)
    (upd : bone_timelines → list out_key → bone_timelines)
    (tl : option (list out_key)) (bones_block : gmap string bone_timelines)
  : gmap string bone_timelines :=
  match tl with
  | Some keys =>
      <[bname := upd (default no_timelines (bones_block !! bname)) keys]> bones_block
  | None => bones_block
  end.

(** One iteration of [for b in arm.data.bones]. *)
Definition bone_step (act : action) (bones_block : gmap string bone_timelines)
    (bname : string) : option (gmap string bone_timelines) :=
  t ← translate_timeline act bname;
  let blk := set_timeline bname
               (λ b keys, {| translate := Some keys; rotate := rotate b;
                             scale := scale b |}) t bones_block in
  r ← rotate_timeline act bname;
  let blk := set_timeline bname
               (λ b keys, {| translate := translate b; rotate := Some keys;
                             scale := scale b |}) r blk in
  s ← scale_timeline act bname;
  Some (set_timeline bname
          (λ b keys, {| translate := translate b; rotate := rotate b;
                        scale := Some keys |}) s blk).

(** The bone loop: the first exception aborts it. *)
Fixpoint bones_loop (act : action) (bones_block : gmap string bone_timelines)
    (bones : list string) : option (gmap string bone_timelines) :=
  match bones with
  | [] => Some bones_block
  | b :: rest =>
      blk ← bone_step act bones_block b;
      bones_loop act blk rest
  end.

(** The animation block: its name and the [bones] entry (absent when no
    bone has a timeline). *)
Record animation := {
  anim_name : string;
  anim_bones : option (gmap string bone_timelines);
}.

(** [build_animations]: [arm_action] is [arm.animation_data.action],
    [bones] the names of [arm.data.bones]. The outer [None] is a raised
    exception, [Some None] the empty dictionary. *)
Definition build_animations (arm_action : option action) (bones : list string)
  : option (option animation) :=
  match arm_action with
  | None => Some None
  | Some act =>
      bones_block ← bones_loop act ∅ bones;
      Some (Some {| anim_name := if bool_decide (action_name act = EmptyString)
                                 then "Action"%string else action_name act;
                    anim_bones := if bool_decide (bones_block = ∅) then None
                                  else Some bones_block |})
  end.
End build.

(** *** Vocabulary of the timeline properties *)



(** The timelines recorded for a bone in [bones_block] (none when the bone
    has no entry). *)
Definition tl_of (bones_block : gmap string bone_timelines) (bname : string)
  : bone_timelines :=
  default no_timelines (bones_block !! bname).

(** An F-curve of the action on [path] (by prefix) with array index [i]. *)
Definition has_channel (act : action) (path : string) (i : Z) : Prop :=
  ∃ fc, fc ∈ fcurves act ∧ String.prefix path (data_path fc) = true
        ∧ array_index fc = i.

(** Every timeline recorded in the block is the one the corresponding
    block of the loop body computes for that bone. *)
Definition block_sound (degrees : Q → Q) (fps SCALE : Q) (act : action)
    (blk : gmap string bone_timelines) : Prop :=
  ∀ b keys,
    (translate (tl_of blk b) = Some keys →
       translate_timeline fps SCALE act b = Some (Some keys))
    ∧ (rotate (tl_of blk b) = Some keys →
       rotate_timeline degrees fps act b = Some (Some keys))
    ∧ (scale (tl_of blk b) = Some keys →
       scale_timeline fps act b = Some (Some keys)).

(** The threshold below which a rotation value is not written. *)
Definition angle_eps : Q := 1 # 1000000000.

End Animation.

(** ** Convex hull and hull-first reordering ([SPINE_Output_meshutils.py]) *)

Module Hull.
Import PyNum.
Local Open Scope Q_scope.

Definition point : Type := Q * Q.

(** [pts[i]] for an index the caller keeps in range. *)
Definition pt (pts : list point) (i : nat) : point := default (0, 0) (pts !! i).

(** [tri_area2_xy]: twice the signed area of the triangle [a b c], positive
    when counter-clockwise. The local [cross] of [convex_hull_indices_xy] is
    the same expression. *)
Definition tri_area2_xy (pts : list point) (a b c : nat) : Q :=
  let '(ax, ay) := pt pts a in
  let '(bx, by_) := pt pts b in
  let '(cx, cy) := pt pts c in
  (bx - ax) * (cy - ay) - (by_ - ay) * (cx - ax).

(** The order of the sort key [(pts[i][0], pts[i][1])]. *)
Definition key_leb (pts : list point) (i j : nat) : bool :=
  let '(ix, iy) := pt pts i in
  let '(jx, jy) := pt pts j in
  Qlt_bool ix jx || (Qeq_bool ix jx && Qle_bool iy jy).

(** [sorted(range(n), key=...)]: a stable sort, so an index goes in front of
    the first entry whose key is strictly greater. *)
Fixpoint insert_sorted (pts : list point) (i : nat) (l : list nat) : list nat :=
  match l with
  | [] => [i]
  | j :: l' => if key_leb pts i j then i :: l else j :: insert_sorted pts i l'
  end.

Definition sorted_idx (pts : list point) : list nat :=
  foldr (insert_sorted pts) [] (seq 0 (length pts)).

(** The [while len(lower) >= 2 and cross(lower[-2], lower[-1], i) <= 0: pop]
    loop. The stack is kept with its top first. *)
Fixpoint pop_while (pts : list point) (stack : list nat) (i : nat) : list nat :=
  match stack with
  | top :: (second :: _) as below =>
      if Qle_bool (tri_area2_xy pts second top i) 0
      then pop_while pts below i
      else stack
  | _ => stack
  end.

(** One iteration of a chain loop: pop, then [append(i)]. *)
Definition push_point (pts : list point) (stack : list nat) (i : nat) : list nat :=
  i :: pop_while pts stack i.

(** A whole chain loop over [order]; the result is the Python list, bottom to
    top. *)
Definition chain (pts : list point) (order : list nat) : list nat :=
  reverse (foldl (push_point pts) [] order).

(** De-duplication keeping first occurrences. *)
Fixpoint dedup (seen : gset nat) (l : list nat) : list nat :=
  match l with
  | [] => []
  | i :: l' =>
      if decide (i ∈ seen) then dedup seen l' else i :: dedup ({[ i ]} ∪ seen) l'
  end.

(** [convex_hull_indices_xy] *)
Definition convex_hull_indices_xy (pts : list point) : list nat :=
  let n := length pts in
  if (n <=? 3)%nat then seq 0 n
  else
    let order := sorted_idx pts in
    let lower := chain pts order in
    let upper := chain pts (reverse order) in
    dedup ∅ (removelast lower ++ removelast upper).

(** The remap loop over the triangle stream: a corner outside the dictionary
    is a [KeyError], a truncated stream an [IndexError]. *)
Fixpoint remap_tris (old_to_new : gmap nat nat) (region_xy2 : list point)
    (triangles : list nat) : option (list nat) :=
  match triangles with
  | [] => Some []
  | a :: b :: c :: rest =>
      a2 ← old_to_new !! a;
      b2 ← old_to_new !! b;
      c2 ← old_to_new !! c;
      tl ← remap_tris old_to_new region_xy2 rest;
      let area2 := tri_area2_xy region_xy2 a2 b2 c2 in
      if Qlt_bool (Qabs area2) (1 # 1000000000) then Some tl
      else if Qlt_bool area2 0 then Some (a2 :: c2 :: b2 :: tl)
      else Some (a2 :: b2 :: c2 :: tl)
  | _ => None
  end.

(** The fan [0, i, i+1] for [i] in [range(1, n - 1)]. *)
Definition fan_tris (n : nat) : list nat :=
  flat_map (λ i, [0; i; i + 1]%nat) (seq 1 (n - 2)).

Record reordered := {
  region_xy2 : list point;
  uvs2 : list Q;
  new_to_src2 : list (Z * nat);
  triangles2 : list nat;
  hull_idx : list nat;
}.

(** [[(uvs[i*2], uvs[i*2+1]) for i in range(len(uvs)//2)]] *)
Fixpoint uvs_pairs (uvs : list Q) : list (Q * Q) :=
  match uvs with
  | u :: v :: rest => (u, v) :: uvs_pairs rest
  | _ => []
  end.

(** [hull_idx + tail_idx] *)
Definition new_order (n : nat) (hull : list nat) : list nat :=
  hull ++ filter (λ i, i ∉ (list_to_set hull : gset nat)) (seq 0 n).

(** [{old: i for i, old in enumerate(new_order)}] *)
Definition old_to_new_of (order : list nat) : gmap nat nat :=
  foldl (λ m e, <[e.2 := e.1]> m) ∅ (imap (λ i old, (i, old)) order).

(** [hull_first_reorder]; [None] is a raised [IndexError]/[KeyError]. *)
Definition hull_first_reorder (region_xy_centered : list point) (uvs : list Q)
    (new_to_src : list (Z * nat)) (triangles : list nat) : option reordered :=
  let n := length region_xy_centered in
  let hull := if (3 <=? n)%nat then convex_hull_indices_xy region_xy_centered
              else seq 0 n in
  let order := new_order n hull in
  let old_to_new := old_to_new_of order in
  let xy2 := pt region_xy_centered <$> order in
  pairs ← mapM (λ old, uvs_pairs uvs !! old) order;
  src2 ← mapM (λ old, new_to_src !! old) order;
  remapped ← remap_tris old_to_new xy2 triangles;
  let tris := match remapped with
              | [] => if (3 <=? length xy2)%nat then fan_tris (length xy2) else []
              | _ => remapped
              end in
  Some {| region_xy2 := xy2;
          uvs2 := flat_map (λ p, [p.1; p.2]) pairs;
          new_to_src2 := src2;
          triangles2 := tris;
          hull_idx := hull |}.

(** Triangles of a flat stream. *)
Fixpoint tris_of (flat : list nat) : list (nat * nat * nat) :=
  match flat with
  | a :: b :: c :: rest => (a, b, c) :: tris_of rest
  | _ => []
  end.

End Hull.

(** ** Orientation and order of points in the plane *)

Module Plane.
Import Hull.
Local Open Scope Q_scope.

(** Twice the signed area of the triangle of three points: positive for a
    left turn [a -> b -> c]. *)
Definition cr (a b c : point) : Q :=
  (b.1 - a.1) * (c.2 - a.2) - (b.2 - a.2) * (c.1 - a.1).

(** The lexicographic order of the sort key. *)
Definition lex_lt (a b : point) : Prop :=
  a.1 < b.1 ∨ (a.1 == b.1 ∧ a.2 < b.2).

Definition lex_le (a b : point) : Prop :=
  a.1 < b.1 ∨ (a.1 == b.1 ∧ a.2 <= b.2).

(** Numeric equality of points. *)
Definition peq (a b : point) : Prop := a.1 == b.1 ∧ a.2 == b.2.

(** Reflection through the origin. *)
Definition qneg (a : point) : point := (- a.1, - a.2).

(** Cross product of two vectors, and the half-plane of lexicographically
    positive (resp. non-negative) vectors. *)
Definition vcross (ux uy vx vy : Q) : Q := ux * vy - uy * vx.

Definition Hpos (ux uy : Q) : Prop := 0 < ux ∨ (ux == 0 ∧ 0 < uy).

Definition Hnn (ux uy : Q) : Prop := 0 < ux ∨ (ux == 0 ∧ 0 <= uy).





End Plane.

(** ** Shape of a chain stack *)

Module ChainShape.
Import Hull Plane.
Local Open Scope Q_scope.

(** All definitions are relative to [P], the point an index stands for; the
    stack has its top first, so it runs against the order of the chain. *)
Section shape.
Variable P : nat → point.






End shape.

End ChainShape.

Module ChainSpec.
Import Hull Plane ChainShape.
Local Open Scope Q_scope.


End ChainSpec.

Module SortSpec.
Import Hull Plane.


End SortSpec.

Module HullSpec.
Import Hull Plane ChainShape.
Local Open Scope Q_scope.



End HullSpec.

Module ReorderSpec.
Import Hull Plane.

(** The arrays handed to [hull_first_reorder] fit the region: a UV pair and
    a source entry for each point, and a triangle stream of whole triangles
    over valid indices. *)
Definition reorder_inputs_ok (pts : list point) (uvs : list Q)
    (new_to_src : list (Z * nat)) (triangles : list nat) : Prop :=
  (2 * length pts ≤ length uvs)%nat
  ∧ (length pts ≤ length new_to_src)%nat
  ∧ (length triangles mod 3 = 0)%nat
  ∧ Forall (λ a, (a < length pts)%nat) triangles.

(** A sample region: a square with its centre. *)
Definition sample_region : list point :=
  [(0, 0); (-1, -1); (1, 1); (-1, 1); (1, -1)]%Q.

End ReorderSpec.

Module RegionSamples.
Import Hull Plane.
Local Open Scope Q_scope.




(** The region of one triangle whose three UV corners lie on a line. *)
Definition flat_triangle_region : list point := [(-1, 0); (0, 0); (1, 0)].

End RegionSamples.

(** ** A sample action *)

Module Sample.
Import Animation.
Local Open Scope Q_scope.

(** A rational stand-in for [math.degrees] (180/pi to 10 digits). *)
Definition degrees (v : Q) : Q := v * (572957795131 # 10000000000).

(** A keyframe at frame [t] with value [v] and flat handles one frame away. *)
Definition key_at (t v : Q) (i : interpolation_mode) : keyframe :=
  {| co := (t, v); interpolation := i;
     handle_left := (t - 1, v); handle_right := (t + 1, v) |}.

(** A channel keyed at frames 0 and 24 with values [v0] and [v1]. *)
Definition ramp (path : string) (idx : Z) (v0 v1 : Q) : fcurve :=
  {| data_path := path; array_index := idx;
     keyframe_points := [key_at 0 v0 LINEAR; key_at 24 v1 LINEAR];
     evaluate := λ f, if (f <=? 0)%Z then v0
                      else if (24 <=? f)%Z then v1
                      else v0 + (v1 - v0) * inject_Z f / 24 |}.

(** Bone "arm": rotation from 0 to 1 radian, location keyed on both mapped
    axes, scale keyed on X only. *)
Definition arm_action : action :=
  {| action_name := "wave";
     fcurves := [ ramp (_bone_path "arm" "rotation_euler") 2 0 1;
                  ramp (_bone_path "arm" "location") 0 0 (1 # 2);
                  ramp (_bone_path "arm" "location") 1 0 (1 # 4);
                  ramp (_bone_path "arm" "scale") 0 1 2 ] |}.

End Sample.

(** ** Further edge-stream helpers ([SPINE_Output_meshutils.py]) *)

Module EdgeStreams.
Import Edges.

(** [sanitize_edges] *)
Definition sanitize_edges (edges_flat : list Z) (vcount : Z) : list Z :=
  _sanitize_pairs edges_flat vcount.

(** The loop of [edges_vertices_to_even_stream]; reading [edges_vert[k+1]]
    past the end of the list is an [IndexError] ([None]). *)
Fixpoint even_stream_loop (max_stream : Z) (edges_vert : list Z) : option (list Z) :=
  match edges_vert with
  | [] => Some []
  | x :: y :: rest =>
      let a := x * 2 in
      let b := y * 2 in
      tl ← even_stream_loop max_stream rest;
      Some (if (0 <=? a) && (a <=? max_stream) && (0 <=? b) && (b <=? max_stream)
               && negb (a =? b)
            then a :: b :: tl else tl)
  | [_] => None
  end.

(** [edges_vertices_to_even_stream] *)
Definition edges_vertices_to_even_stream (edges_vert : list Z) (vertex_count : Z)
  : option (list Z) :=
  match edges_vert with
  | [] => Some []
  | _ => even_stream_loop (Z.max 0 (vertex_count * 2 - 1)) edges_vert
  end.

(** [x * 2]: the position of vertex [x] in the [x, y, ...] stream. *)
Definition stream_pos (x : Z) : Z := x * 2.

(** Every value of a flat stream is a vertex index below [vcount]. *)
Definition all_in_range (vcount : Z) (flat : list Z) : Prop :=
  Forall (λ x, 0 <= x < vcount) flat.

(** A pair [(u, v)] of NEW indices in canonical form below [vcount]. *)
Definition canonical_edge (vcount : Z) (p : Z * Z) : Prop :=
  0 <= p.1 ∧ p.1 < p.2 ∧ p.2 < vcount.

End EdgeStreams.

(** ** The edges block of [export_now] *)

Module ExportEdges.
Import Edges EdgeTopology.

(** Lines 236-267 of [export_now]: the value stored in [att["edges"]]
    ([Some None] when the key is not set, [None] when a call raises).
    [emit_edges] is [EMIT_NONESSENTIAL and EDGES_MODE != "off"]. *)
Definition attachment_edges (emit_edges : bool) (default_mode : edge_mode)
    (triangles : list Z) (new_to_src : list (Z * Z)) (region_xy : list (Q * Q))
    (me_edges : list mesh_edge) (hull_idx : list Z) : option (option (list Z)) :=
  if emit_edges then
    raw_edges_vert ←
      build_edges_from_tris_and_manual default_mode triangles new_to_src
        (Some region_xy) (Some me_edges) (Some All) true true false;
    let vertex_count := Z.of_nat (length region_xy) in
    let clean_vert := sanitize_vert_edges raw_edges_vert vertex_count in
    let clean_vert :=
      match clean_vert with
      | [] => if (3 <=? length hull_idx)%nat
              then edges_perimeter_from_hull hull_idx else []
      | _ => clean_vert
      end in
    let edges_for_spine :=
      match clean_vert with
      | [] => []
      | _ => encode_spine_edges clean_vert vertex_count
      end in
    Some (match edges_for_spine with
          | [] => None
          | _ => if Nat.even (length edges_for_spine)
                 then Some edges_for_spine else None
          end)
  else Some None.

(** The attachment dictionary as far as [validate_attachment_edges] reads
    it. *)
Definition attachment_of (slot_name : string) (uvs : list Q)
    (edges : option (list Z)) : attachment :=
  {| att_name := slot_name; att_uvs := uvs; att_edges := edges |}.

End ExportEdges.

(** ** Vocabulary for mapped mesh edges *)

Module EdgeMapSpec.
Import Edges EdgeTopology.

(** The first position of [new_to_src] whose source vertex is [src]. *)
Definition first_new_index (src : Z) (new_to_src : list (Z * Z)) : option nat :=
  fst <$> list_find (λ e, e.1 = src) new_to_src.

(** The gate of the manual loop: every edge in mode "all", otherwise a seam
    (with [use_seams]) or a sharp edge (with [use_sharp]). *)
Definition edge_allowed (m : edge_mode) (use_seams use_sharp : bool)
    (e : mesh_edge) : bool :=
  bool_decide (m = All)
  || (use_seams && use_seam e) || (use_sharp && use_edge_sharp e).

(** [(u, v)] is the image in NEW index space of an allowed mesh edge, and
    lies below [vcount]. *)
Definition mapped_edge (m : edge_mode) (use_seams use_sharp : bool)
    (new_to_src : list (Z * Z)) (vcount : Z) (es : list mesh_edge)
    (p : Z * Z) : Prop :=
  ∃ e, e ∈ es ∧ edge_allowed m use_seams use_sharp e = true
       ∧ _map_src_edge_to_new (vertices e) new_to_src = Some p
       ∧ p.2 < vcount.

(** [(u, v)] is a side of exactly one triangle, canonical and below
    [vcount]. *)
Definition boundary_edge (triangles : list Z) (vcount : Z) (p : Z * Z) : Prop :=
  multiplicity triangles p = 1%nat ∧ 0 <= p.1 ∧ p.1 < p.2 ∧ p.2 < vcount.

End EdgeMapSpec.

(** ** Weight detection and fallback bones ([SPINE_Output_weights.py]) *)

Module WeightHelpers.
Import PyNum Weights.
Local Open Scope Q_scope.

(** The test of the inner loop of [mesh_has_deform_weights]:
    [vg_name in deform_names and g.weight > weight_eps]. *)
Definition usable_weight (names : gmap Z string) (deform_names : gset string)
    (weight_eps : Q) (g : group_element) : bool :=
  match names !! group g with
  | Some vg_name => bool_decide (vg_name ∈ deform_names)
                    && Qgt_bool (weight g) weight_eps
  | None => false
  end.

(** [mesh_has_deform_weights]: an object without vertex groups is not
    weighted; otherwise the two loops return at the first usable weight. *)
Definition mesh_has_deform_weights (obj : mesh_object) (deform_names : gset string)
    (weight_eps : Q) : bool :=
  match vertex_groups obj with
  | [] => false
  | _ =>
      existsb (λ v, existsb (usable_weight (vg_index_to_name obj) deform_names
                               weight_eps) (groups v))
        (mesh_vertices obj)
  end.

(** [counts[vg] = counts.get(vg, 0) + 1]; the dictionary is kept as the list
    of its items in insertion order, which is the order [max] walks. *)
Fixpoint count_up (vg : string) (counts : list (string * nat))
  : list (string * nat) :=
  match counts with
  | [] => [(vg, 1%nat)]
  | (k, n) :: rest =>
      if decide (k = vg) then (k, S n) :: rest else (k, n) :: count_up vg rest
  end.

(** The names counted by [dominant_deform_vg_on_mesh], one per group entry
    that names a deform bone with positive weight, in loop order. *)
Definition deform_hits (obj : mesh_object) (deform_names : gset string)
  : list string :=
  flat_map (λ v,
    omap (λ g,
      match vg_index_to_name obj !! group g with
      | Some vg => if bool_decide (vg ∈ deform_names) && Qgt_bool (weight g) 0
                   then Some vg else None
      | None => None
      end) (groups v)) (mesh_vertices obj).

(** [max(items, key=lambda kv: kv[1])]: the first item of greatest count. *)
Fixpoint max_count (best : string * nat) (items : list (string * nat))
  : string * nat :=
  match items with
  | [] => best
  | x :: rest => max_count (if (best.2 <? x.2)%nat then x else best) rest
  end.

(** One step of the inner loop of [dominant_deform_vg_on_mesh]. *)
Definition count_group (names : gmap Z string) (deform_names : gset string)
    (counts : list (string * nat)) (g : group_element) : list (string * nat) :=
  match names !! group g with
  | Some vg => if bool_decide (vg ∈ deform_names) && Qgt_bool (weight g) 0
               then count_up vg counts else counts
  | None => counts
  end.

(** The two nested loops. *)
Definition deform_counts (obj : mesh_object) (deform_names : gset string)
  : list (string * nat) :=
  foldl (λ counts v,
           foldl (count_group (vg_index_to_name obj) deform_names) counts (groups v))
    [] (mesh_vertices obj).

(** [dominant_deform_vg_on_mesh] *)
Definition dominant_deform_vg_on_mesh (obj : mesh_object)
    (deform_names : gset string) : option string :=
  match deform_counts obj deform_names with
  | [] => None
  | x :: rest => Some (max_count x rest).1
  end.

(** What the bone helpers read of a bone: its name and the name of its
    parent ([None] for a top-level bone). *)
Record bone := {
  bone_name : string;
  bone_parent : option string;
}.

(** [{b.name for b in all_bones if b.parent is None}] *)
Definition root_names (all_bones : list bone) : gset string :=
  list_to_set (bone_name <$> filter (λ b, bone_parent b = None) all_bones).

(** The three tests of [first_nonroot_deform_child], in order. *)
Definition deform_child_of_root (roots : gset string) (deform_names : gset string)
    (b : bone) : bool :=
  bool_decide (bone_name b ∈ deform_names)
  && match bone_parent b with
     | Some p => bool_decide (p ∈ roots)
     | None => false
     end.

Definition deform_with_parent (deform_names : gset string) (b : bone) : bool :=
  bool_decide (bone_name b ∈ deform_names)
  && bool_decide (bone_parent b ≠ None).

Definition deform_bone (deform_names : gset string) (b : bone) : bool :=
  bool_decide (bone_name b ∈ deform_names).

(** [for b in all_bones: if test(b): return b.name] *)
Definition first_name (test : bone → bool) (all_bones : list bone) : option string :=
  bone_name <$> head (filter (λ b, test b = true) all_bones).

(** [first_nonroot_deform_child] *)
Definition first_nonroot_deform_child (all_bones : list bone)
    (deform_names : gset string) : option string :=
  match first_name (deform_child_of_root (root_names all_bones) deform_names)
          all_bones with
  | Some n => Some n
  | None =>
      match first_name (deform_with_parent deform_names) all_bones with
      | Some n => Some n
      | None => first_name (deform_bone deform_names) all_bones
      end
  end.

(** The number of counted group entries that name [vg]. *)
Definition hit_count (obj : mesh_object) (deform_names : gset string)
    (vg : string) : nat :=
  length (filter (λ h, h = vg) (deform_hits obj deform_names)).

(** The total recorded for a key in a list of dictionary items. *)
Definition recorded (k : string) (counts : list (string * nat)) : nat :=
  sum_list (snd <$> filter (λ e, e.1 = k) counts).

Section slot.
(** [str.lower] *)
Variable lower : string → string.

(** The choice among the top-level bones that rule 1 and the last resort of
    [pick_slot_bone_for_object] share: a top bone called "root" in any
    case, else the first top bone, else [all_bones[0]] (an [IndexError]
    without bones). *)
Definition rootish (all_bones : list bone) : option string :=
  let tops := filter (λ b, bone_parent b = None) all_bones in
  match head (filter (λ tb, lower (bone_name tb) = "root"%string) tops) with
  | Some tb => Some (bone_name tb)
  | None =>
      match tops with
      | t :: _ => Some (bone_name t)
      | [] => bone_name <$> head all_bones
      end
  end.

(** [pick_slot_bone_for_object]. [parented_to_arm] is
    [arm and obj.parent is arm], [parent_bone] is [obj.parent_bone]. *)
Definition pick_slot_bone_for_object (parented_to_arm : bool)
    (parent_bone : string) (obj : mesh_object)
    (bone_to_skel_idx : gmap string nat) (all_bones : list bone)
    (deform_names : gset string) : option string :=
  if parented_to_arm && bool_decide (parent_bone = EmptyString)
  then rootish all_bones
  else
    let dom := dominant_deform_vg_on_mesh obj deform_names in
    match dom with
    | Some d =>
        if bool_decide (d ≠ EmptyString)
           && bool_decide (is_Some (bone_to_skel_idx !! d))
        then Some d
        else
          match first_nonroot_deform_child all_bones deform_names with
          | Some fb => if bool_decide (fb ≠ EmptyString) then Some fb
                       else rootish all_bones
          | None => rootish all_bones
          end
    | None =>
        match first_nonroot_deform_child all_bones deform_names with
        | Some fb => if bool_decide (fb ≠ EmptyString) then Some fb
                     else rootish all_bones
        | None => rootish all_bones
        end
    end.
End slot.

End WeightHelpers.

(** ** Rotation of region points ([SPINE_Output_helpers.py]) *)

Module Rotation.
Import PyNum Hull.
Local Open Scope Q_scope.

Section rotate.
(** [math.radians], [math.cos] and [math.sin]. *)
Variables radians cos sin : Q → Q.


End rotate.

End Rotation.

(** ** Triangles in NEW index space and centring ([SPINE_Output_meshutils.py]) *)

Module Triangles.
Import PyNum Region Hull.
Local Open Scope Q_scope.

(** A [MeshLoopTriangle]: the three loop indices and the three vertex
    indices of its corners. *)
Record loop_triangle := {
  lt_loops : nat * nat * nat;
  lt_vertices : Z * Z * Z;
}.

(** The local [uv_key] of [remap_triangles_to_new]. *)
Definition uv_key (uvl : uv_layer) (v_index : Z) (l_index : nat) : loop_key :=
  match uvl with
  | Some data =>
      match data !! l_index with
      | Some uv => (v_index, Q2Qc (py_round uv.1 6), Q2Qc (py_round (1 - uv.2) 6))
      | None => (v_index, Q2Qc 0, Q2Qc 1)
      end
  | None => (v_index, Q2Qc 0, Q2Qc 1)
  end.

(** The body of the [for lt in me.loop_triangles] loop: the three NEW
    indices, or nothing when a key is not in the dictionary. *)
Definition remap_triangle (uvl : uv_layer) (loopkey_to_new : gmap loop_key nat)
    (lt : loop_triangle) : list nat :=
  let '(l0, l1, l2) := lt_loops lt in
  let '(v0, v1, v2) := lt_vertices lt in
  match loopkey_to_new !! uv_key uvl v0 l0,
        loopkey_to_new !! uv_key uvl v1 l1,
        loopkey_to_new !! uv_key uvl v2 l2 with
  | Some a, Some b, Some c => [a; b; c]
  | _, _, _ => []
  end.

(** [remap_triangles_to_new] *)
Definition remap_triangles_to_new (loop_triangles : list loop_triangle)
    (uvl : uv_layer) (loopkey_to_new : gmap loop_key nat) : list nat :=
  flat_map (remap_triangle uvl loopkey_to_new) loop_triangles.

(** Python's [sum] of floats: a left fold from 0. *)
Definition sum_floats (l : list Q) : Q := foldl Qplus 0 l.

(** [center_region_xy]; the division by [len(region_xy)] raises
    [ZeroDivisionError] on an empty region. *)
Definition center_region_xy (region_xy : list (Q * Q))
  : option (list (Q * Q) * Q * Q) :=
  match region_xy with
  | [] => None
  | _ =>
      let n := inject_Z (Z.of_nat (length region_xy)) in
      let cx := sum_floats (fst <$> region_xy) / n in
      let cy := sum_floats (snd <$> region_xy) / n in
      Some ((λ p, (p.1 - cx, p.2 - cy)) <$> region_xy, cx, cy)
  end.

(** [prepare_region]; [rotate_fn] is the optional rotation function. *)
Definition prepare_region (loops : list mesh_loop)
    (loop_triangles : list loop_triangle) (uvl : uv_layer) (img_w img_h : Q)
    (rotate_fn : option (Q → Q → Q → Q * Q)) (rotate_deg : Q)
  : option reordered :=
  let r := build_region_vertices_uvs loops uvl img_w img_h in
  let region_xy :=
    match rotate_fn with
    | Some f =>
        if Qgt_bool (Qabs rotate_deg) (1 # 1000000000)
        then (λ p, f p.1 p.2 rotate_deg) <$> Region.region_xy r
        else Region.region_xy r
    | None => Region.region_xy r
    end in
  let triangles := remap_triangles_to_new loop_triangles uvl (loopkey_to_new r) in
  c ← center_region_xy region_xy;
  hull_first_reorder c.1.1 (uvs r) (new_to_src r) triangles.

(** Every corner of every loop triangle names a loop of the mesh together
    with that loop's vertex, as Blender guarantees for
    [me.loop_triangles]. *)
Definition corner_ok (loops : list mesh_loop) (l : nat) (v : Z) : Prop :=
  ∃ loop, loops !! l = Some loop ∧ vertex_index loop = v.

Definition triangles_fit_loops (loops : list mesh_loop)
    (loop_triangles : list loop_triangle) : Prop :=
  Forall (λ lt,
    corner_ok loops (lt_loops lt).1.1 (lt_vertices lt).1.1
    ∧ corner_ok loops (lt_loops lt).1.2 (lt_vertices lt).1.2
    ∧ corner_ok loops (lt_loops lt).2 (lt_vertices lt).2) loop_triangles.

(** NEW index [a] stands for source vertex [v]. *)
Definition new_index_for (r : region) (a : nat) (v : Z) : Prop :=
  ∃ l, new_to_src r !! a = Some (v, l).

End Triangles.

(** ** Vocabulary for the reordered arrays *)

Module ReorderShape.
Import Hull.

(** The entries [2i] and [2i+1] of a flat UV array. *)
Definition uv_at (uvs : list Q) (i : nat) : option Q * option Q :=
  (uvs !! (2 * i)%nat, uvs !! (2 * i + 1)%nat).


End ReorderShape.

(** ** Vocabulary for the sampled timelines *)

Module TimelineSpec.
Import PyNum Animation.
Local Open Scope Q_scope.

(** [fc] is the F-curve the dictionary [by_idx] of the bone loop holds for
    array index [i] on [path]. *)
Definition channel_of (act : action) (path : string) (i : Z) (fc : fcurve) : Prop :=
  by_index (_fcurves_for_path act path [0; 1; 2]%Z) !! i = Some fc.

(** Output record [k] is the sample at frame [f] of the channels [fx] and
    [fy], each value passed through [xf]. *)
Definition samples_pair (fps : Q) (xf : Q → Q) (fx fy : fcurve) (f : Z)
    (k : out_key) : Prop :=
  k_time k = py_round (to_seconds fps f) 6
  ∧ k_x k = Some (xf (evaluate fx f))
  ∧ k_y k = Some (xf (evaluate fy f))
  ∧ k_value k = None.

(** Some keyframe of some curve lies on frame [f] (after rounding). *)
Definition keyed_frame (fcurves : list fcurve) (f : Z) : Prop :=
  ∃ fc k, fc ∈ fcurves ∧ k ∈ keyframe_points fc ∧ frame_of k = f.

End TimelineSpec.

(** * Part II: properties *)

(** ** Comparisons on rationals *)

Module PyNumFacts.
Import PyNum.
Local Open Scope Q_scope.

Lemma Qle_bool_false x y : Qle_bool x y = false ↔ y < x.
Proof.
  rewrite <- not_true_iff_false, Qle_bool_iff. split.
  - apply Qnot_le_lt.
  - intros H1 H2. by apply (Qlt_not_le _ _ H1).
Qed.

Lemma Qgt_bool_true x y : Qgt_bool x y = true ↔ y < x.
Proof. unfold Qgt_bool. by rewrite negb_true_iff, Qle_bool_false. Qed.

Lemma Qgt_bool_false x y : Qgt_bool x y = false ↔ x <= y.
Proof. unfold Qgt_bool. by rewrite negb_false_iff, Qle_bool_iff. Qed.



End PyNumFacts.

(** ** Edge stream validity *)

Module EdgesFacts.
Import Edges.

(** Induction two elements at a time, the way the pair loops walk a flat
    stream. *)
Lemma pair_ind (P : list Z → Prop) :
  P [] → (∀ a, P [a]) → (∀ a b rest, P rest → P (a :: b :: rest)) →
  ∀ l, P l.
Proof.
  intros H0 H1 H2.
  assert (∀ l, P l ∧ ∀ a, P (a :: l)) as H.
  { induction l as [|x l [IHl IHl']]; split; auto. }
  intros l. apply H.
Qed.

Lemma in_vrange_spec vcount x :
  in_vrange vcount x = true ↔ 0 <= x < Z.max 0 vcount.
Proof. unfold in_vrange. rewrite andb_true_iff, Z.leb_le, Z.ltb_lt. tauto. Qed.

Lemma drop_unpaired_Forall (P : Z → Prop) ints :
  Forall P ints → Forall P (drop_unpaired ints).
Proof.
  unfold drop_unpaired. destruct (Nat.odd _); auto.
  induction 1 as [|y [|z ints] Hy Hrest IH]; simpl; auto.
Qed.

Lemma sanitize_loop_Forall (P : Z → Prop) ints :
  Forall P ints → ∀ seen, Forall P (sanitize_loop seen ints).
Proof.
  induction ints as [|a|a b rest IH] using pair_ind; intros HP seen; simpl;
    try constructor.
  inversion HP as [|? ? Ha HP']; subst. inversion HP' as [|? ? Hb HP'']; subst.
  destruct (a =? b); [auto|].
  destruct (a <? b); simpl; case_decide; auto.
Qed.

Lemma sanitize_loop_canonical ints :
  ∀ seen, Forall (λ p, p.1 < p.2) (pairs_of (sanitize_loop seen ints)).
Proof.
  induction ints as [|a|a b rest IH] using pair_ind; intros seen; simpl;
    try constructor.
  destruct (Z.eqb_spec a b) as [|Hne]; [auto|].
  destruct (Z.ltb_spec a b); simpl; case_decide; auto;
    constructor; simpl; auto; lia.
Qed.

Lemma _sanitize_pairs_in_range flat vcount :
  Forall (λ x, 0 <= x < Z.max 0 vcount) (_sanitize_pairs flat vcount).
Proof.
  unfold _sanitize_pairs. apply sanitize_loop_Forall, drop_unpaired_Forall.
  apply Forall_forall. intros x Hx.
  apply list_elem_of_filter in Hx as [Hx _].
  by apply in_vrange_spec.
Qed.

Lemma encode_loop_values v clean :
  Forall (λ x, 0 <= x < v) clean →
  Forall (stream_value_ok v) (encode_loop (v * 2 - 1) clean).
Proof.
  induction clean as [|a|a b rest IH] using pair_ind; intros HP; simpl;
    try constructor.
  inversion HP as [|? ? Ha HP']; subst. inversion HP' as [|? ? Hb HP'']; subst.
  destruct (_ && _); auto.
  repeat constructor; auto; try lia;
    rewrite Z.mul_comm; apply Z.even_mul; auto.
Qed.

Lemma encode_loop_pairs max_stream clean :
  Forall (λ p, p.1 ≠ p.2) (pairs_of (encode_loop max_stream clean)).
Proof.
  induction clean as [|a|a b rest IH] using pair_ind; simpl; try constructor.
  destruct (_ && _) eqn:E; auto.
  constructor; auto. simpl.
  apply andb_true_iff in E as [_ E]. apply negb_true_iff, Z.eqb_neq in E. done.
Qed.

Lemma encode_loop_even_length max_stream clean :
  Nat.even (length (encode_loop max_stream clean)) = true.
Proof.
  induction clean as [|a|a b rest IH] using pair_ind; simpl; auto.
  destruct (_ && _); auto.
Qed.

Lemma validate_loop_ok v e :
  Forall (stream_value_ok v) e → validate_loop (v * 2 - 1) e = None.
Proof.
  induction 1 as [|x e [Hev Hr] _ IH]; simpl; auto.
  assert (Z.land x 1 = 0) as ->.
  { change 1 with (Z.ones 1). rewrite Z.land_ones by lia.
    rewrite Z.pow_1_r. apply Z.even_spec in Hev as [m ->].
    rewrite Z.mul_comm. apply Z_mod_mult. }
  simpl.
  destruct (Z.ltb_spec x 0); try lia.
  destruct (Z.gtb_spec x (v * 2 - 1)); try lia. simpl. done.
Qed.

(** C2. For every flat list of NEW-index edge pairs and every vertex count
    [v >= 1], each value of [encode_spine_edges keep v] is even and lies in
    [[0, 2v)], the values come in pairs whose two members differ, and
    [validate_attachment_edges] raises nothing on an attachment that carries
    this stream as its [edges] and has [len(uvs) // 2 = v]. *)
Theorem encode_spine_edges_valid (keep : list Z) (v : Z) :
  1 <= v →
  Forall (stream_value_ok v) (encode_spine_edges keep v)
  ∧ Nat.even (length (encode_spine_edges keep v)) = true
  ∧ Forall (λ p, p.1 ≠ p.2) (pairs_of (encode_spine_edges keep v))
  ∧ ∀ att : attachment,
      att_edges att = Some (encode_spine_edges keep v) →
      Z.of_nat (length (att_uvs att)) / 2 = v →
      validate_attachment_edges att = None.
Proof.
  intros Hv.
  assert (Forall (stream_value_ok v) (encode_spine_edges keep v)) as Hvals.
  { unfold encode_spine_edges.
    pose proof (_sanitize_pairs_in_range keep v) as Hr.
    destruct (_sanitize_pairs keep v) eqn:E; [constructor|].
    apply encode_loop_values. eapply Forall_impl; [exact Hr|].
    simpl. intros x. lia. }
  split; [exact Hvals|]. split; [|split].
  - unfold encode_spine_edges. destruct (_sanitize_pairs keep v); auto.
    apply encode_loop_even_length.
  - unfold encode_spine_edges. destruct (_sanitize_pairs keep v); [constructor|].
    apply encode_loop_pairs.
  - intros att He Hu. unfold validate_attachment_edges. rewrite He, Hu.
    destruct (encode_spine_edges keep v) eqn:E; auto.
    destruct (Z.leb_spec v 0); [lia|].
    by apply validate_loop_ok.
Qed.

Lemma encode_spine_edges_valid_witness :
  let keep := [0; 1; 1; 2; 2; 0; 1; 0; 3; 3; 7; 1] in
  let att := {| att_name := "quad"; att_uvs := [0%Q; 0%Q; 1%Q; 0%Q; 1%Q; 1%Q];
                att_edges := Some (encode_spine_edges keep 3) |} in
  encode_spine_edges keep 3 = [0; 2; 2; 4; 0; 4]
  ∧ validate_attachment_edges att = None.
Proof.
  split; [vm_compute; reflexivity|].
  refine (proj2 (proj2 (proj2 (encode_spine_edges_valid _ 3 _))) _ _ _);
    [lia | reflexivity | reflexivity].
Defined.

End EdgesFacts.

(** ** Boundary edges *)

Module EdgeTopologyFacts.
Import Edges EdgeTopology EdgesFacts.

Lemma canon_sym a b : canon a b = canon b a.
Proof.
  unfold canon. destruct (Z.ltb_spec a b), (Z.ltb_spec b a); auto; try lia.
  f_equal; lia.
Qed.

Lemma canon_le a b : (canon a b).1 <= (canon a b).2.
Proof. unfold canon. destruct (Z.ltb_spec a b); simpl; lia. Qed.

Lemma canon_eq_iff a b c d :
  canon a b = canon c d ↔ (a = c ∧ b = d) ∨ (a = d ∧ b = c).
Proof.
  unfold canon. destruct (Z.ltb_spec a b), (Z.ltb_spec c d); split;
    intros Heq; try (injection Heq; lia); destruct Heq as [[-> ->]|[-> ->]];
    auto; try lia; f_equal; lia.
Qed.

Lemma canon_id u v : u < v → canon u v = (u, v).
Proof. intros. unfold canon. destruct (Z.ltb_spec u v); auto; lia. Qed.

Lemma count_of_bump m a b e :
  count_of (bump m a b) e
  = (count_of m e + if decide (canon a b = e) then 1 else 0)%nat.
Proof.
  unfold count_of, bump. case_decide as He.
  - subst e. rewrite lookup_insert_eq. simpl. lia.
  - rewrite lookup_insert_ne by done. lia.
Qed.

Lemma positive_bump m a b : positive_counts m → positive_counts (bump m a b).
Proof.
  intros Hm e n. unfold bump.
  destruct (decide (canon a b = e)) as [<-|Hne].
  - rewrite lookup_insert_eq. intros [= <-]. lia.
  - rewrite lookup_insert_ne by done. apply Hm.
Qed.

Lemma filter_eq_cons (s e : Z * Z) l :
  length (filter (λ x, x = e) (s :: l))
  = ((if decide (s = e) then 1 else 0) + length (filter (λ x, x = e) l))%nat.
Proof. rewrite filter_cons. case_decide; simpl; lia. Qed.

Lemma edge_counts_loop_spec tris :
  ∀ counts, positive_counts counts → (length tris mod 3 = 0)%nat →
  ∃ res, edge_counts_loop counts tris = Some res
         ∧ positive_counts res
         ∧ ∀ e, count_of res e = (count_of counts e + multiplicity tris e)%nat.
Proof.
  remember (length tris) as n eqn:Hn. revert tris Hn.
  induction n as [n IH] using lt_wf_ind. intros tris Hn counts Hpos Hmod.
  destruct tris as [|a [|b [|c rest]]]; cbn [length edge_counts_loop] in *; subst n.
  - exists counts. split; [done|]. split; [done|]. intros e.
    unfold multiplicity. simpl. lia.
  - discriminate.
  - discriminate.
  - assert (length rest mod 3 = 0)%nat as Hrest.
    { pose proof (Nat.Div0.mod_add (length rest) 1 3) as Hm.
      replace (length rest + 1 * 3)%nat with (S (S (S (length rest)))) in Hm by lia.
      congruence. }
    destruct (IH (length rest) ltac:(lia) rest eq_refl
                (bump (bump (bump counts a b) b c) c a))
      as (res & Hres & Hp & Hc); auto using positive_bump.
    exists res. split; [done|]. split; [done|]. intros e.
    rewrite Hc, !count_of_bump. unfold multiplicity. simpl tri_sides.
    rewrite !filter_eq_cons. fold (multiplicity rest e). lia.
Qed.

Lemma elem_of_edges_with_count k counts e :
  e ∈ edges_with_count k counts ↔ counts !! e = Some k.
Proof.
  unfold edges_with_count. rewrite list_elem_of_fmap. split.
  - intros ([e' n] & -> & Hin). apply elem_of_map_to_list in Hin.
    apply map_lookup_filter_Some in Hin as [Hl Hk]. simpl in *. by subst.
  - intros Hl. exists (e, k). split; [done|].
    apply elem_of_map_to_list, map_lookup_filter_Some. done.
Qed.

Lemma tri_sides_canonical t : Forall (λ s, s.1 <= s.2) (tri_sides t).
Proof.
  remember (length t) as n eqn:Hn. revert t Hn.
  induction n as [n IH] using lt_wf_ind. intros t ->.
  destruct t as [|a [|b [|c rest]]]; simpl; try constructor;
    auto using canon_le.
  repeat constructor; auto using canon_le.
  eapply IH; [|reflexivity]. simpl. lia.
Qed.

Lemma multiplicity_noncanonical t e : e.2 < e.1 → multiplicity t e = 0%nat.
Proof.
  intros He. unfold multiplicity.
  induction (tri_sides_canonical t) as [|s l Hs _ IH]; [done|].
  rewrite filter_eq_cons, IH. case_decide; [subst; lia|done].
Qed.

Lemma add_edge_spec vcount s q p :
  p ∈ add_edge vcount s q ↔ p ∈ s ∨ (edge_admissible vcount q ∧ p = canon q.1 q.2).
Proof.
  unfold add_edge, edge_admissible.
  destruct (_ && _) eqn:E.
  - repeat (apply andb_true_iff in E as [E ?]).
    rewrite elem_of_union, elem_of_singleton.
    assert (q.1 ≠ q.2) by (apply Z.eqb_neq, negb_true_iff; done).
    split; [intros [->|?]; auto; right; split; auto; lia | intros [?|[_ ->]]; auto].
  - split; [auto|]. intros [?|[(H1 & H2 & H3) _]]; [done|]. exfalso.
    apply not_true_iff_false in E. apply E.
    rewrite !andb_true_iff, negb_true_iff, Z.eqb_neq. lia.
Qed.

Lemma foldl_add_edge_spec vcount l :
  ∀ s p, p ∈ foldl (add_edge vcount) s l
         ↔ p ∈ s ∨ ∃ q, q ∈ l ∧ edge_admissible vcount q ∧ p = canon q.1 q.2.
Proof.
  induction l as [|q l IH]; intros s p; simpl.
  - split; [auto|]. intros [?|(q & Hq & _)]; [done|]. by apply elem_of_nil in Hq.
  - rewrite IH, add_edge_spec. split.
    + intros [[?|[? ?]]|(q' & Hq' & ?)]; auto.
      * right. exists q. split; [left|]; auto.
      * right. exists q'. split; [by right|]; auto.
    + intros [?|(q' & Hq' & Hadm & Hp)]; auto.
      apply elem_of_cons in Hq' as [->|Hq']; auto.
      right. exists q'. auto.
Qed.

Lemma pairs_of_flat ps : pairs_of (_pairs_to_flat ps) = ps.
Proof. induction ps as [|[u v] ps IH]; simpl; [done|]. by rewrite IH. Qed.

Lemma flat_even_length ps : Nat.odd (length (_pairs_to_flat ps)) = false.
Proof.
  induction ps as [|[u v] ps IH]; simpl; [done|].
  unfold _pairs_to_flat in IH. rewrite <- Nat.negb_even in *. simpl. done.
Qed.

Lemma sanitize_loop_id ps :
  ∀ seen, NoDup ps → Forall (λ p, p.1 < p.2) ps → (∀ p, p ∈ ps → p ∉ seen) →
  sanitize_loop seen (_pairs_to_flat ps) = _pairs_to_flat ps.
Proof.
  induction ps as [|[u v] ps IH]; intros seen Hnd Hlt Hseen; simpl; [done|].
  apply NoDup_cons in Hnd as [Hnotin Hnd].
  apply Forall_cons in Hlt as [Huv Hlt]. simpl in Huv.
  destruct (Z.eqb_spec u v); [lia|].
  destruct (Z.ltb_spec u v); [|lia]. simpl.
  case_decide as Hs.
  { exfalso. eapply Hseen; [|exact Hs]. left. }
  f_equal. f_equal. apply IH; auto.
  intros p Hp. rewrite elem_of_union, elem_of_singleton.
  intros [->|Hin]; [done|]. eapply Hseen; [|exact Hin]. by right.
Qed.

Lemma _sanitize_pairs_id ps vcount :
  NoDup ps → Forall (λ p, p.1 < p.2) ps →
  Forall (λ p, 0 <= p.1 < vcount ∧ 0 <= p.2 < vcount) ps →
  _sanitize_pairs (_pairs_to_flat ps) vcount = _pairs_to_flat ps.
Proof.
  intros Hnd Hlt Hr. unfold _sanitize_pairs.
  assert (filter (λ x, in_vrange vcount x = true) (_pairs_to_flat ps)
          = _pairs_to_flat ps) as ->.
  { clear Hnd Hlt. induction Hr as [|[u v] ps [Hu Hv] _ IH]; [done|].
    simpl in Hu, Hv. change (_pairs_to_flat ((u, v) :: ps))
      with (u :: v :: _pairs_to_flat ps).
    assert (in_vrange vcount u = true) by (apply in_vrange_spec; lia).
    assert (in_vrange vcount v = true) by (apply in_vrange_spec; lia).
    rewrite !filter_cons, !decide_True by done. by rewrite IH. }
  unfold drop_unpaired. rewrite flat_even_length.
  apply sanitize_loop_id; auto. intros p _. apply not_elem_of_empty.
Qed.

Global Instance pair_le_total : Total pair_le.
Proof. intros [a b] [c d]. unfold pair_le. simpl. lia. Qed.

Global Instance pair_le_trans : Transitive pair_le.
Proof. intros [a b] [c d] [e f]. unfold pair_le. simpl. lia. Qed.

Lemma quad_multiplicity a b c d e :
  a ≠ b → a ≠ c → a ≠ d → b ≠ c → b ≠ d → c ≠ d →
  multiplicity [a; b; c; a; c; d] e = 1%nat ↔ e ∈ quad_perimeter a b c d.
Proof.
  intros. unfold multiplicity, quad_perimeter. simpl tri_sides.
  rewrite !filter_eq_cons. rewrite filter_nil. simpl length.
  rewrite (canon_sym c a), !elem_of_cons, elem_of_nil.
  repeat case_decide; subst;
    repeat match goal with
    | H : canon _ _ = canon _ _ |- _ => apply canon_eq_iff in H
    end; split; intros; try lia; intuition (try lia; try congruence).
Qed.

(** C9. In mode "boundary" (with [include_boundary] left at its default) a
    well-formed triangle stream yields a flat stream of pairwise distinct
    pairs, sorted, each pair [(u,v)] canonical with [0 <= u < v < vcount],
    and a pair is present exactly when it is a triangle side of
    multiplicity 1. For the two triangles [a b c] and [a c d] of a quad the
    pairs present are exactly its four perimeter sides; the diagonal is
    absent. *)
Theorem boundary_mode_exact
    (default_mode : edge_mode) (triangles : list Z) (new_to_src : list (Z * Z))
    (region_xy : option (list (Q * Q))) (me_edges : option (list mesh_edge))
    (use_seams use_sharp : bool) :
  (length triangles mod 3 = 0)%nat →
  ∃ flat,
    build_edges_from_tris_and_manual default_mode triangles new_to_src
      region_xy me_edges (Some Boundary) use_seams use_sharp true
    = Some flat
    ∧ flat = _pairs_to_flat (pairs_of flat)
    ∧ NoDup (pairs_of flat)
    ∧ Sorted pair_le (pairs_of flat)
    ∧ (∀ u v, (u, v) ∈ pairs_of flat
        ↔ multiplicity triangles (u, v) = 1%nat
          ∧ 0 <= u ∧ u < v ∧ v < edge_vcount region_xy new_to_src)
    ∧ (∀ a b c d, triangles = [a; b; c; a; c; d] →
        a ≠ b → a ≠ c → a ≠ d → b ≠ c → b ≠ d → c ≠ d →
        Forall (λ x, 0 <= x < edge_vcount region_xy new_to_src) [a; b; c; d] →
        (∀ e, e ∈ pairs_of flat ↔ e ∈ quad_perimeter a b c d)
        ∧ canon a c ∉ pairs_of flat).
Proof.
  intros Hmod. set (vcount := edge_vcount region_xy new_to_src).
  destruct (edge_counts_loop_spec triangles ∅) as (counts & Hc & Hpos & Hcnt);
    [intros e n; by rewrite lookup_empty | done |].
  set (S := if bool_decide (triangles ≠ [])
            then foldl (add_edge vcount) ∅ (edges_with_count 1 counts)
            else (∅ : gset (Z * Z))).
  set (ps := merge_sort pair_le (elements S)).
  assert (build_edges_from_tris_and_manual default_mode triangles new_to_src
      region_xy me_edges (Some Boundary) use_seams use_sharp true
      = Some (_sanitize_pairs (_pairs_to_flat ps) vcount)) as Hbuild.
  { unfold build_edges_from_tris_and_manual, _tri_boundary_edges_from_tris,
      _edge_counts_from_tris. simpl. rewrite Hc. subst ps S. fold vcount.
    destruct me_edges; simpl; case_bool_decide; simpl; done. }
  assert (∀ u v, (u, v) ∈ S
      ↔ multiplicity triangles (u, v) = 1%nat ∧ 0 <= u ∧ u < v ∧ v < vcount)
    as HS.
  { intros u v. subst S. case_bool_decide as Hne.
    - rewrite foldl_add_edge_spec. split.
      + intros [Hin|([x y] & Hq & (Hx & Hy & Hxy) & Hp)];
          [by apply not_elem_of_empty in Hin|]. simpl in *.
        apply elem_of_edges_with_count in Hq.
        assert (canon x y = (x, y)) as Hcan.
        { specialize (Hcnt (x, y)). unfold count_of in Hcnt.
          rewrite Hq, lookup_empty in Hcnt. simpl in Hcnt.
          assert (x < y ∨ y < x) as [?|Hyx] by lia; [by apply canon_id|].
          exfalso. rewrite multiplicity_noncanonical in Hcnt by (simpl; lia).
          lia. }
        rewrite Hcan in Hp. injection Hp as -> ->.
        specialize (Hcnt (x, y)). unfold count_of in Hcnt.
        rewrite Hq, lookup_empty in Hcnt. simpl in Hcnt.
        assert (x < y).
        { pose proof (canon_le x y) as Hle. rewrite Hcan in Hle. simpl in Hle. lia. }
        split; [lia|lia].
      + intros (Hm & Hu & Huv & Hv). right. exists (u, v). split.
        * apply elem_of_edges_with_count.
          specialize (Hcnt (u, v)). unfold count_of in Hcnt.
          rewrite lookup_empty in Hcnt. simpl in Hcnt.
          destruct (counts !! (u, v)) as [n|] eqn:E; simpl in Hcnt; [f_equal; lia|lia].
        * unfold edge_admissible. simpl. rewrite canon_id by done.
          split; [|done]. lia.
    - subst triangles.
      split; [intros Hin; by apply not_elem_of_empty in Hin|].
      intros [Hm _]. unfold multiplicity in Hm. simpl in Hm. discriminate. }
  assert (ps ≡ₚ elements S) as Hperm by apply merge_sort_Permutation.
  assert (NoDup ps) as Hnd by (rewrite Hperm; apply NoDup_elements).
  assert (∀ u v, (u, v) ∈ ps
      ↔ multiplicity triangles (u, v) = 1%nat ∧ 0 <= u ∧ u < v ∧ v < vcount)
    as Hps.
  { intros u v. rewrite Hperm, elem_of_elements. apply HS. }
  assert (_sanitize_pairs (_pairs_to_flat ps) vcount = _pairs_to_flat ps) as Hid.
  { apply _sanitize_pairs_id; auto; apply Forall_forall; intros [u v] Hin;
      apply Hps in Hin; simpl; lia. }
  exists (_pairs_to_flat ps). rewrite Hbuild, Hid, pairs_of_flat.
  split; [done|]. split; [done|]. split; [done|].
  split; [apply Sorted_merge_sort, _|]. split; [exact Hps|].
  intros a b c d -> Hab Hac Had Hbc Hbd Hcd Hr.
  assert (∀ e, e ∈ ps ↔ e ∈ quad_perimeter a b c d) as Hquad.
  { intros [u v]. rewrite Hps, quad_multiplicity by done. split; [tauto|].
    intros Hin. split; [done|].
    apply Forall_cons in Hr as [Ha Hr]. apply Forall_cons in Hr as [Hb Hr].
    apply Forall_cons in Hr as [Hc' Hr]. apply Forall_cons in Hr as [Hd _].
    fold vcount in Ha, Hb, Hc', Hd.
    unfold quad_perimeter in Hin. rewrite !elem_of_cons, elem_of_nil in Hin.
    unfold canon in Hin.
    destruct (Z.ltb_spec a b), (Z.ltb_spec b c), (Z.ltb_spec c d),
      (Z.ltb_spec d a);
      destruct Hin as [Hin|[Hin|[Hin|[Hin|[]]]]]; injection Hin as -> ->; lia. }
  split; [exact Hquad|].
  rewrite Hquad. unfold quad_perimeter. rewrite !elem_of_cons, elem_of_nil.
  rewrite !canon_eq_iff. lia.
Qed.

Lemma boundary_mode_exact_witness :
  let square := [(0, 0); (1, 0); (1, 1); (0, 1)]%Q in
  build_edges_from_tris_and_manual Mixed [0; 1; 2; 0; 2; 3] [] (Some square)
    None (Some Boundary) true true true
  = Some [0; 1; 0; 3; 1; 2; 2; 3]
  ∧ ∃ flat,
      build_edges_from_tris_and_manual Mixed [0; 1; 2; 0; 2; 3] [] (Some square)
        None (Some Boundary) true true true = Some flat
      ∧ (0, 2) ∉ pairs_of flat.
Proof.
  split; [vm_compute; reflexivity|].
  destruct (boundary_mode_exact Mixed [0; 1; 2; 0; 2; 3] []
              (Some [(0, 0); (1, 0); (1, 1); (0, 1)]%Q) None true true eq_refl)
    as (flat & Hb & _ & _ & _ & _ & Hq).
  exists flat. split; [exact Hb|].
  apply (Hq 0 1 2 3 eq_refl); try lia.
  repeat constructor; simpl; lia.
Defined.

End EdgeTopologyFacts.

(** ** Weight normalisation *)

Module WeightsFacts.
Import Weights PyNumFacts.
Local Open Scope Q_scope.

Lemma insert_desc_perm x l : insert_desc x l ≡ₚ x :: l.
Proof.
  induction l as [|y l IH]; simpl; [done|].
  destruct (Qle_bool y.2 x.2); [done|]. rewrite IH. apply Permutation_swap.
Qed.

Lemma sort_desc_perm l : sort_desc l ≡ₚ l.
Proof.
  induction l as [|x l IH]; simpl; [done|].
  by rewrite insert_desc_perm, IH.
Qed.

Lemma insert_desc_sorted x l :
  Sorted weight_ge l → Sorted weight_ge (insert_desc x l).
Proof.
  induction 1 as [|y l Hl IH Hhd]; simpl; [repeat constructor|].
  destruct (Qle_bool y.2 x.2) eqn:E.
  - apply Qle_bool_iff in E. repeat constructor; auto.
  - apply Qle_bool_false in E. constructor; [done|].
    destruct l as [|z l]; simpl in *.
    + constructor. unfold weight_ge. lra.
    + destruct (Qle_bool z.2 x.2); constructor; unfold weight_ge;
        [lra | by inversion Hhd].
Qed.

Lemma sort_desc_sorted l : Sorted weight_ge (sort_desc l).
Proof.
  induction l as [|x l IH]; simpl; [constructor|].
  by apply insert_desc_sorted.
Qed.

Lemma slice_to_Forall {A} (P : A → Prop) n l :
  Forall P l → Forall P (slice_to n l).
Proof. unfold slice_to. destruct (0 <=? n)%Z; apply Forall_take. Qed.

Lemma slice_to_length {A} n (l : list A) :
  (1 <= n)%Z → (Z.of_nat (length (slice_to n l)) <= n)%Z.
Proof.
  intros Hn. unfold slice_to. destruct (Z.leb_spec 0 n); [|lia].
  rewrite length_take. lia.
Qed.

Lemma slice_to_take {A} n (l : list A) :
  (0 <= n)%Z → slice_to n l = take (Z.to_nat n) l.
Proof. intros Hn. unfold slice_to. destruct (Z.leb_spec 0 n); [done|lia]. Qed.

Lemma sum_weights_pos l :
  l ≠ [] → Forall (λ t : influence, 0 < t.2) l → 0 < sum_weights l.
Proof.
  intros Hne Hl. induction Hl as [|t l Ht Hl IH]; [done|]. simpl.
  destruct l as [|t' l]; simpl in *; [lra|].
  assert (0 < t'.2 + sum_weights l) by (by apply IH). lra.
Qed.

Lemma sum_weights_scaled s l :
  ¬ s == 0 →
  sum_weights (map (λ t : influence, (t.1, t.2 / s)) l) == sum_weights l / s.
Proof.
  intros Hs. induction l as [|t l IH]; simpl.
  - field. done.
  - rewrite IH. field. done.
Qed.

Lemma elem_of_collect_raw names deform gs t :
  t ∈ collect_raw names deform gs
  ↔ ∃ g, g ∈ gs ∧ names !! group g = Some t.1 ∧ t.1 ≠ EmptyString
         ∧ t.1 ∈ deform ∧ 0 < weight g ∧ t.2 = weight g.
Proof.
  unfold collect_raw. rewrite list_elem_of_omap. split.
  - intros (g & Hg & Hsome). exists g. split; [done|].
    destruct (names !! group g) as [vg|]; [|done].
    destruct (_ && _) eqn:E; [|done]. injection Hsome as <-. simpl.
    apply andb_true_iff in E as [E Hw]. apply andb_true_iff in E as [Hn Hd].
    apply bool_decide_eq_true in Hn, Hd.
    apply negb_true_iff, Qle_bool_false in Hw. done.
  - intros (g & Hg & Hl & Hn & Hd & Hw & Ht). exists g. split; [done|].
    rewrite Hl. rewrite !bool_decide_eq_true_2 by done. simpl.
    apply Qle_bool_false in Hw. rewrite Hw. simpl.
    destruct t; simpl in *; by subst.
Qed.

Lemma build_lookup (f : mesh_vertex → list influence) l :
  ∀ v, v ∈ l →
  ∃ v', v' ∈ l ∧ index v' = index v
        ∧ foldl (λ (out : gmap Z (list influence)) v, <[index v := f v]> out)
            ∅ l !! index v = Some (f v').
Proof.
  induction l as [|x l IH] using rev_ind; intros v Hv.
  - by apply elem_of_nil in Hv.
  - rewrite foldl_snoc. destruct (decide (index x = index v)) as [Heq|Hne].
    + exists x. rewrite Heq, lookup_insert_eq. split; [|done].
      apply elem_of_app. right. left.
    + rewrite lookup_insert_ne by done.
      apply elem_of_app in Hv as [Hv|Hv].
      * destruct (IH v Hv) as (v' & Hv' & Hi & Hl). exists v'.
        split; [|done]. apply elem_of_app. by left.
      * apply list_elem_of_singleton in Hv. by subst.
Qed.

(** C3. With [weight_eps > 0] and [max_influences >= 1], every vertex of the
    mesh has an entry in the result of [build_vertex_influences]; the entry
    is non-empty, has at most [max_influences] influences and its weights
    sum to 1 (so within 1e-6 of 1). It is computed from the deform-bone
    weights above epsilon, sorted descending, cut to the first
    [max_influences], each divided by the sum of the kept weights; when the
    vertex has no deform weight above epsilon the entry is exactly
    [(fallback_bone, 1)]. *)
Theorem build_vertex_influences_normalized
    (obj : mesh_object) (deform_names : gset string) (weight_eps : Q)
    (max_influences : Z) (fallback_bone : string) (v : mesh_vertex) :
  0 < weight_eps → (1 <= max_influences)%Z → v ∈ mesh_vertices obj →
  let names := vg_index_to_name obj in
  ∃ v' infl,
    v' ∈ mesh_vertices obj ∧ index v' = index v
    ∧ build_vertex_influences obj deform_names weight_eps max_influences
        fallback_bone !! index v = Some infl
    ∧ infl ≠ []
    ∧ (Z.of_nat (length infl) <= max_influences)%Z
    ∧ sum_weights infl == 1
    ∧ Qabs (sum_weights infl - 1) <= 1 # 1000000
    ∧ (let candidates :=
         filter (λ t, Qle_bool t.2 weight_eps = false)
           (collect_raw names deform_names (groups v')) in
       let kept := kept_influences names deform_names weight_eps max_influences v' in
       (∀ t, t ∈ candidates
             ↔ ∃ g, g ∈ groups v' ∧ names !! group g = Some t.1
                    ∧ t.1 ≠ EmptyString ∧ t.1 ∈ deform_names
                    ∧ weight_eps < weight g ∧ t.2 = weight g)
       ∧ sort_desc candidates ≡ₚ candidates
       ∧ Sorted weight_ge (sort_desc candidates)
       ∧ kept = take (Z.to_nat max_influences) (sort_desc candidates)
       ∧ (kept ≠ [] →
          infl = map (λ t, (t.1, t.2 / sum_weights kept)) kept)
       ∧ (kept = [] → infl = [(fallback_bone, 1)]))
    ∧ (¬ has_deform_weight_above names deform_names weight_eps v' →
       infl = [(fallback_bone, 1)]).
Proof.
  intros Heps Hmax Hv names.
  destruct (build_lookup
              (vertex_influences names deform_names weight_eps max_influences
                 fallback_bone) _ v Hv) as (v' & Hv' & Hidx & Hlook).
  exists v', (vertex_influences names deform_names weight_eps max_influences
                fallback_bone v').
  split; [done|]. split; [done|]. split; [exact Hlook|].
  set (candidates := filter (λ t, Qle_bool t.2 weight_eps = false)
                       (collect_raw names deform_names (groups v'))).
  set (kept := kept_influences names deform_names weight_eps max_influences v').
  assert (∀ t, t ∈ candidates
             ↔ ∃ g, g ∈ groups v' ∧ names !! group g = Some t.1
                    ∧ t.1 ≠ EmptyString ∧ t.1 ∈ deform_names
                    ∧ weight_eps < weight g ∧ t.2 = weight g) as Hcand.
  { intros t. subst candidates.
    rewrite list_elem_of_filter, elem_of_collect_raw, Qle_bool_false. split.
    - intros (Ht & g & ? & ? & ? & ? & ? & Hw). exists g.
      rewrite <- Hw. done.
    - intros (g & ? & ? & ? & ? & Hw & Ht). rewrite Ht. split; [done|].
      exists g. repeat split; auto. lra. }
  assert (Forall (λ t : influence, 0 < t.2) kept) as Hpos.
  { subst kept. unfold kept_influences. apply slice_to_Forall.
    rewrite sort_desc_perm. apply Forall_forall. intros t Ht.
    apply Hcand in Ht as (g & _ & _ & _ & _ & Hw & ->). lra. }
  assert (vertex_influences names deform_names weight_eps max_influences
            fallback_bone v'
          = match kept with
            | [] => [(fallback_bone, 1)]
            | _ => map (λ t, (t.1, t.2 / sum_weights kept)) kept
            end) as Hvi.
  { unfold vertex_influences. fold candidates.
    change (slice_to max_influences (sort_desc candidates)) with kept.
    destruct kept as [|t k] eqn:Ek; [done|].
    assert (0 < sum_weights (t :: k)) as Hs by (by apply sum_weights_pos).
    apply Qle_bool_false in Hs. by rewrite Hs. }
  rewrite Hvi.
  assert (kept = take (Z.to_nat max_influences) (sort_desc candidates)) as Htake.
  { subst kept. unfold kept_influences. fold candidates.
    apply slice_to_take. lia. }
  assert (Z.of_nat (length kept) <= max_influences)%Z as Hlen.
  { subst kept. unfold kept_influences. by apply slice_to_length. }
  assert (match kept with
          | [] => [(fallback_bone, 1)]
          | _ => map (λ t, (t.1, t.2 / sum_weights kept)) kept
          end ≠ []) as Hne by (by destruct kept).
  assert (sum_weights
            match kept with
            | [] => [(fallback_bone, 1)]
            | _ => map (λ t, (t.1, t.2 / sum_weights kept)) kept
            end == 1) as Hsum.
  { destruct kept as [|t k] eqn:Ek; [simpl; lra|].
    assert (0 < sum_weights (t :: k)) as Hs by (by apply sum_weights_pos).
    rewrite sum_weights_scaled by lra. field. lra. }
  split; [exact Hne|]. split.
  { destruct kept; simpl; [lia|]. by rewrite length_map. }
  split; [exact Hsum|]. split.
  { rewrite Hsum. vm_compute. discriminate. }
  split.
  { split; [exact Hcand|]. split; [apply sort_desc_perm|].
    split; [apply sort_desc_sorted|]. split; [exact Htake|].
    split; [by destruct kept | by intros ->]. }
  intros Hno. destruct kept as [|t k] eqn:Ek; [done|]. exfalso. apply Hno.
  assert (t ∈ candidates) as Ht.
  { rewrite <- sort_desc_perm.
    apply (subseteq_take (Z.to_nat max_influences)).
    rewrite <- Htake. left. }
  apply Hcand in Ht as (g & ? & ? & ? & ? & ? & ?). by exists g, t.1.
Qed.

Lemma build_vertex_influences_normalized_witness :
  let v0 := {| index := 0;
               groups := [ {| group := 0; weight := 1 # 4 |};
                           {| group := 1; weight := 3 # 4 |};
                           {| group := 2; weight := 1 # 2 |} ] |} in
  let obj := {| vertex_groups := ["arm"; "leg"; "ctrl"]%string;
                mesh_vertices := [v0] |} in
  ∃ infl,
    build_vertex_influences obj {[ "arm"; "leg" ]}%string (1 # 10000) 2
      "root"%string !! 0%Z = Some infl
    ∧ sum_weights infl == 1
    ∧ infl.*1 = ["leg"; "arm"]%string.
Proof.
  intros v0 obj.
  destruct (build_vertex_influences_normalized obj {[ "arm"; "leg" ]}%string
              (1 # 10000) 2 "root"%string v0)
    as (v' & infl & _ & _ & Hl & _ & _ & Hs & _); [lra | lia | left |].
  exists infl. split; [exact Hl|]. split; [exact Hs|].
  vm_compute in Hl. injection Hl as <-. reflexivity.
Defined.

End WeightsFacts.

(** ** Bone rotation *)

Module SkeletonFacts.
Import PyNum PyNumFacts Skeleton.
Local Open Scope Q_scope.

Lemma py_mod_360 a :
  0 <= py_mod a 360 < 360
  ∧ py_mod a 360 == a - 360 * inject_Z (Qfloor (a / 360)).
Proof.
  unfold py_mod. split; [|reflexivity].
  pose proof (Qfloor_le (a / 360)) as Hlo.
  pose proof (Qlt_floor (a / 360)) as Hhi.
  rewrite inject_Z_plus in Hhi. change (inject_Z 1) with 1 in Hhi.
  assert (a == 360 * (a / 360)) as Ha by (field; lra).
  set (q := a / 360) in *. set (f := inject_Z (Qfloor q)) in *. lra.
Qed.

Lemma normalize_deg_spec a :
  (-180 < normalize_deg a ∧ normalize_deg a <= 180)
  ∧ ∃ k : Z, normalize_deg a == a + 360 * inject_Z k.
Proof.
  unfold normalize_deg.
  destruct (py_mod_360 (a + 180)) as [[Hlo Hhi] Heq].
  set (m := py_mod (a + 180) 360) in *.
  set (f := Qfloor ((a + 180) / 360)) in *.
  destruct (Qeq_bool (m - 180) (-180)) eqn:E.
  - apply Qeq_bool_iff in E. split; [lra|].
    exists (1 - f)%Z. unfold Zminus. rewrite inject_Z_plus, inject_Z_opp.
    change (inject_Z 1) with 1. lra.
  - apply Qeq_bool_neq in E. split; [lra|].
    exists (- f)%Z. rewrite inject_Z_opp. lra.
Qed.



End SkeletonFacts.

(** ** Deduplication of loops *)

Module RegionFacts.
Import PyNum Region.

Lemma dedup_inv_empty uvl : dedup_inv uvl [] empty_region.
Proof.
  split; simpl; auto.
  - intros li loop Hin. by apply elem_of_nil in Hin.
  - intros k i. by rewrite lookup_empty.
  - intros k1 k2 i. by rewrite lookup_empty.
  - intros i Hi. lia.
Qed.

Lemma dedup_inv_step uvl img_w img_h ps r e :
  dedup_inv uvl ps r →
  dedup_inv uvl (ps ++ [e]) (region_step uvl img_w img_h r e).
Proof.
  intros [Hsize Hxy Huvs Hbound Hfound Hsrc Hinj Honto].
  destruct e as [li loop]. unfold region_step.
  destruct (loopkey_to_new r !! key_of uvl li loop) as [i0|] eqn:E.
  - split; auto.
    + rewrite length_app. simpl. lia.
    + intros li' loop' Hin. apply elem_of_app in Hin as [Hin|Hin]; [auto|].
      apply list_elem_of_singleton in Hin. injection Hin as -> ->.
      by rewrite E.
    + intros k i Hk. destruct (Hsrc k i Hk) as (li' & loop' & Hin & Hkey & Hn).
      exists li', loop'. split; [|done]. apply elem_of_app. by left.
  - assert (∀ k i, loopkey_to_new r !! k = Some i → (i < length (new_to_src r))%nat)
      as Hlt.
    { intros k i Hk. destruct (Hsrc k i Hk) as (? & ? & _ & _ & Hn).
      by apply lookup_lt_Some in Hn. }
    split; simpl.
    + rewrite map_size_insert_None by done. rewrite length_app. simpl. lia.
    + rewrite !length_app. simpl. lia.
    + rewrite !length_app. simpl. lia.
    + rewrite !length_app. simpl. lia.
    + intros li' loop' Hin. apply elem_of_app in Hin as [Hin|Hin].
      * destruct (decide (key_of uvl li loop = key_of uvl li' loop')) as [->|Hne].
        -- rewrite lookup_insert_eq. by eexists.
        -- rewrite lookup_insert_ne by done. auto.
      * apply list_elem_of_singleton in Hin. injection Hin as -> ->.
        rewrite lookup_insert_eq. by eexists.
    + intros k i. destruct (decide (key_of uvl li loop = k)) as [<-|Hne].
      * rewrite lookup_insert_eq. intros [= <-]. exists li, loop.
        split; [apply elem_of_app; right; left|]. split; [done|].
        rewrite Hsize. by rewrite lookup_app_r, Nat.sub_diag.
      * rewrite lookup_insert_ne by done. intros Hk.
        destruct (Hsrc k i Hk) as (li' & loop' & Hin & Hkey & Hn).
        exists li', loop'. split; [apply elem_of_app; by left|]. split; [done|].
        rewrite lookup_app_l; [done|]. by apply lookup_lt_Some in Hn.
    + intros k1 k2 i.
      destruct (decide (key_of uvl li loop = k1)) as [<-|Hne1],
               (decide (key_of uvl li loop = k2)) as [<-|Hne2];
        rewrite ?lookup_insert_eq, ?lookup_insert_ne by done; auto.
      * intros [= <-] Hk. apply Hlt in Hk. lia.
      * intros Hk [= <-]. apply Hlt in Hk. lia.
      * apply Hinj.
    + intros i. rewrite length_app. simpl. intros Hi.
      destruct (decide (i = length (new_to_src r))) as [->|Hne].
      * exists (key_of uvl li loop). by rewrite lookup_insert_eq, Hsize.
      * destruct (Honto i) as [k Hk]; [lia|]. exists k.
        rewrite lookup_insert_ne; [done|]. intros <-. by rewrite E in Hk.
Qed.

Lemma dedup_inv_foldl uvl img_w img_h ps :
  dedup_inv uvl ps (foldl (region_step uvl img_w img_h) empty_region ps).
Proof.
  induction ps as [|e ps IH] using rev_ind; [apply dedup_inv_empty|].
  rewrite foldl_snoc. by apply dedup_inv_step.
Qed.

Lemma elem_of_enumerate {A} (l : list A) i x :
  (i, x) ∈ enumerate l ↔ l !! i = Some x.
Proof.
  unfold enumerate. rewrite list_elem_of_lookup. split.
  - intros [j Hj]. rewrite list_lookup_imap in Hj.
    destruct (l !! j) eqn:E; simpl in Hj; [|done]. by injection Hj as -> ->.
  - intros Hl. exists i. by rewrite list_lookup_imap, Hl.
Qed.

(** C6. [build_region_vertices_uvs] allocates one NEW index per distinct key
    [(vertex index, round(u,6), round(v,6))]: the NEW indices are
    [0 .. n-1] with [n] the number of dictionary entries, [n] is at most
    the number of loops, every loop's key resolves to a NEW index below [n]
    whose source vertex is the loop's vertex, two loops get the same NEW
    index exactly when their keys are equal, and every NEW index belongs to
    some loop. *)
Theorem dedup_one_index_per_key
    (loops : list mesh_loop) (uvl : uv_layer) (img_w img_h : Q) :
  let r := build_region_vertices_uvs loops uvl img_w img_h in
  let n := length (new_to_src r) in
  (n ≤ length loops)%nat
  ∧ size (loopkey_to_new r) = n
  ∧ length (region_xy r) = n
  ∧ length (uvs r) = (2 * n)%nat
  ∧ (∀ li loop, loops !! li = Some loop →
       ∃ i, new_index_of r uvl li loop = Some i ∧ (i < n)%nat
            ∧ ∃ lj, new_to_src r !! i = Some (vertex_index loop, lj))
  ∧ (∀ li lj loop_i loop_j, loops !! li = Some loop_i → loops !! lj = Some loop_j →
       (key_of uvl li loop_i = key_of uvl lj loop_j
        ↔ new_index_of r uvl li loop_i = new_index_of r uvl lj loop_j))
  ∧ (∀ i, (i < n)%nat →
       ∃ li loop, loops !! li = Some loop ∧ new_index_of r uvl li loop = Some i).
Proof.
  intros r n.
  destruct (dedup_inv_foldl uvl img_w img_h (enumerate loops))
    as [Hsize Hxy Huvs Hbound Hfound Hsrc Hinj Honto].
  fold (build_region_vertices_uvs loops uvl img_w img_h) in *. fold r in Hsize,
    Hxy, Huvs, Hbound, Hfound, Hsrc, Hinj, Honto. fold n in Hsize, Hxy, Huvs,
    Hbound, Honto.
  assert (length (enumerate loops) = length loops) as Hlen
    by (unfold enumerate; apply length_imap).
  rewrite Hlen in Hbound.
  split; [done|]. split; [done|]. split; [done|]. split; [done|].
  split; [|split].
  - intros li loop Hl. apply elem_of_enumerate in Hl.
    destruct (Hfound li loop Hl) as [i Hi]. exists i. split; [done|].
    destruct (Hsrc _ _ Hi) as (lj & loop' & _ & Hkey & Hn).
    split; [by apply lookup_lt_Some in Hn|]. exists lj.
    assert (vertex_index loop' = vertex_index loop) as <-; [|done].
    unfold key_of in Hkey. by injection Hkey.
  - intros li lj loop_i loop_j Hi Hj. unfold new_index_of. split; [by intros ->|].
    apply elem_of_enumerate in Hi, Hj.
    destruct (Hfound _ _ Hi) as [i Hi'], (Hfound _ _ Hj) as [j Hj'].
    rewrite Hi', Hj'. intros [= ->]. by eapply Hinj.
  - intros i Hi. destruct (Honto i Hi) as [k Hk].
    destruct (Hsrc _ _ Hk) as (li & loop & Hin & <- & _).
    exists li, loop. split; [by apply elem_of_enumerate|done].
Qed.

End RegionFacts.

(** ** Curve arrays of keyframe segments *)

Module AnimationFacts.
Import PyNum PyNumFacts Animation.
Local Open Scope Q_scope.







(** *** The bone loop of [build_animations] *)

Lemma tl_of_set_timeline bname upd tl blk b :
  tl_of (set_timeline bname upd tl blk) b
  = if decide (b = bname)
    then match tl with
         | Some keys => upd (tl_of blk bname) keys
         | None => tl_of blk bname
         end
    else tl_of blk b.
Proof.
  unfold tl_of, set_timeline. destruct tl as [keys|].
  - case_decide as Hb.
    + subst. by rewrite lookup_insert_eq.
    + by rewrite lookup_insert_ne.
  - case_decide; by subst.
Qed.

Section loop.
Variable degrees : Q → Q.
Variables fps SCALE : Q.
Variable act : action.

Lemma bone_step_sound blk b blk' :
  block_sound degrees fps SCALE act blk → bone_step degrees fps SCALE act blk b = Some blk' →
  block_sound degrees fps SCALE act blk'.
Proof.
  intros Hs Hstep. unfold bone_step in Hstep.
  destruct (translate_timeline fps SCALE act b) as [t|] eqn:Et; [|done].
  destruct (rotate_timeline degrees fps act b) as [r|] eqn:Er; [|done].
  destruct (scale_timeline fps act b) as [sc|] eqn:Esc; [|done].
  simpl in Hstep. injection Hstep as <-. intros b' keys.
  rewrite !tl_of_set_timeline. destruct (decide (b' = b)) as [->|Hne].
  - rewrite !(decide_True (P := b = b)) by done.
    destruct (Hs b keys) as (Ht & Hr & Hsc).
    destruct t, r, sc; simpl; repeat split; intros; simplify_eq; auto.
  - apply Hs.
Qed.

Lemma bones_loop_sound bones :
  ∀ blk blk', block_sound degrees fps SCALE act blk →
    bones_loop degrees fps SCALE act blk bones = Some blk' → block_sound degrees fps SCALE act blk'.
Proof.
  induction bones as [|b bones IH]; intros blk blk' Hs Hl; simpl in Hl.
  - by injection Hl as <-.
  - destruct (bone_step degrees fps SCALE act blk b) as [blk1|] eqn:E; [|done].
    simpl in Hl. eapply IH; [|exact Hl]. by eapply bone_step_sound.
Qed.

Lemma build_animations_sound bones anim blk :
  build_animations degrees fps SCALE (Some act) bones = Some (Some anim) →
  anim_bones anim = Some blk → block_sound degrees fps SCALE act blk.
Proof.
  unfold build_animations. intros Hb Ha.
  destruct (bones_loop degrees fps SCALE act ∅ bones) as [blk0|] eqn:E; [|done].
  simpl in Hb. injection Hb as <-. simpl in Ha.
  case_bool_decide; [done|]. injection Ha as <-.
  eapply bones_loop_sound; [|exact E].
  intros b keys. unfold tl_of. rewrite lookup_empty. simpl. done.
Qed.
End loop.

Lemma by_index_lookup fcs i fc :
  by_index fcs !! i = Some fc → fc ∈ fcs ∧ array_index fc = i.
Proof.
  unfold by_index. induction fcs as [|x fcs IH] using rev_ind; simpl.
  - by rewrite lookup_empty.
  - rewrite foldl_snoc. destruct (decide (array_index x = i)) as [<-|Hne].
    + rewrite lookup_insert_eq. intros [= <-]. split; [|done].
      apply elem_of_app. right. left.
    + rewrite lookup_insert_ne by done. intros Hl.
      destruct (IH Hl). split; [|done]. apply elem_of_app. by left.
Qed.

Lemma channel_pair_two (act : action) path ix iy :
  length (channel_pair (by_index (_fcurves_for_path act path [0; 1; 2]%Z)) ix iy)
  = 2%nat →
  has_channel act path ix ∧ has_channel act path iy.
Proof.
  unfold channel_pair. intros Hlen.
  assert (∀ i fc, by_index (_fcurves_for_path act path [0; 1; 2]%Z) !! i = Some fc →
                  has_channel act path i) as Hch.
  { intros i fc Hl. apply by_index_lookup in Hl as [Hin Hi].
    apply list_elem_of_filter in Hin as [[Hp _] Hin]. by exists fc. }
  destruct (by_index _ !! ix) as [fx|] eqn:Ex,
           (by_index _ !! iy) as [fy|] eqn:Ey; simpl in Hlen; try discriminate.
  eauto.
Qed.

(** Whatever the curve tags, the records of [emit_loop] sample the frames in
    order. *)
Lemma emit_loop_vals fcurves knotmaps fps to_seconds xforms frames :
  ∀ keys stepped_only,
    emit_loop fcurves knotmaps fps to_seconds xforms frames
    = Some (keys, stepped_only) →
    Forall2 (λ f rec, time rec = py_round (to_seconds f) 6
                      ∧ _vals rec = sample_vals fcurves xforms f) frames keys.
Proof.
  induction frames as [|f rest IH]; intros keys so He; simpl in He.
  - injection He as <- <-. constructor.
  - destruct (match rest with [] => _ | _ => _ end) as [tag|]; [|done].
    simpl in He.
    destruct (emit_loop fcurves knotmaps fps to_seconds xforms rest)
      as [[tl so']|] eqn:E; [|done].
    simpl in He. injection He as <- <-. constructor; [done|]. by eapply IH.
Qed.

Lemma emit_channel_timelines_vals fps fcurves to_seconds xforms keys stepped_only :
  _emit_channel_timelines fps fcurves to_seconds xforms = Some (keys, stepped_only) →
  keys ≠ [] →
  Forall2 (λ f rec, time rec = py_round (to_seconds f) 6
                    ∧ _vals rec = sample_vals fcurves xforms f)
    (frames_of fcurves) keys.
Proof.
  unfold _emit_channel_timelines. intros He Hne.
  destruct fcurves as [|fc fcs]; [by injection He as <- <-|].
  destruct (frames_of (fc :: fcs)) as [|f0 frames] eqn:Ef;
    [by injection He as <- <-|].
  by eapply emit_loop_vals.
Qed.

Lemma rotate_key_spec rec k' :
  rotate_key rec = Some k' →
  ∃ angle, _vals rec = [angle] ∧ k_time k' = time rec ∧ k_curve k' = curve rec
    ∧ (angle_eps < Qabs angle → k_value k' = Some angle)
    ∧ (Qabs angle <= angle_eps → k_value k' = None)
    ∧ (is_Some (k_value k') → angle_eps < Qabs angle).
Proof.
  unfold rotate_key. destruct (_vals rec) as [|angle [|? ?]]; try done.
  intros [= <-]. exists angle. simpl. fold angle_eps.
  destruct (Qgt_bool (Qabs angle) angle_eps) eqn:E.
  - apply Qgt_bool_true in E. repeat split; auto. intros Hle. lra.
  - apply Qgt_bool_false in E. repeat split; auto.
    + intros Hlt. lra.
    + intros [? ?]. done.
Qed.

(** C8 (as the code has it). When a bone has a rotate timeline, its rotation
    path has exactly one F-curve, the timeline has one record per keyframe
    time of that curve, in order, and a record carries the [value] field
    exactly when the transformed angle at its frame exceeds 1e-9 in
    magnitude; records with a smaller angle stay in the timeline without a
    [value]. A rotate timeline is present only if at least one of its
    keyframes has an angle above the threshold. *)
Theorem rotate_value_only_above_threshold
    (degrees : Q → Q) (fps SCALE : Q) (act : action) (bones : list string)
    (anim : animation) (blk : gmap string bone_timelines) (bname : string)
    (keys' : list out_key) :
  build_animations degrees fps SCALE (Some act) bones = Some (Some anim) →
  anim_bones anim = Some blk →
  rotate (tl_of blk bname) = Some keys' →
  ∃ fx,
    _fcurves_for_path act (_bone_path bname "rotation_euler") [rot_euler_index]
    = [fx]
    ∧ length keys' = length (frames_of [fx])
    ∧ (∀ idx f, frames_of [fx] !! idx = Some f →
         ∃ k', keys' !! idx = Some k'
           ∧ k_time k' = py_round (to_seconds fps f) 6
           ∧ (angle_eps < Qabs (py_round (degrees (evaluate fx f)) 4) →
              k_value k' = Some (py_round (degrees (evaluate fx f)) 4))
           ∧ (Qabs (py_round (degrees (evaluate fx f)) 4) <= angle_eps →
              k_value k' = None))
    ∧ ∃ f, f ∈ frames_of [fx]
           ∧ angle_eps < Qabs (py_round (degrees (evaluate fx f)) 4).
Proof.
  intros Hb Ha Hk.
  apply (build_animations_sound degrees fps SCALE act bones anim blk Hb Ha) in Hk.
  unfold rotate_timeline in Hk.
  unfold per_bone_rot_euler_index in Hk. rewrite lookup_empty in Hk. simpl in Hk.
  set (rot_fc := _fcurves_for_path act (_bone_path bname "rotation_euler")
                   [rot_euler_index]) in *.
  destruct rot_fc as [|fx rest] eqn:Efc; [done|].
  set (rxf := λ v : Q, py_round (degrees v) 4) in *.
  destruct (_emit_channel_timelines fps (fx :: rest) (to_seconds fps) [rxf])
    as [[keys so]|] eqn:Ee; [|done].
  simpl in Hk.
  assert (keys ≠ []) as Hne by (intros ->; done).
  assert (mapM rotate_key keys
          ≫= (λ ks, Some (if existsb (λ k, bool_decide (is_Some (k_value k))) ks
                          then Some ks else None)) = Some (Some keys')) as Hk2
    by (destruct keys; done).
  clear Hk.
  destruct (mapM rotate_key keys) as [keys1|] eqn:Em; [|done]. simpl in Hk2.
  destruct (existsb _ keys1) eqn:Ex; [|done]. injection Hk2 as ->.
  apply mapM_Some in Em.
  apply emit_channel_timelines_vals in Ee; [|done].
  assert (rest = []) as ->.
  { destruct keys as [|rec0 keys0]; [done|].
    inversion Ee as [|f0 ? fr ? [_ Hv] _]; subst.
    inversion Em as [|? k0 ? ? Hr _]; subst.
    apply rotate_key_spec in Hr as (angle & Hvals & _).
    rewrite Hvals in Hv. unfold sample_vals in Hv. simpl in Hv.
    destruct rest; [done|]. simpl in Hv. discriminate. }
  exists fx. split; [done|].
  assert (length keys' = length (frames_of [fx])) as Hlen.
  { apply Forall2_length in Ee, Em. lia. }
  split; [exact Hlen|]. split.
  - intros idx f Hf.
    destruct (Forall2_lookup_l _ _ _ _ _ Ee Hf) as (rec & Hrec & Ht & Hv).
    destruct (Forall2_lookup_l _ _ _ _ _ Em Hrec) as (k' & Hk' & Hr).
    apply rotate_key_spec in Hr as (angle & Hvals & Htime & _ & Hbig & Hsmall & _).
    rewrite Hvals in Hv. unfold sample_vals in Hv. simpl in Hv.
    injection Hv as ->. exists k'. rewrite Htime, Ht. done.
  - apply existsb_exists in Ex as (k' & Hin & Hsome).
    apply bool_decide_eq_true in Hsome.
    apply list_elem_of_In, list_elem_of_lookup in Hin as [idx Hk'].
    destruct (Forall2_lookup_r _ _ _ _ _ Em Hk') as (rec & Hrec & Hr).
    destruct (Forall2_lookup_r _ _ _ _ _ Ee Hrec) as (f & Hf & _ & Hv).
    apply rotate_key_spec in Hr as (angle & Hvals & _ & _ & _ & _ & Hgt).
    rewrite Hvals in Hv. unfold sample_vals in Hv. simpl in Hv.
    injection Hv as ->. exists f. split; [by eapply list_elem_of_lookup_2|auto].
Qed.

(** C10. In the animation block that [build_animations] returns, a bone has
    a translate timeline only if the action has F-curves on the bone's
    location path for both array indices 1 and 0, and a scale timeline only
    if it has F-curves on the scale path for both indices 0 and 2; when a
    channel of the pair is missing, the bone has no timeline of that
    kind. *)
Theorem pair_timelines_need_both_channels
    (degrees : Q → Q) (fps SCALE : Q) (act : action) (bones : list string)
    (anim : animation) (blk : gmap string bone_timelines) (bname : string) :
  build_animations degrees fps SCALE (Some act) bones = Some (Some anim) →
  anim_bones anim = Some blk →
  let loc_path := _bone_path bname "location" in
  let scl_path := _bone_path bname "scale" in
  (is_Some (translate (tl_of blk bname)) →
     has_channel act loc_path 1 ∧ has_channel act loc_path 0)
  ∧ (is_Some (scale (tl_of blk bname)) →
     has_channel act scl_path 0 ∧ has_channel act scl_path 2)
  ∧ (¬ has_channel act loc_path 1 ∨ ¬ has_channel act loc_path 0 →
     translate (tl_of blk bname) = None)
  ∧ (¬ has_channel act scl_path 0 ∨ ¬ has_channel act scl_path 2 →
     scale (tl_of blk bname) = None).
Proof.
  intros Hb Ha loc_path scl_path.
  pose proof (build_animations_sound degrees fps SCALE act bones anim blk Hb Ha)
    as Hs.
  assert (is_Some (translate (tl_of blk bname)) →
          has_channel act loc_path 1 ∧ has_channel act loc_path 0) as Ht.
  { intros [keys Hk]. apply (Hs bname keys) in Hk.
    unfold translate_timeline in Hk. case_bool_decide as Hlen; [|done].
    by apply channel_pair_two in Hlen. }
  assert (is_Some (scale (tl_of blk bname)) →
          has_channel act scl_path 0 ∧ has_channel act scl_path 2) as Hsc.
  { intros [keys Hk]. apply (Hs bname keys) in Hk.
    unfold scale_timeline in Hk. case_bool_decide as Hlen; [|done].
    by apply channel_pair_two in Hlen. }
  split; [exact Ht|]. split; [exact Hsc|]. split.
  - intros Hno. destruct (translate (tl_of blk bname)) eqn:E; [|done].
    destruct Ht as [? ?]; [by eexists|]. tauto.
  - intros Hno. destruct (scale (tl_of blk bname)) eqn:E; [|done].
    destruct Hsc as [? ?]; [by eexists|]. tauto.
Qed.

(** The sample action: bone "arm" gets a rotate timeline of two records, the
    first of which (angle 0 at frame 0) is kept without a value. *)
Lemma sample_build :
  ∃ anim blk k0 k1 tr,
    build_animations Sample.degrees 24 100 (Some Sample.arm_action) ["arm"%string]
    = Some (Some anim)
    ∧ anim_bones anim = Some blk
    ∧ rotate (tl_of blk "arm") = Some [k0; k1]
    ∧ k_time k0 == 0 ∧ k_value k0 = None
    ∧ k_time k1 == 1 ∧ k_value k1 = Some (286479 # 5000)
    ∧ translate (tl_of blk "arm") = Some tr
    ∧ scale (tl_of blk "arm") = None.
Proof.
  eexists _, _, _, _, _. split; [vm_compute; reflexivity|].
  split; [reflexivity|]. vm_compute. repeat split; reflexivity.
Defined.

(** C8 as worded fails on the code: the keyframe at frame 0 of the sample
    action has angle 0, yet its record is in the rotate timeline, without a
    [value] field. *)
Lemma rotate_zero_key_kept :
  Qabs (py_round (Sample.degrees 0) 4) <= angle_eps
  ∧ ∃ anim blk k0 k1,
      build_animations Sample.degrees 24 100 (Some Sample.arm_action) ["arm"%string]
      = Some (Some anim)
      ∧ anim_bones anim = Some blk
      ∧ rotate (tl_of blk "arm") = Some [k0; k1]
      ∧ k_time k0 == 0 ∧ k_value k0 = None.
Proof.
  split; [vm_compute; discriminate|].
  destruct sample_build as (anim & blk & k0 & k1 & tr & H1 & H2 & H3 & H4 & H5 & _).
  by exists anim, blk, k0, k1.
Qed.

Lemma rotate_value_only_above_threshold_witness :
  ∃ fx,
    _fcurves_for_path Sample.arm_action (_bone_path "arm" "rotation_euler")
      [rot_euler_index] = [fx]
    ∧ ∃ f, f ∈ frames_of [fx]
           ∧ angle_eps < Qabs (py_round (Sample.degrees (evaluate fx f)) 4).
Proof.
  destruct sample_build as (anim & blk & k0 & k1 & tr & H1 & H2 & H3 & _).
  destruct (rotate_value_only_above_threshold _ _ _ _ _ _ _ _ _ H1 H2 H3)
    as (fx & Hfx & _ & _ & Hf).
  by exists fx.
Defined.

Lemma pair_timelines_need_both_channels_witness :
  has_channel Sample.arm_action (_bone_path "arm" "location") 1
  ∧ has_channel Sample.arm_action (_bone_path "arm" "location") 0.
Proof.
  destruct sample_build
    as (anim & blk & k0 & k1 & tr & H1 & H2 & _ & _ & _ & _ & _ & H3 & _).
  apply (pair_timelines_need_both_channels _ _ _ _ _ _ _ "arm"%string H1 H2).
  rewrite H3. by eexists.
Defined.

End AnimationFacts.

(** ** Orientation lemmas *)

Module PlaneFacts.
Import PyNum PyNumFacts Hull Plane.
Local Open Scope Q_scope.

Ltac geo_prep :=
  unfold cr, lex_lt, lex_le, peq, qneg, vcross, Hnn, Hpos in *; simpl in *.










Lemma lex_lt_trans a b c : lex_lt a b → lex_lt b c → lex_lt a c.
Proof. geo_prep. intros [?|[? ?]] [?|[? ?]]; [left|left|left|right]; lra. Qed.

Lemma lex_le_lt_trans a b c : lex_le a b → lex_lt b c → lex_lt a c.
Proof. geo_prep. intros [?|[? ?]] [?|[? ?]]; [left|left|left|right]; lra. Qed.













End PlaneFacts.

(** ** The chain loop *)

Module ChainFacts.
Import PyNum PyNumFacts Hull Plane PlaneFacts ChainShape.
Local Open Scope Q_scope.

Section chain.
Variable pts : list point.
Variable P : nat → point.
Hypothesis Hpop : ∀ a b c,
  Qle_bool (tri_area2_xy pts a b c) 0 = true ↔ cr (P a) (P b) (P c) <= 0.










End chain.

End ChainFacts.

(** ** A finished chain *)

Module ChainSpecFacts.
Import PyNum PyNumFacts Hull Plane PlaneFacts ChainShape ChainFacts ChainSpec.
Local Open Scope Q_scope.







End ChainSpecFacts.

(** ** The sorted index order *)

Module SortFacts.
Import PyNum PyNumFacts Hull Plane PlaneFacts ChainShape SortSpec.
Local Open Scope Q_scope.



Lemma insert_sorted_perm pts i l : insert_sorted pts i l ≡ₚ i :: l.
Proof.
  induction l as [|j l IH]; simpl; [done|].
  destruct (key_leb pts i j); [done|]. rewrite IH. apply Permutation_swap.
Qed.

Lemma sorted_idx_perm pts : sorted_idx pts ≡ₚ seq 0 (length pts).
Proof.
  unfold sorted_idx. induction (seq 0 (length pts)) as [|i l IH]; simpl; [done|].
  by rewrite insert_sorted_perm, IH.
Qed.







End SortFacts.

(** ** Walking around the hull *)

Module CycleFacts.




End CycleFacts.

(** ** The hull splits into two chains *)

Module HullFacts.
Import PyNum PyNumFacts Hull Plane PlaneFacts ChainShape ChainFacts ChainSpec
  ChainSpecFacts SortFacts CycleFacts HullSpec.
Local Open Scope Q_scope.






End HullFacts.

(** ** The hull is a convex polygon *)

Module PolygonFacts.
Import PyNum PyNumFacts Hull Plane PlaneFacts ChainShape ChainFacts ChainSpec
  ChainSpecFacts SortFacts CycleFacts HullSpec HullFacts.
Local Open Scope Q_scope.









End PolygonFacts.

(** ** Hull-first reordering *)

Module ReorderFacts.
Import PyNum PyNumFacts Hull Plane PlaneFacts SortFacts HullSpec HullFacts
  PolygonFacts ReorderSpec.
Local Open Scope Q_scope.

Lemma imap_snd {A} (g : nat → nat) (l : list A) :
  (imap (λ i x, (g i, x)) l).*2 = l.
Proof.
  revert g. induction l as [|x l IH]; intros g; simpl; [done|].
  f_equal. apply (IH (g ∘ S)).
Qed.

Lemma foldl_insert_is_Some (l : list (nat * nat)) a :
  ∀ m : gmap nat nat, a ∈ l.*2 ∨ is_Some (m !! a) →
    is_Some (foldl (λ m e, <[e.2 := e.1]> m) m l !! a).
Proof.
  induction l as [|e l IH]; intros m Hm; simpl.
  - destruct Hm as [Hm|Hm]; [by apply elem_of_nil in Hm|done].
  - apply IH. destruct (decide (e.2 = a)) as [<-|Hne].
    + right. rewrite lookup_insert_eq. by eexists.
    + destruct Hm as [Hm|Hm].
      * simpl in Hm. apply elem_of_cons in Hm as [Hm|Hm]; [congruence|by left].
      * right. by rewrite lookup_insert_ne.
Qed.

Lemma old_to_new_is_Some order a :
  a ∈ order → is_Some (old_to_new_of order !! a).
Proof.
  intros Ha. apply foldl_insert_is_Some. left.
  by rewrite (imap_snd (λ i, i) order).
Qed.

Lemma uvs_pairs_length k : ∀ uvs,
  (2 * k ≤ length uvs)%nat → (k ≤ length (uvs_pairs uvs))%nat.
Proof.
  induction k as [|k IH]; intros uvs Hk; [lia|].
  destruct uvs as [|u [|v uvs]]; simpl in *; try lia.
  specialize (IH uvs). lia.
Qed.

Lemma remap_tris_is_Some (m : gmap nat nat) (xy : list point) (tris : list nat) :
  (length tris mod 3 = 0)%nat → Forall (λ a, is_Some (m !! a)) tris →
  is_Some (remap_tris m xy tris).
Proof.
  remember (length tris) as n eqn:Hn. revert tris Hn.
  induction n as [n IH] using lt_wf_ind. intros tris -> Hmod Hall.
  destruct tris as [|a [|b [|c rest]]]; cbn [length remap_tris] in *;
    [by eexists|done|done|].
  apply Forall_cons in Hall as [[a2 ->] Hall].
  apply Forall_cons in Hall as [[b2 ->] Hall].
  apply Forall_cons in Hall as [[c2 ->] Hall]. simpl.
  assert (length rest mod 3 = 0)%nat as Hrest.
  { pose proof (Nat.Div0.mod_add (length rest) 1 3) as Hm.
    replace (length rest + 1 * 3)%nat with (S (S (S (length rest)))) in Hm by lia.
    congruence. }
  destruct (IH (length rest) ltac:(lia) rest eq_refl Hrest Hall) as [tl ->].
  simpl. destruct (Qlt_bool _ _); [by eexists|].
  destruct (Qlt_bool _ _); by eexists.
Qed.



Lemma elem_of_new_order n H a :
  a ∈ new_order n H ↔ a ∈ H ∨ ((a < n)%nat ∧ a ∉ H).
Proof.
  unfold new_order. rewrite elem_of_app, list_elem_of_filter, elem_of_seq,
    elem_of_list_to_set. split; intros [?|[? ?]]; auto; right; split; auto; lia.
Qed.

(** [hull_first_reorder] on well-formed arrays returns; its coordinates
    start with the hull points, in hull order, and are points of the
    region. *)
Lemma hull_first_reorder_returns pts uvs new_to_src triangles :
  reorder_inputs_ok pts uvs new_to_src triangles →
  let n := length pts in
  let H := if (3 <=? n)%nat then convex_hull_indices_xy pts else seq 0 n in
  (∀ e, e ∈ H → (e < n)%nat) →
  ∃ res,
    hull_first_reorder pts uvs new_to_src triangles = Some res
    ∧ hull_idx res = H
    ∧ region_xy2 res = pt pts <$> new_order n H
    ∧ take (length H) (region_xy2 res) = pt pts <$> H
    ∧ ∀ q, q ∈ region_xy2 res → ∃ e, (e < n)%nat ∧ q = pt pts e.
Proof.
  intros (Hu & Hs & Hmod & Ht) n H Hr.
  assert (∀ e, e ∈ new_order n H → (e < n)%nat) as Ho.
  { intros e He. apply elem_of_new_order in He as [He|[He _]]; auto. }
  unfold hull_first_reorder. fold n. fold H.
  destruct (mapM (λ old, uvs_pairs uvs !! old) (new_order n H)) as [pairs|] eqn:Ep.
  2:{ exfalso. apply eq_None_not_Some in Ep. apply Ep. apply mapM_is_Some.
      apply Forall_forall. intros e He. simpl. apply lookup_lt_is_Some_2.
      pose proof (uvs_pairs_length n uvs Hu). apply Ho in He. lia. }
  destruct (mapM (λ old, new_to_src !! old) (new_order n H)) as [src2|] eqn:Es.
  2:{ exfalso. apply eq_None_not_Some in Es. apply Es. apply mapM_is_Some.
      apply Forall_forall. intros e He. simpl. apply lookup_lt_is_Some_2.
      apply Ho in He. fold n in Hs. lia. }
  destruct (remap_tris_is_Some (old_to_new_of (new_order n H))
              (pt pts <$> new_order n H) triangles Hmod) as [remapped Er].
  { eapply Forall_impl; [exact Ht|]. intros a Ha. simpl in Ha.
    apply old_to_new_is_Some, elem_of_new_order.
    destruct (decide (a ∈ H)); [by left|right; done]. }
  simpl. rewrite Er. simpl. eexists. split; [reflexivity|]. simpl.
  split; [done|]. split; [done|]. split.
  - unfold new_order. rewrite fmap_app, <- (length_fmap (pt pts) H).
    apply take_app_length.
  - intros q Hq. apply list_elem_of_fmap in Hq as (e & -> & He).
    exists e. split; [by apply Ho|done].
Qed.

End ReorderFacts.

(** ** Hull ordering and winding of a region *)

Module RegionOrderFacts.
Import PyNum PyNumFacts Hull Plane PlaneFacts SortFacts HullSpec HullFacts
  PolygonFacts ReorderSpec ReorderFacts RegionSamples.
Local Open Scope Q_scope.









(** C1 at the failing input: one triangle with collinear corners is dropped
    by the remap loop, the fan fallback then emits the triangle [0 1 2],
    whose signed area with respect to the returned coordinates is zero. *)
Lemma fan_fallback_emits_flat_triangle :
  ∃ res,
    hull_first_reorder flat_triangle_region [0; 1 # 2; 1 # 2; 1 # 2; 1; 1 # 2]
      [(0%Z, 0%nat); (1%Z, 1%nat); (2%Z, 2%nat)] [0; 1; 2]%nat = Some res
    ∧ region_xy2 res = flat_triangle_region
    ∧ triangles2 res = [0; 1; 2]%nat
    ∧ tri_area2_xy (region_xy2 res) 0 1 2 == 0
    ∧ ¬ Forall (λ t, 0 < tri_area2_xy (region_xy2 res) t.1.1 t.1.2 t.2)
          (tris_of (triangles2 res)).
Proof.
  eexists. split; [vm_compute; reflexivity|]. simpl.
  split; [reflexivity|]. split; [reflexivity|]. split; [reflexivity|].
  intros Hall. apply Forall_cons in Hall as [Hpos _].
  vm_compute in Hpos. discriminate.
Qed.

End RegionOrderFacts.

(** ** Sanitised and encoded edge streams *)

Module EdgeStreamFacts.
Import Edges EdgeTopology EdgesFacts EdgeTopologyFacts EdgeStreams.

Lemma sanitize_loop_flat ints :
  ∀ seen, sanitize_loop seen ints
          = _pairs_to_flat (pairs_of (sanitize_loop seen ints)).
Proof.
  induction ints as [|a|a b rest IH] using pair_ind; intros seen; simpl;
    try done.
  destruct (a =? b); [auto|].
  case_decide; [auto|]. simpl. f_equal. f_equal. apply IH.
Qed.

Lemma pairs_of_drop_unpaired ints :
  pairs_of (drop_unpaired ints) = pairs_of ints.
Proof.
  unfold drop_unpaired.
  induction ints as [|a|a b rest IH] using pair_ind; simpl; try done.
  rewrite Nat.odd_succ, Nat.even_succ.
  destruct (Nat.odd (length rest)) eqn:E; [|done].
  destruct rest as [|c rest]; [done|].
  change (removelast (a :: b :: c :: rest)) with (a :: b :: removelast (c :: rest)).
  rewrite <- IH. reflexivity.
Qed.

Lemma drop_unpaired_even ints :
  Nat.odd (length (drop_unpaired ints)) = false.
Proof.
  unfold drop_unpaired.
  induction ints as [|a|a b rest IH] using pair_ind; simpl; try done.
  rewrite Nat.odd_succ, Nat.even_succ.
  destruct (Nat.odd (length rest)) eqn:E.
  - destruct rest as [|c rest]; [done|].
    change (removelast (a :: b :: c :: rest)) with (a :: b :: removelast (c :: rest)).
    cbn [length]. by rewrite Nat.odd_succ, Nat.even_succ.
  - cbn [length]. by rewrite Nat.odd_succ, Nat.even_succ.
Qed.

Lemma even_flat ints :
  Nat.odd (length ints) = false → ints = _pairs_to_flat (pairs_of ints).
Proof.
  induction ints as [|a|a b rest IH] using pair_ind; simpl; try done.
  rewrite Nat.odd_succ, Nat.even_succ. intros E. f_equal. f_equal. by apply IH.
Qed.

(** Membership in the output of the pair loop. *)
Lemma elem_of_sanitize_loop ints :
  ∀ seen p, p ∈ pairs_of (sanitize_loop seen ints)
    ↔ (p ∉ seen) ∧ ∃ a b, (a, b) ∈ pairs_of ints ∧ a ≠ b ∧ p = canon a b.
Proof.
  induction ints as [|a|a b rest IH] using pair_ind; intros seen p; simpl.
  - split; [intros H; by apply elem_of_nil in H|].
    intros (_ & x & y & H & _). by apply elem_of_nil in H.
  - split; [intros H; by apply elem_of_nil in H|].
    intros (_ & x & y & H & _). by apply elem_of_nil in H.
  - fold (canon a b). destruct (Z.eqb_spec a b) as [->|Hne].
    + rewrite IH. split.
      * intros (Hs & x & y & Hin & Hxy & ->). split; [done|].
        exists x, y. split; [by right|done].
      * intros (Hs & x & y & Hin & Hxy & ->). split; [done|].
        exists x, y. apply elem_of_cons in Hin as [[= -> ->]|Hin]; [done|].
        done.
    + case_decide as Hseen.
      * rewrite IH. split.
        -- intros (Hs & x & y & Hin & Hxy & ->). split; [done|].
           exists x, y. split; [by right|done].
        -- intros (Hs & x & y & Hin & Hxy & ->). split; [done|].
           exists x, y. apply elem_of_cons in Hin as [[= -> ->]|Hin]; [done|].
           done.
      * cbn [pairs_of].
        replace ((canon a b).1, (canon a b).2) with (canon a b)
          by (by destruct (canon a b)).
        rewrite elem_of_cons, IH. split.
        -- intros [->|(Hs & x & y & Hin & Hxy & ->)].
           ++ split; [done|]. exists a, b. split; [left|done].
           ++ split; [intros ?; apply Hs, elem_of_union; by right|].
              exists x, y. split; [by right|done].
        -- intros (Hs & x & y & Hin & Hxy & ->).
           destruct (decide (canon x y = canon a b)) as [E|E]; [by left|].
           right. split.
           { rewrite elem_of_union, elem_of_singleton. intros [?|?]; done. }
           exists x, y.
           apply elem_of_cons in Hin as [[= -> ->]|Hin]; done.
Qed.

Lemma sanitize_loop_NoDup ints :
  ∀ seen, NoDup (pairs_of (sanitize_loop seen ints)).
Proof.
  induction ints as [|a|a b rest IH] using pair_ind; intros seen; simpl;
    try constructor.
  destruct (a =? b); [auto|]. case_decide; [auto|]. simpl.
  constructor; [|auto].
  rewrite elem_of_sanitize_loop. intros [Hs _]. apply Hs.
  apply elem_of_union. left. apply elem_of_singleton.
  by destruct (if a <? b then (a, b) else (b, a)).
Qed.

Lemma filter_in_range vcount flat :
  all_in_range vcount flat →
  filter (λ x, in_vrange vcount x = true) flat = flat.
Proof.
  induction 1 as [|x l Hx _ IH]; [done|].
  rewrite filter_cons, decide_True; [by rewrite IH|].
  apply in_vrange_spec. lia.
Qed.

Lemma sanitize_shape (flat_list : list Z) (vcount : Z) :
  let out := _sanitize_pairs flat_list vcount in
  out = _pairs_to_flat (pairs_of out)
  ∧ NoDup (pairs_of out)
  ∧ Forall (canonical_edge vcount) (pairs_of out).
Proof.
  intros out. subst out. unfold _sanitize_pairs.
  set (ints := drop_unpaired _).
  split; [apply sanitize_loop_flat|].
  split; [apply sanitize_loop_NoDup|].
  pose proof (_sanitize_pairs_in_range flat_list vcount) as Hr.
  pose proof (sanitize_loop_canonical ints ∅) as Hc.
  unfold _sanitize_pairs in Hr. fold ints in Hr.
  rewrite (sanitize_loop_flat ints ∅) in Hr.
  induction Hc as [|[u v] ps Huv _ IH]; [constructor|].
  simpl in Hr. apply Forall_cons in Hr as [Hu Hr].
  apply Forall_cons in Hr as [Hv Hr].
  constructor; [|by apply IH]. unfold canonical_edge. simpl in *. lia.
Qed.

Lemma flat_length ps : length (_pairs_to_flat ps) = (2 * length ps)%nat.
Proof.
  unfold _pairs_to_flat. induction ps as [|p ps IH]; simpl; [done|].
  rewrite IH. lia.
Qed.

(** X1. The stream [_sanitize_pairs] returns is a list of whole pairs; each
    pair [(u, v)] is canonical with [0 <= u < v < vcount], and no pair occurs
    twice. *)
Theorem sanitize_pairs_wellformed (flat_list : list Z) (vcount : Z) :
  let out := _sanitize_pairs flat_list vcount in
  out = _pairs_to_flat (pairs_of out)
  ∧ length out = (2 * length (pairs_of out))%nat
  ∧ NoDup (pairs_of out)
  ∧ Forall (canonical_edge vcount) (pairs_of out).
Proof.
  intros out. destruct (sanitize_shape flat_list vcount) as (Hflat & Hnd & Hc).
  fold out in Hflat, Hnd, Hc. split; [done|]. split; [|done].
  rewrite Hflat at 1. apply flat_length.
Qed.

(** X2. Sanitising is idempotent, and the second copy of the function,
    [sanitize_vert_edges], computes the same stream: the call of
    [sanitize_vert_edges] on a stream that [_sanitize_pairs] produced
    changes nothing. *)
Theorem sanitize_idempotent (flat_list : list Z) (vcount : Z) :
  sanitize_vert_edges flat_list vcount = _sanitize_pairs flat_list vcount
  ∧ sanitize_edges flat_list vcount = _sanitize_pairs flat_list vcount
  ∧ _sanitize_pairs (_sanitize_pairs flat_list vcount) vcount
    = _sanitize_pairs flat_list vcount
  ∧ sanitize_vert_edges (_sanitize_pairs flat_list vcount) vcount
    = _sanitize_pairs flat_list vcount.
Proof.
  assert (∀ l, sanitize_vert_edges l vcount = _sanitize_pairs l vcount) as Hsame.
  { intros [|x l]; [|done]. reflexivity. }
  destruct (sanitize_shape flat_list vcount) as (Hflat & Hnd & Hc).
  assert (_sanitize_pairs (_sanitize_pairs flat_list vcount) vcount
          = _sanitize_pairs flat_list vcount) as Hid.
  { pose proof (_sanitize_pairs_id _ vcount Hnd) as Hid.
    rewrite <- Hflat in Hid. apply Hid.
    - eapply Forall_impl; [exact Hc|]. intros p (? & ? & ?). lia.
    - eapply Forall_impl; [exact Hc|]. intros p (? & ? & ?). lia. }
  split; [apply Hsame|]. split; [done|]. split; [done|].
  by rewrite Hsame.
Qed.

(** X3. On a stream whose values are all vertex indices below [vcount],
    [_sanitize_pairs] neither loses nor invents an edge: a pair is in the
    result exactly when it is the canonical form of some input pair with
    two different ends. *)
Theorem sanitize_keeps_in_range_edges (flat_list : list Z) (vcount : Z) :
  all_in_range vcount flat_list →
  ∀ u v, (u, v) ∈ pairs_of (_sanitize_pairs flat_list vcount)
         ↔ ∃ a b, (a, b) ∈ pairs_of flat_list ∧ a ≠ b ∧ (u, v) = canon a b.
Proof.
  intros Hr u v. unfold _sanitize_pairs.
  assert (filter (λ x, in_vrange vcount x = true) flat_list = flat_list) as ->.
  { apply filter_in_range. eapply Forall_impl; [exact Hr|].
    simpl. intros x. lia. }
  rewrite elem_of_sanitize_loop, pairs_of_drop_unpaired. split.
  - by intros [_ ?].
  - intros ?. split; [apply not_elem_of_empty|done].
Qed.

Lemma sanitize_keeps_in_range_edges_witness :
  (1, 2) ∈ pairs_of (_sanitize_pairs [2; 1; 0; 0; 1; 2; 1; 2] 3).
Proof.
  apply (sanitize_keeps_in_range_edges [2; 1; 0; 0; 1; 2; 1; 2] 3).
  - unfold all_in_range. repeat constructor; lia.
  - exists 2, 1. split; [left|]. split; [lia|reflexivity].
Defined.

Lemma encode_loop_flat v ps :
  Forall (canonical_edge v) ps →
  encode_loop (v * 2 - 1) (_pairs_to_flat ps) = stream_pos <$> _pairs_to_flat ps.
Proof.
  induction 1 as [|[a b] ps (Ha & Hab & Hb) _ IH]; [done|].
  simpl in Ha, Hab, Hb.
  change (_pairs_to_flat ((a, b) :: ps)) with (a :: b :: _pairs_to_flat ps).
  cbn [encode_loop fmap list_fmap]. rewrite IH. unfold stream_pos.
  destruct (Z.leb_spec 0 (a * 2)); [|lia].
  destruct (Z.leb_spec (a * 2) (v * 2 - 1)); [|lia].
  destruct (Z.leb_spec 0 (b * 2)); [|lia].
  destruct (Z.leb_spec (b * 2) (v * 2 - 1)); [|lia].
  destruct (Z.eqb_spec (a * 2) (b * 2)); [lia|]. done.
Qed.

(** X4. [encode_spine_edges] is sanitising followed by doubling: the range
    test of its loop never discards a sanitised pair, so the result has as
    many values as the sanitised stream and halving it gives that stream
    back. *)
Theorem encode_spine_edges_doubles (keep_edges_new : list Z) (vertex_count : Z) :
  encode_spine_edges keep_edges_new vertex_count
  = stream_pos <$> _sanitize_pairs keep_edges_new vertex_count.
Proof.
  unfold encode_spine_edges.
  destruct (sanitize_shape keep_edges_new vertex_count) as (Hflat & _ & Hc).
  destruct (_sanitize_pairs keep_edges_new vertex_count) as [|x clean] eqn:E;
    [done|].
  rewrite Hflat. by apply encode_loop_flat.
Qed.

Lemma even_stream_loop_flat m ps :
  even_stream_loop m (_pairs_to_flat ps) = Some (encode_loop m (_pairs_to_flat ps)).
Proof.
  induction ps as [|[a b] ps IH]; [done|].
  change (_pairs_to_flat ((a, b) :: ps)) with (a :: b :: _pairs_to_flat ps).
  cbn [even_stream_loop encode_loop]. rewrite IH. simpl.
  by destruct (_ && _).
Qed.

Lemma even_stream_loop_is_Some m l :
  is_Some (even_stream_loop m l) ↔ Nat.even (length l) = true.
Proof.
  induction l as [|a|a b rest IH] using pair_ind; simpl.
  - split; [done|by eexists].
  - split; [by intros [? ?]|done].
  - rewrite <- IH. destruct (even_stream_loop m rest); simpl; split;
      try done; try (by eexists); by intros [? ?].
Qed.

(** X5. [edges_vertices_to_even_stream] raises ([IndexError]) exactly on a
    stream of odd length; on a stream that [sanitize_vert_edges] produced it
    returns what [encode_spine_edges] returns for the unsanitised stream. *)
Theorem even_stream_matches_encode (edges_vert : list Z) (vertex_count : Z) :
  (is_Some (edges_vertices_to_even_stream edges_vert vertex_count)
   ↔ Nat.even (length edges_vert) = true)
  ∧ edges_vertices_to_even_stream
      (sanitize_vert_edges edges_vert vertex_count) vertex_count
    = Some (encode_spine_edges edges_vert vertex_count).
Proof.
  split.
  { unfold edges_vertices_to_even_stream.
    destruct edges_vert as [|x l]; [split; [done|by eexists]|].
    apply even_stream_loop_is_Some. }
  assert (sanitize_vert_edges edges_vert vertex_count
          = _sanitize_pairs edges_vert vertex_count) as ->
    by (by destruct edges_vert).
  unfold edges_vertices_to_even_stream, encode_spine_edges.
  destruct (sanitize_shape edges_vert vertex_count) as (Hflat & _ & Hc).
  destruct (_sanitize_pairs edges_vert vertex_count) as [|x clean] eqn:E;
    [done|].
  assert (0 < vertex_count) as Hv.
  { rewrite Hflat in Hc. destruct (pairs_of (x :: clean)) as [|p ps]; [done|].
    apply Forall_cons in Hc as [(? & ? & ?) _]. lia. }
  rewrite Z.max_r by lia. rewrite Hflat. apply even_stream_loop_flat.
Qed.

Lemma pairs_of_flat_map {A} (f g : A → Z) (l : list A) :
  pairs_of (flat_map (λ i, [f i; g i]) l) = (λ i, (f i, g i)) <$> l.
Proof. induction l as [|x l IH]; simpl; [done|]. by rewrite IH. Qed.

Lemma length_flat_map_pair {A} (f g : A → Z) (l : list A) :
  length (flat_map (λ i, [f i; g i]) l) = (2 * length l)%nat.
Proof. induction l as [|x l IH]; simpl; [done|]. rewrite IH. lia. Qed.

(** X6. For a hull of at least three indices [edges_perimeter_from_hull]
    is the closed cycle through the hull: its pairs are
    [(h0, h1), (h1, h2), ..., (h_last, h0)]. A shorter hull has no
    perimeter. *)
Theorem perimeter_is_closed_cycle (hull_idx : list Z) :
  ((3 ≤ length hull_idx)%nat →
     pairs_of (edges_perimeter_from_hull hull_idx)
     = zip hull_idx (rotate 1 hull_idx)
     ∧ length (edges_perimeter_from_hull hull_idx) = (2 * length hull_idx)%nat)
  ∧ ((length hull_idx < 3)%nat → edges_perimeter_from_hull hull_idx = []).
Proof.
  unfold edges_perimeter_from_hull. split.
  - intros Hn. destruct (Nat.ltb_spec (length hull_idx) 3); [lia|]. split.
    + rewrite pairs_of_flat_map. apply list_eq. intros i.
      rewrite list_lookup_fmap, lookup_zip_with.
      destruct (decide (i < length hull_idx)%nat) as [Hi|Hi].
      * rewrite lookup_seq_lt by done. simpl.
        rewrite lookup_rotate_r by done.
        assert (rotate_nat_add 1 i (length hull_idx)
                = ((i + 1) mod length hull_idx)%nat) as ->.
        { unfold rotate_nat_add. rewrite <- Nat2Z.inj_add, <- Nat2Z.inj_mod.
          rewrite Nat2Z.id. f_equal. lia. }
        rewrite !nth_lookup.
        destruct (lookup_lt_is_Some_2 hull_idx i Hi) as [x ->].
        destruct (lookup_lt_is_Some_2 hull_idx ((i + 1) mod length hull_idx))
          as [y ->]; [apply Nat.mod_upper_bound; lia|]. done.
      * rewrite lookup_seq_ge by lia. simpl.
        rewrite (lookup_ge_None_2 hull_idx i) by lia. done.
    + rewrite length_flat_map_pair, length_seq. done.
  - intros Hn. destruct (Nat.ltb_spec (length hull_idx) 3); [done|lia].
Qed.

Lemma perimeter_is_closed_cycle_witness :
  pairs_of (edges_perimeter_from_hull [4; 7; 2; 9])
  = [(4, 7); (7, 2); (2, 9); (9, 4)].
Proof.
  destruct (perimeter_is_closed_cycle [4; 7; 2; 9]) as [H _].
  destruct H as [H _]; [simpl; lia|]. exact H.
Defined.

Lemma validate_loop_None v e :
  validate_loop (v * 2 - 1) e = None ↔ Forall (stream_value_ok v) e.
Proof.
  split; [|apply validate_loop_ok].
  induction e as [|x e IH]; simpl; [constructor|].
  destruct (Z.eqb_spec (Z.land x 1) 0) as [Hev|]; simpl; [|done].
  destruct (Z.ltb_spec x 0); simpl; [done|].
  destruct (Z.gtb_spec x (v * 2 - 1)); simpl; [done|].
  intros He. constructor; [|by apply IH]. split; [|lia].
  change 1 with (Z.ones 1) in Hev. rewrite Z.land_ones in Hev by lia.
  rewrite Z.pow_1_r in Hev. apply Zeven_bool_iff, Zeven_ex_iff.
  exists (x / 2). pose proof (Z.div_mod x 2). lia.
Qed.

(** X7. [validate_attachment_edges] returns normally exactly when the
    attachment has no (or an empty) [edges] array, or it has at least one
    UV pair and every edge value is even and within [0 .. 2*vcount - 1],
    [vcount = len(uvs) // 2]. *)
Theorem validate_attachment_edges_iff (att : attachment) :
  validate_attachment_edges att = None
  ↔ match att_edges att with
    | None | Some [] => True
    | Some e =>
        let vcount := Z.of_nat (length (att_uvs att)) / 2 in
        0 < vcount ∧ Forall (stream_value_ok vcount) e
    end.
Proof.
  unfold validate_attachment_edges.
  destruct (att_edges att) as [[|x e]|]; [done| |done].
  destruct (Z.leb_spec (Z.of_nat (length (att_uvs att)) / 2) 0).
  - split; [done|]. intros [? _]. lia.
  - rewrite validate_loop_None. split; [done|]. by intros [_ ?].
Qed.

End EdgeStreamFacts.

(** ** The exporter's edge streams pass its own validation *)

Module ExportEdgesFacts.
Import Edges EdgeTopology EdgesFacts EdgeTopologyFacts EdgeStreams
  EdgeStreamFacts ExportEdges.

Lemma encode_spine_edges_ok keep v :
  Forall (stream_value_ok v) (encode_spine_edges keep v).
Proof.
  unfold encode_spine_edges.
  pose proof (_sanitize_pairs_in_range keep v) as Hr.
  destruct (_sanitize_pairs keep v) eqn:E; [constructor|].
  apply encode_loop_values. eapply Forall_impl; [exact Hr|].
  simpl. intros x. lia.
Qed.

(** X8. Whatever the mesh, the edges block of [export_now] raises nothing,
    and the [edges] array it stores (if any) is non-empty, of even length,
    and accepted by [validate_attachment_edges] on an attachment whose
    [uvs] hold one pair per region vertex. *)
Theorem exported_edges_always_validate
    (emit_edges : bool) (default_mode : edge_mode) (triangles : list Z)
    (new_to_src : list (Z * Z)) (region_xy : list (Q * Q))
    (me_edges : list mesh_edge) (hull_idx : list Z)
    (slot_name : string) (uvs : list Q) :
  length uvs = (2 * length region_xy)%nat →
  ∃ edges,
    attachment_edges emit_edges default_mode triangles new_to_src region_xy
      me_edges hull_idx = Some edges
    ∧ (∀ e, edges = Some e → e ≠ [] ∧ Nat.even (length e) = true)
    ∧ validate_attachment_edges (attachment_of slot_name uvs edges) = None.
Proof.
  intros Hlen. unfold attachment_edges.
  destruct emit_edges; [|exists None; done].
  destruct (build_edges_from_tris_and_manual default_mode triangles new_to_src
              (Some region_xy) (Some me_edges) (Some All) true true false)
    as [raw|] eqn:Eb.
  2:{ exfalso. revert Eb. unfold build_edges_from_tris_and_manual. simpl.
      done. }
  cbn [mbind option_bind]. set (v := Z.of_nat (length region_xy)).
  assert (∀ es, Forall (stream_value_ok v) es →
    ∃ edges,
      Some (match es with
            | [] => None
            | _ => if Nat.even (length es) then Some es else None
            end) = Some edges
      ∧ (∀ e, edges = Some e → e ≠ [] ∧ Nat.even (length e) = true)
      ∧ validate_attachment_edges (attachment_of slot_name uvs edges) = None)
    as Hgen.
  { intros es Hok. eexists. split; [reflexivity|]. split.
    - intros e He. destruct es as [|x es']; [done|].
      destruct (Nat.even (length (x :: es'))) eqn:Eev; [|done].
      injection He as <-. done.
    - apply validate_attachment_edges_iff. unfold attachment_of.
      cbn [att_edges att_uvs].
      destruct es as [|x es']; [done|].
      destruct (Nat.even (length (x :: es'))) eqn:Eev; [|done].
      rewrite Hlen. rewrite Nat2Z.inj_mul. rewrite Z.mul_comm, Z.div_mul by lia.
      fold v. split; [|done].
      apply Forall_cons in Hok as [[_ ?] _]. lia. }
  apply Hgen.
  match goal with |- Forall _ (match ?c with _ => _ end) => destruct c end;
    [constructor|]. apply encode_spine_edges_ok.
Qed.

Lemma exported_edges_always_validate_witness :
  let square := [(0, 0); (1, 0); (1, 1); (0, 1)]%Q in
  ∃ edges,
    attachment_edges true Mixed [0; 1; 2; 0; 2; 3]
      [(10, 0); (11, 1); (12, 2); (13, 3)] square
      [ {| vertices := (10, 11); use_seam := false; use_edge_sharp := false |};
        {| vertices := (12, 10); use_seam := false; use_edge_sharp := false |} ]
      [0; 1; 2; 3] = Some edges
    ∧ validate_attachment_edges
        (attachment_of "quad" (repeat 0%Q 8) edges) = None.
Proof.
  intros square.
  destruct (exported_edges_always_validate true Mixed [0; 1; 2; 0; 2; 3]
              [(10, 0); (11, 1); (12, 2); (13, 3)] square
              [ {| vertices := (10, 11); use_seam := false; use_edge_sharp := false |};
                {| vertices := (12, 10); use_seam := false; use_edge_sharp := false |} ]
              [0; 1; 2; 3] "quad" (repeat 0%Q 8) eq_refl)
    as (edges & He & _ & Hv).
  exists edges. split; [exact He|exact Hv].
Defined.

End ExportEdgesFacts.

(** ** Edge counts, mapped mesh edges and the edge modes *)

Module EdgeModeFacts.
Import Edges EdgeTopology EdgesFacts EdgeTopologyFacts EdgeStreams
  EdgeStreamFacts EdgeMapSpec.

Lemma edge_counts_loop_None tris :
  ∀ counts, (length tris mod 3 ≠ 0)%nat → edge_counts_loop counts tris = None.
Proof.
  remember (length tris) as n eqn:Hn. revert tris Hn.
  induction n as [n IH] using lt_wf_ind. intros tris Hn counts Hmod.
  destruct tris as [|a [|b [|c rest]]]; cbn [length edge_counts_loop] in *;
    subst n; try done.
  apply (IH (length rest)); [lia|done|].
  pose proof (Nat.Div0.mod_add (length rest) 1 3) as Hm.
  replace (length rest + 1 * 3)%nat with (S (S (S (length rest)))) in Hm by lia.
  congruence.
Qed.

Lemma counts_spec tris :
  (length tris mod 3 = 0)%nat →
  ∃ counts, _edge_counts_from_tris tris = Some counts
    ∧ positive_counts counts
    ∧ ∀ e, count_of counts e = multiplicity tris e.
Proof.
  intros Hmod.
  destruct (edge_counts_loop_spec tris ∅) as (counts & Hc & Hpos & Hcnt);
    [intros e n; by rewrite lookup_empty | done |].
  exists counts. split; [done|]. split; [done|]. intros e.
  rewrite Hcnt. unfold count_of. by rewrite lookup_empty.
Qed.

Lemma counts_lookup counts tris e k :
  positive_counts counts → (∀ e, count_of counts e = multiplicity tris e) →
  (0 < k)%nat → (counts !! e = Some k ↔ multiplicity tris e = k).
Proof.
  intros Hpos Hcnt Hk. rewrite <- Hcnt. unfold count_of.
  destruct (counts !! e) as [n|] eqn:E; simpl.
  - split; [by intros [= ->]|by intros ->].
  - split; [done|lia].
Qed.

(** X9. [_edge_counts_from_tris] returns exactly on a stream of whole
    triangles (otherwise the read past the end raises); the dictionary then
    records for every undirected edge, under its canonical key, the number
    of triangle sides that are this edge, and has no entry for an edge of
    no triangle. *)
Theorem edge_counts_exact (tri_indices : list Z) :
  ((length tri_indices mod 3 = 0)%nat →
     ∃ counts, _edge_counts_from_tris tri_indices = Some counts
       ∧ (∀ e, count_of counts e = multiplicity tri_indices e)
       ∧ (∀ e, counts !! e = None ↔ multiplicity tri_indices e = 0%nat)
       ∧ (∀ e, is_Some (counts !! e) → e.1 <= e.2))
  ∧ ((length tri_indices mod 3 ≠ 0)%nat →
     _edge_counts_from_tris tri_indices = None).
Proof.
  split; [|apply edge_counts_loop_None].
  intros Hmod. destruct (counts_spec tri_indices Hmod) as (counts & Hc & Hpos & Hcnt).
  exists counts. split; [done|]. split; [done|]. split.
  - intros e. rewrite <- Hcnt. unfold count_of.
    destruct (counts !! e) as [n|] eqn:E; simpl; [|done].
    apply Hpos in E. split; [done|lia].
  - intros e [n Hn]. pose proof (Hpos _ _ Hn) as Hp.
    destruct (Z.le_gt_cases e.1 e.2) as [|Hgt]; [done|].
    specialize (Hcnt e). unfold count_of in Hcnt. rewrite Hn in Hcnt.
    rewrite multiplicity_noncanonical in Hcnt by lia. simpl in Hcnt. lia.
Qed.

Lemma edge_counts_exact_witness :
  ∃ counts, _edge_counts_from_tris [0; 1; 2; 0; 2; 3] = Some counts
    ∧ count_of counts (0, 2) = 2%nat ∧ count_of counts (2, 0) = 0%nat.
Proof.
  destruct (edge_counts_exact [0; 1; 2; 0; 2; 3]) as [H _].
  destruct (H eq_refl) as (counts & Hc & Hcnt & _).
  exists counts. split; [exact Hc|]. rewrite !Hcnt. split; reflexivity.
Defined.

Lemma edges_with_count_NoDup k counts : NoDup (edges_with_count k counts).
Proof. unfold edges_with_count. apply NoDup_fst_map_to_list. Qed.

(** X10. On a stream of whole triangles [_tri_internal_edges_from_tris]
    lists, without repetition, exactly the edges shared by two triangle
    sides and [_tri_boundary_edges_from_tris] exactly those of one side; no
    edge is in both lists. *)
Theorem internal_and_boundary_edges (tri_indices : list Z) :
  (length tri_indices mod 3 = 0)%nat →
  ∃ internal boundary,
    _tri_internal_edges_from_tris tri_indices = Some internal
    ∧ _tri_boundary_edges_from_tris tri_indices = Some boundary
    ∧ NoDup internal ∧ NoDup boundary
    ∧ (∀ e, e ∈ internal ↔ multiplicity tri_indices e = 2%nat)
    ∧ (∀ e, e ∈ boundary ↔ multiplicity tri_indices e = 1%nat)
    ∧ (∀ e, e ∈ internal → e ∉ boundary).
Proof.
  intros Hmod. destruct (counts_spec tri_indices Hmod) as (counts & Hc & Hpos & Hcnt).
  exists (edges_with_count 2 counts), (edges_with_count 1 counts).
  unfold _tri_internal_edges_from_tris, _tri_boundary_edges_from_tris.
  rewrite Hc. split; [done|]. split; [done|].
  split; [apply edges_with_count_NoDup|]. split; [apply edges_with_count_NoDup|].
  assert (∀ k e, (0 < k)%nat →
            e ∈ edges_with_count k counts ↔ multiplicity tri_indices e = k) as Hk.
  { intros k e Hk. rewrite elem_of_edges_with_count.
    by apply counts_lookup. }
  split; [intros e; apply Hk; lia|]. split; [intros e; apply Hk; lia|].
  intros e. rewrite !Hk by lia. lia.
Qed.

Lemma internal_and_boundary_edges_witness :
  ∃ internal, _tri_internal_edges_from_tris [0; 1; 2; 0; 2; 3] = Some internal
    ∧ (0, 2) ∈ internal ∧ (0, 1) ∉ internal.
Proof.
  destruct (internal_and_boundary_edges [0; 1; 2; 0; 2; 3] eq_refl)
    as (internal & boundary & Hi & _ & _ & _ & Hint & _ & _).
  exists internal. split; [exact Hi|]. rewrite !Hint.
  split; [reflexivity|]. vm_compute. discriminate.
Defined.

(** *** [_map_src_edge_to_new] *)

(** What the scan holds in [first_i] after the entries [rest], numbered from
    [off]: the value it had, or else the first match in [rest]. *)
Lemma list_find_cons_fst (src : Z) (x : Z * Z) (l : list (Z * Z)) :
  fst <$> list_find (λ e, e.1 = src) (x :: l)
  = if decide (x.1 = src) then Some 0%nat
    else S <$> (fst <$> list_find (λ e, e.1 = src) l).
Proof.
  cbn [list_find]. case_decide; [done|].
  destruct (list_find _ l) as [[i y]|]; done.
Qed.

Lemma map_src_scan_spec src_i src_j rest :
  ∀ first_i first_j off,
    map_src_scan src_i src_j first_i first_j off rest
    = (match first_i with
       | Some x => Some x
       | None => (λ k, (off + k)%nat) <$> first_new_index src_i rest
       end,
       match first_j with
       | Some x => Some x
       | None => (λ k, (off + k)%nat) <$> first_new_index src_j rest
       end).
Proof.
  unfold first_new_index.
  induction rest as [|[svi loopi] rest IH]; intros first_i first_j off.
  - simpl. by destruct first_i, first_j.
  - cbn [map_src_scan]. rewrite !list_find_cons_fst. cbn [fst].
    assert (∀ o : option nat, (λ k, (off + k)%nat) <$> (S <$> o)
                              = (λ k, (S off + k)%nat) <$> o) as Hshift.
    { intros [i|]; simpl; [|done]. f_equal. lia. }
    destruct first_i as [fi|], first_j as [fj|];
      destruct (Z.eqb_spec svi src_i) as [Ei|Ei],
               (Z.eqb_spec svi src_j) as [Ej|Ej];
      repeat case_bool_decide; try done; cbn [andb];
      rewrite ?IH; repeat case_decide; try done; simpl;
      rewrite ?Hshift, ?Nat.add_0_r; try done.
Qed.

Lemma map_src_edge_eq src_i src_j new_to_src :
  _map_src_edge_to_new (src_i, src_j) new_to_src
  = match first_new_index src_i new_to_src, first_new_index src_j new_to_src with
    | Some fi, Some fj =>
        if bool_decide (fi = fj) then None
        else Some (canon (Z.of_nat fi) (Z.of_nat fj))
    | _, _ => None
    end.
Proof.
  unfold _map_src_edge_to_new. cbn [fst snd]. rewrite map_src_scan_spec.
  destruct (first_new_index src_i new_to_src) as [fi|],
           (first_new_index src_j new_to_src) as [fj|]; done.
Qed.

Lemma first_new_index_Some src new_to_src i :
  first_new_index src new_to_src = Some i
  ↔ (∃ loopi, new_to_src !! i = Some (src, loopi))
    ∧ ∀ j y, new_to_src !! j = Some y → (j < i)%nat → y.1 ≠ src.
Proof.
  unfold first_new_index. split.
  - destruct (list_find _ new_to_src) as [[k [s l]]|] eqn:E; [|done].
    simpl. intros [= ->]. apply list_find_Some in E as (Hl & Hs & Hfirst).
    simpl in Hs. subst s. split; [by exists l|]. exact Hfirst.
  - intros [[l Hl] Hfirst].
    assert (list_find (λ e : Z * Z, e.1 = src) new_to_src = Some (i, (src, l)))
      as ->; [|done].
    apply list_find_Some. done.
Qed.

Lemma map_src_edge_range src_edge new_to_src p :
  _map_src_edge_to_new src_edge new_to_src = Some p →
  0 <= p.1 ∧ p.1 < p.2 ∧ p.2 < Z.of_nat (length new_to_src).
Proof.
  destruct src_edge as [src_i src_j]. rewrite map_src_edge_eq.
  destruct (first_new_index src_i new_to_src) as [fi|] eqn:Hi; [|done].
  destruct (first_new_index src_j new_to_src) as [fj|] eqn:Hj; [|done].
  case_bool_decide as Hne; [done|]. intros [= <-].
  apply first_new_index_Some in Hi as [[li Hi] _].
  apply first_new_index_Some in Hj as [[lj Hj] _].
  pose proof (lookup_lt_Some _ _ _ Hi). pose proof (lookup_lt_Some _ _ _ Hj).
  unfold canon. destruct (Z.ltb_spec (Z.of_nat fi) (Z.of_nat fj)); simpl; lia.
Qed.

(** X11. [_map_src_edge_to_new] maps the two source vertices of a mesh edge
    to the FIRST NEW indices that carry them, as its docstring says, and
    returns the pair in canonical order; it returns [None] exactly when a
    source vertex has no NEW index or the two NEW indices coincide. The
    result does not depend on the orientation of the source edge. *)
Theorem map_src_edge_first_occurrences
    (src_i src_j : Z) (new_to_src : list (Z * Z)) (u v : Z) :
  (_map_src_edge_to_new (src_i, src_j) new_to_src = Some (u, v)
   ↔ ∃ fi fj, first_new_index src_i new_to_src = Some fi
        ∧ first_new_index src_j new_to_src = Some fj
        ∧ fi ≠ fj ∧ (u, v) = canon (Z.of_nat fi) (Z.of_nat fj))
  ∧ (_map_src_edge_to_new (src_i, src_j) new_to_src = Some (u, v) →
     0 <= u ∧ u < v ∧ v < Z.of_nat (length new_to_src) ∧ src_i ≠ src_j)
  ∧ _map_src_edge_to_new (src_j, src_i) new_to_src
    = _map_src_edge_to_new (src_i, src_j) new_to_src.
Proof.
  rewrite !map_src_edge_eq.
  assert (match first_new_index src_i new_to_src,
                first_new_index src_j new_to_src with
          | Some fi, Some fj =>
              if bool_decide (fi = fj) then None
              else Some (canon (Z.of_nat fi) (Z.of_nat fj))
          | _, _ => None
          end = Some (u, v)
          ↔ ∃ fi fj, first_new_index src_i new_to_src = Some fi
              ∧ first_new_index src_j new_to_src = Some fj
              ∧ fi ≠ fj ∧ (u, v) = canon (Z.of_nat fi) (Z.of_nat fj)) as Hiff.
  { destruct (first_new_index src_i new_to_src) as [fi|],
             (first_new_index src_j new_to_src) as [fj|];
      try (split; [done|]; intros (? & ? & ? & ? & _); done).
    case_bool_decide as Hf.
    - split; [done|]. intros (? & ? & [= <-] & [= <-] & ? & _). done.
    - split; [intros [= <-]; by exists fi, fj|].
      by intros (? & ? & [= <-] & [= <-] & _ & <-). }
  split; [exact Hiff|]. split.
  - rewrite Hiff. intros (fi & fj & Hi & Hj & Hne & Huv).
    assert (src_i ≠ src_j).
    { intros ->. rewrite Hi in Hj. by injection Hj. }
    apply first_new_index_Some in Hi as [[li Hi] _].
    apply first_new_index_Some in Hj as [[lj Hj] _].
    pose proof (lookup_lt_Some _ _ _ Hi). pose proof (lookup_lt_Some _ _ _ Hj).
    unfold canon in Huv.
    destruct (Z.ltb_spec (Z.of_nat fi) (Z.of_nat fj)); injection Huv as -> ->;
      repeat split; try lia; done.
  - destruct (first_new_index src_i new_to_src) as [fi|],
             (first_new_index src_j new_to_src) as [fj|]; try done.
    rewrite (canon_sym (Z.of_nat fj)).
    repeat case_bool_decide; congruence.
Qed.

Lemma map_src_edge_first_occurrences_witness :
  _map_src_edge_to_new (7, 5) [(5, 0); (7, 1); (5, 2); (7, 3)] = Some (0, 1).
Proof.
  apply (proj1 (map_src_edge_first_occurrences 7 5
                  [(5, 0); (7, 1); (5, 2); (7, 3)] 0 1)).
  exists 1%nat, 0%nat. repeat split; try reflexivity. lia.
Defined.

(** *** The edge set of [build_edges_from_tris_and_manual] *)

Lemma manual_modes m :
  m ∈ [Manual; Mixed; All] ↔ m = Manual ∨ m = Mixed ∨ m = All.
Proof. rewrite !elem_of_cons, elem_of_nil. tauto. Qed.

Lemma add_manual_spec m us ush nts vc s e p :
  p ∈ add_manual m us ush nts vc s e
  ↔ p ∈ s ∨ (edge_allowed m us ush e = true
             ∧ _map_src_edge_to_new (vertices e) nts = Some p ∧ p.2 < vc).
Proof.
  unfold add_manual.
  change (bool_decide (m = All) || us && use_seam e || ush && use_edge_sharp e)
    with (edge_allowed m us ush e).
  destruct (edge_allowed m us ush e); [|split; [by left|by intros [?|[? _]]]].
  destruct (_map_src_edge_to_new (vertices e) nts) as [q|] eqn:Eq;
    [|split; [by left|by intros [?|(_ & ? & _)]]].
  pose proof (map_src_edge_range _ _ _ Eq) as (H0 & Hlt & _).
  rewrite add_edge_spec. unfold edge_admissible.
  assert (canon q.1 q.2 = q) as ->
    by (rewrite canon_id by done; by destruct q).
  split.
  - intros [?|[(_ & ? & _) ->]]; [by left|right]. split; [done|].
    split; [done|lia].
  - intros [?|(_ & [= <-] & ?)]; [by left|right]. split; [lia|done].
Qed.

Lemma foldl_add_manual_spec m us ush nts vc es :
  ∀ s p, p ∈ foldl (add_manual m us ush nts vc) s es
         ↔ p ∈ s ∨ mapped_edge m us ush nts vc es p.
Proof.
  unfold mapped_edge.
  induction es as [|e es IH]; intros s p; simpl.
  - split; [auto|]. intros [?|(e & He & _)]; [done|]. by apply elem_of_nil in He.
  - rewrite IH, add_manual_spec. split.
    + intros [[?|?]|(e' & He' & ?)]; auto.
      * right. exists e. split; [left|done].
      * right. exists e'. split; [by right|done].
    + intros [?|(e' & He' & Hrest)]; auto.
      apply elem_of_cons in He' as [->|He']; auto.
      right. exists e'. auto.
Qed.

Lemma boundary_set_spec counts triangles vc p :
  positive_counts counts → (∀ e, count_of counts e = multiplicity triangles e) →
  p ∈ foldl (add_edge vc) ∅ (edges_with_count 1 counts)
  ↔ boundary_edge triangles vc p.
Proof.
  intros Hpos Hcnt. unfold boundary_edge. rewrite foldl_add_edge_spec. split.
  - intros [Hin|([x y] & Hq & (Hx & Hy & Hxy) & ->)];
      [by apply not_elem_of_empty in Hin|]. simpl in *.
    apply elem_of_edges_with_count in Hq.
    apply (counts_lookup counts triangles) in Hq; [|done|done|lia].
    assert (x < y) as Hlt.
    { destruct (Z.lt_ge_cases x y) as [|Hge]; [done|].
      rewrite multiplicity_noncanonical in Hq by (simpl; lia). lia. }
    rewrite canon_id by done. simpl. split; [done|lia].
  - intros (Hm & Hu & Huv & Hv). right. exists p. split.
    + apply elem_of_edges_with_count.
      apply (counts_lookup counts triangles); [done|done|lia|done].
    + unfold edge_admissible. rewrite canon_id by done.
      split; [lia|by destruct p].
Qed.

(** The result of [build_edges_from_tris_and_manual] in every mode. *)
Lemma build_edges_spec dm triangles nts region_xy me_edges mode us ush ib :
  let m := default dm mode in
  let vc := edge_vcount region_xy nts in
  let bnd := bool_decide (m ∈ [Boundary; Mixed; All]) && ib
             && bool_decide (triangles ≠ []) in
  (bnd = true → (length triangles mod 3 = 0)%nat) →
  ∃ flat,
    build_edges_from_tris_and_manual dm triangles nts region_xy me_edges mode
      us ush ib = Some flat
    ∧ flat = _pairs_to_flat (pairs_of flat)
    ∧ NoDup (pairs_of flat)
    ∧ Sorted pair_le (pairs_of flat)
    ∧ ∀ p, p ∈ pairs_of flat
        ↔ (bnd = true ∧ boundary_edge triangles vc p)
          ∨ (m ∈ [Manual; Mixed; All]
             ∧ ∃ es, me_edges = Some es ∧ mapped_edge m us ush nts vc es p).
Proof.
  intros m vc bnd Hwf.
  assert (∃ S0 : gset (Z * Z),
    (if bnd then foldl (add_edge vc) ∅ <$> _tri_boundary_edges_from_tris triangles
     else Some ∅) = Some S0
    ∧ ∀ p, p ∈ S0 ↔ bnd = true ∧ boundary_edge triangles vc p)
    as (S0 & HS0 & HS0in).
  { destruct bnd eqn:Eb.
    - destruct (counts_spec triangles (Hwf eq_refl)) as (counts & Hc & Hpos & Hcnt).
      unfold _tri_boundary_edges_from_tris. rewrite Hc. simpl.
      eexists. split; [reflexivity|]. intros p.
      rewrite (boundary_set_spec counts triangles) by done.
      split; [done|by intros [_ ?]].
    - exists ∅. split; [done|]. intros p. split; [|by intros [? _]].
      intros Hin. by apply not_elem_of_empty in Hin. }
  set (S1 := match me_edges with
             | Some es =>
                 if bool_decide (m ∈ [Manual; Mixed; All])
                 then foldl (add_manual m us ush nts vc) S0 es else S0
             | None => S0
             end).
  assert (∀ p, p ∈ S1
      ↔ (bnd = true ∧ boundary_edge triangles vc p)
        ∨ (m ∈ [Manual; Mixed; All]
           ∧ ∃ es, me_edges = Some es ∧ mapped_edge m us ush nts vc es p))
    as HS1.
  { intros p. subst S1. destruct me_edges as [es|].
    - case_bool_decide as Hm.
      + rewrite foldl_add_manual_spec, HS0in. split.
        * intros [?|?]; [by left|right]. split; [done|]. by exists es.
        * intros [?|(_ & es' & [= <-] & ?)]; [by left|by right].
      + rewrite HS0in. split; [by left|]. intros [?|[? _]]; done.
    - rewrite HS0in. split; [by left|].
      intros [?|(_ & es' & ? & _)]; done. }
  set (ps := merge_sort pair_le (elements S1)).
  assert (build_edges_from_tris_and_manual dm triangles nts region_xy me_edges
            mode us ush ib = Some (_sanitize_pairs (_pairs_to_flat ps) vc))
    as Hbuild.
  { unfold build_edges_from_tris_and_manual. fold m. fold vc. fold bnd.
    rewrite HS0. done. }
  assert (ps ≡ₚ elements S1) as Hperm by apply merge_sort_Permutation.
  assert (NoDup ps) as Hnd by (rewrite Hperm; apply NoDup_elements).
  assert (∀ p, p ∈ ps → 0 <= p.1 ∧ p.1 < p.2 ∧ p.2 < vc) as Hcan.
  { intros p. rewrite Hperm, elem_of_elements, HS1.
    intros [[_ (_ & ? & ? & ?)]|(_ & es & _ & e & _ & _ & Hmap & ?)]; [done|].
    apply map_src_edge_range in Hmap as (? & ? & _). done. }
  assert (_sanitize_pairs (_pairs_to_flat ps) vc = _pairs_to_flat ps) as Hid.
  { apply _sanitize_pairs_id; auto; apply Forall_forall; intros p Hin;
      apply Hcan in Hin; lia. }
  exists (_pairs_to_flat ps). rewrite Hbuild, Hid, pairs_of_flat.
  split; [done|]. split; [done|]. split; [done|].
  split; [apply Sorted_merge_sort, _|].
  intros p. rewrite Hperm, elem_of_elements. apply HS1.
Qed.

(** X12. The call [export_now] makes (mode "all", [include_boundary=False])
    never raises, whatever the triangle stream; it returns a sorted stream
    of distinct canonical pairs, and a pair is present exactly when it is
    the image under [_map_src_edge_to_new] of some mesh edge and lies below
    the number of region vertices. No triangle boundary is added. *)
Theorem all_mode_maps_every_mesh_edge
    (default_mode : edge_mode) (triangles : list Z) (new_to_src : list (Z * Z))
    (region_xy : list (Q * Q)) (me_edges : list mesh_edge)
    (use_seams use_sharp : bool) :
  ∃ flat,
    build_edges_from_tris_and_manual default_mode triangles new_to_src
      (Some region_xy) (Some me_edges) (Some All) use_seams use_sharp false
    = Some flat
    ∧ flat = _pairs_to_flat (pairs_of flat)
    ∧ NoDup (pairs_of flat)
    ∧ Sorted pair_le (pairs_of flat)
    ∧ ∀ u v, (u, v) ∈ pairs_of flat
        ↔ ∃ e, e ∈ me_edges
             ∧ _map_src_edge_to_new (vertices e) new_to_src = Some (u, v)
             ∧ v < Z.of_nat (length region_xy).
Proof.
  destruct (build_edges_spec default_mode triangles new_to_src (Some region_xy)
              (Some me_edges) (Some All) use_seams use_sharp false)
    as (flat & Hb & Hflat & Hnd & Hs & Hin).
  { done. }
  exists flat. split; [done|]. split; [done|]. split; [done|]. split; [done|].
  intros u v. rewrite Hin. simpl. split.
  - intros [[? _]|(_ & es & [= <-] & e & He & _ & Hmap & Hv)]; [done|].
    by exists e.
  - intros (e & He & Hmap & Hv). right. split; [by apply manual_modes; auto|].
    exists me_edges. split; [done|]. exists e. done.
Qed.

Lemma edge_allowed_not_all m us ush e :
  m ≠ All →
  edge_allowed m us ush e = (us && use_seam e) || (ush && use_edge_sharp e).
Proof.
  intros Hm. unfold edge_allowed. rewrite bool_decide_eq_false_2 by done. done.
Qed.

(** X13. Mode "mixed" is the union of modes "boundary" and "manual": on a
    stream of whole triangles all three calls return, and a pair is in the
    "mixed" result exactly when it is in the "boundary" result or in the
    "manual" result. The "manual" result consists of the mapped seam and
    sharp edges only, and needs no well-formed triangle stream. *)
Theorem mixed_is_boundary_plus_manual
    (default_mode : edge_mode) (triangles : list Z) (new_to_src : list (Z * Z))
    (region_xy : option (list (Q * Q))) (me_edges : option (list mesh_edge))
    (use_seams use_sharp : bool) :
  let build mode :=
    build_edges_from_tris_and_manual default_mode triangles new_to_src
      region_xy me_edges (Some mode) use_seams use_sharp true in
  (∃ fm, build Manual = Some fm
     ∧ ∀ p, p ∈ pairs_of fm
         ↔ ∃ es, me_edges = Some es
              ∧ mapped_edge Manual use_seams use_sharp new_to_src
                  (edge_vcount region_xy new_to_src) es p)
  ∧ ((length triangles mod 3 = 0)%nat →
     ∃ fb fm fx,
       build Boundary = Some fb ∧ build Manual = Some fm ∧ build Mixed = Some fx
       ∧ ∀ p, p ∈ pairs_of fx ↔ p ∈ pairs_of fb ∨ p ∈ pairs_of fm).
Proof.
  intros build. subst build. cbv beta.
  destruct (build_edges_spec default_mode triangles new_to_src region_xy
              me_edges (Some Manual) use_seams use_sharp true)
    as (fm & Hbm & _ & _ & _ & Hm); [done|].
  simpl in Hm.
  assert (∀ p, p ∈ pairs_of fm
      ↔ ∃ es, me_edges = Some es
           ∧ mapped_edge Manual use_seams use_sharp new_to_src
               (edge_vcount region_xy new_to_src) es p) as Hm'.
  { intros p. rewrite Hm. split.
    - intros [[? _]|[_ ?]]; done.
    - intros ?. right. split; [by apply manual_modes; auto|done]. }
  split; [by exists fm|].
  intros Hwf.
  destruct (build_edges_spec default_mode triangles new_to_src region_xy
              me_edges (Some Boundary) use_seams use_sharp true)
    as (fb & Hbb & _ & _ & _ & Hb); [done|].
  destruct (build_edges_spec default_mode triangles new_to_src region_xy
              me_edges (Some Mixed) use_seams use_sharp true)
    as (fx & Hbx & _ & _ & _ & Hx); [done|].
  exists fb, fm, fx. split; [done|]. split; [done|]. split; [done|].
  intros p. rewrite Hx, Hb, Hm'. simpl. split.
  - intros [?|(_ & es & -> & e & He & Hal & Hrest)]; [left; by left|].
    right. exists es. split; [done|]. exists e. split; [done|].
    rewrite edge_allowed_not_all in Hal |- * by done. done.
  - intros [[?|[Hbad _]]|(es & -> & e & He & Hal & Hrest)];
      [by left|by apply manual_modes in Hbad as [?|[?|?]]|].
    right. split; [by apply manual_modes; auto|]. exists es. split; [done|].
    exists e. split; [done|].
    rewrite edge_allowed_not_all in Hal |- * by done. done.
Qed.

Lemma mixed_is_boundary_plus_manual_witness :
  let nts := [(10, 0); (11, 1); (12, 2); (13, 3)] in
  let seam := {| vertices := (10, 12); use_seam := true;
                 use_edge_sharp := false |} in
  ∃ fx,
    build_edges_from_tris_and_manual Mixed [0; 1; 2; 0; 2; 3] nts None
      (Some [seam]) (Some Mixed) true true true = Some fx
    ∧ (0, 2) ∈ pairs_of fx.
Proof.
  intros nts seam.
  destruct (mixed_is_boundary_plus_manual Mixed [0; 1; 2; 0; 2; 3] nts None
              (Some [seam]) true true) as [(fm & Hm & Hmin) H].
  destruct (H eq_refl) as (fb & fm' & fx & Hb & Hm' & Hx & Hin).
  exists fx. split; [exact Hx|]. apply Hin. right.
  rewrite Hm in Hm'. injection Hm' as <-. apply Hmin.
  exists [seam]. split; [reflexivity|]. exists seam.
  split; [left|]. split; [reflexivity|]. split; [reflexivity|].
  simpl. lia.
Defined.

End EdgeModeFacts.

(** ** Weighted meshes and fallback bones *)

Module WeightHelperFacts.
Import PyNum PyNumFacts Weights WeightsFacts WeightHelpers.
Local Open Scope Q_scope.

Lemma usable_weight_spec names deform eps g :
  usable_weight names deform eps g = true
  ↔ ∃ vg, names !! group g = Some vg ∧ vg ∈ deform ∧ eps < weight g.
Proof.
  unfold usable_weight. destruct (names !! group g) as [vg|].
  - rewrite andb_true_iff, bool_decide_eq_true, Qgt_bool_true. split.
    + intros [? ?]. by exists vg.
    + by intros (? & [= <-] & ? & ?).
  - split; [done|]. by intros (? & ? & _).
Qed.

Lemma mesh_has_deform_weights_spec obj deform eps :
  mesh_has_deform_weights obj deform eps = true
  ↔ ∃ v g vg, v ∈ mesh_vertices obj ∧ g ∈ groups v
      ∧ vg_index_to_name obj !! group g = Some vg ∧ vg ∈ deform
      ∧ eps < weight g.
Proof.
  unfold mesh_has_deform_weights.
  assert (existsb (λ v, existsb (usable_weight (vg_index_to_name obj) deform eps)
                          (groups v)) (mesh_vertices obj) = true
          ↔ ∃ v g vg, v ∈ mesh_vertices obj ∧ g ∈ groups v
              ∧ vg_index_to_name obj !! group g = Some vg ∧ vg ∈ deform
              ∧ eps < weight g) as Hex.
  { rewrite existsb_exists. split.
    - intros (v & Hv & Hg). apply existsb_exists in Hg as (g & Hg & Hu).
      apply usable_weight_spec in Hu as (vg & ? & ? & ?).
      exists v, g, vg. by rewrite <- !list_elem_of_In in *.
    - intros (v & g & vg & Hv & Hg & ? & ? & ?). exists v.
      rewrite <- list_elem_of_In. split; [done|]. apply existsb_exists.
      exists g. rewrite <- list_elem_of_In. split; [done|].
      apply usable_weight_spec. by exists vg. }
  destruct (vertex_groups obj) as [|n ns] eqn:E; [|exact Hex].
  split; [done|]. intros (v & g & vg & _ & _ & Hl & _).
  unfold vg_index_to_name in Hl. rewrite E in Hl. simpl in Hl.
  by rewrite lookup_empty in Hl.
Qed.

Lemma slice_to_nil {A} n : slice_to n ([] : list A) = [].
Proof. unfold slice_to. destruct (0 <=? n)%Z; apply take_nil. Qed.

(** X14. A mesh that [mesh_has_deform_weights] reports as unweighted gets,
    from [build_vertex_influences], the single fallback influence
    [(fallback_bone, 1.0)] on every vertex, whatever the epsilon and the
    influence limit. *)
Theorem unweighted_mesh_has_only_fallback
    (obj : mesh_object) (deform_names : gset string) (weight_eps : Q)
    (max_influences : Z) (fallback_bone : string) (v : mesh_vertex) :
  mesh_has_deform_weights obj deform_names weight_eps = false →
  v ∈ mesh_vertices obj →
  build_vertex_influences obj deform_names weight_eps max_influences
    fallback_bone !! index v = Some [(fallback_bone, 1)].
Proof.
  intros Hno Hv.
  destruct (build_lookup
              (vertex_influences (vg_index_to_name obj) deform_names weight_eps
                 max_influences fallback_bone) _ v Hv) as (v' & Hv' & _ & Hl).
  assert (vertex_influences (vg_index_to_name obj) deform_names weight_eps
            max_influences fallback_bone v' = [(fallback_bone, 1)]) as Hfb;
    [|rewrite Hfb in Hl; exact Hl].
  unfold vertex_influences. cbv zeta.
  match goal with
  | |- context [sort_desc ?c] => assert (c = []) as ->;
                                 [|simpl; by rewrite slice_to_nil]
  end.
  apply elem_of_nil_inv. intros t Ht.
  apply list_elem_of_filter in Ht as [Hw Ht].
  apply elem_of_collect_raw in Ht as (g & Hg & Hname & _ & Hd & _ & Htw).
  apply Qle_bool_false in Hw. rewrite Htw in Hw.
  apply not_true_iff_false in Hno. apply Hno.
  apply mesh_has_deform_weights_spec. by exists v', g, t.1.
Qed.

Lemma unweighted_mesh_has_only_fallback_witness :
  let v0 := {| index := 4; groups := [ {| group := 0; weight := 1 # 2 |};
                                       {| group := 1; weight := 1 # 100000 |} ] |} in
  let obj := {| vertex_groups := ["ctrl"; "arm"]%string; mesh_vertices := [v0] |} in
  build_vertex_influences obj {[ "arm" ]}%string (1 # 10000) 4 "root"%string
    !! 4%Z = Some [("root"%string, 1)].
Proof.
  intros v0 obj.
  apply (unweighted_mesh_has_only_fallback obj {[ "arm" ]}%string (1 # 10000) 4
           "root"%string v0); [reflexivity|left].
Defined.

(** *** [first_nonroot_deform_child] *)

Lemma first_name_Some test all_bones n :
  first_name test all_bones = Some n →
  ∃ b, b ∈ all_bones ∧ bone_name b = n ∧ test b = true.
Proof.
  unfold first_name. destruct (filter _ all_bones) as [|b l] eqn:E; [done|].
  simpl. intros [= <-]. exists b. split; [|split; [done|]].
  - assert (b ∈ filter (λ b, test b = true) all_bones) as Hb by (rewrite E; left).
    by apply list_elem_of_filter in Hb as [_ ?].
  - assert (b ∈ filter (λ b, test b = true) all_bones) as Hb by (rewrite E; left).
    by apply list_elem_of_filter in Hb as [? _].
Qed.

Lemma first_name_None test all_bones :
  first_name test all_bones = None ↔ ∀ b, b ∈ all_bones → test b = false.
Proof.
  unfold first_name. split.
  - destruct (filter _ all_bones) as [|b l] eqn:E; [|done]. intros _ b Hb.
    destruct (test b) eqn:Et; [|done]. exfalso.
    assert (b ∈ filter (λ b, test b = true) all_bones) as Hin
      by (by apply list_elem_of_filter).
    rewrite E in Hin. by apply elem_of_nil in Hin.
  - intros Hall. destruct (filter _ all_bones) as [|b l] eqn:E; [done|].
    assert (b ∈ filter (λ b, test b = true) all_bones) as Hb by (rewrite E; left).
    apply list_elem_of_filter in Hb as [Ht Hb]. rewrite (Hall b Hb) in Ht. done.
Qed.

(** X15. [first_nonroot_deform_child] returns [None] exactly when no bone
    is a deform bone. Otherwise it returns the name of a deform bone of the
    armature, chosen by priority: a child of a top-level bone if some
    deform bone is one, else a bone that has a parent if some deform bone
    has one. *)
Theorem first_nonroot_deform_child_priority
    (all_bones : list bone) (deform_names : gset string) :
  (first_nonroot_deform_child all_bones deform_names = None
   ↔ ∀ b, b ∈ all_bones → bone_name b ∉ deform_names)
  ∧ ∀ n, first_nonroot_deform_child all_bones deform_names = Some n →
      ∃ b, b ∈ all_bones ∧ bone_name b = n ∧ n ∈ deform_names
        ∧ ((∃ b', b' ∈ all_bones
              ∧ deform_child_of_root (root_names all_bones) deform_names b' = true) →
           deform_child_of_root (root_names all_bones) deform_names b = true)
        ∧ ((∃ b', b' ∈ all_bones ∧ deform_with_parent deform_names b' = true) →
           bone_parent b ≠ None).
Proof.
  unfold first_nonroot_deform_child.
  set (roots := root_names all_bones).
  assert (∀ b, deform_child_of_root roots deform_names b = true →
               deform_with_parent deform_names b = true) as H12.
  { intros b. unfold deform_child_of_root, deform_with_parent.
    rewrite !andb_true_iff. intros [? Hp]. split; [done|].
    apply bool_decide_eq_true. by destruct (bone_parent b). }
  assert (∀ b, deform_with_parent deform_names b = true →
               deform_bone deform_names b = true) as H23.
  { intros b. unfold deform_with_parent, deform_bone.
    rewrite !andb_true_iff. by intros [? _]. }
  split.
  - destruct (first_name (deform_child_of_root roots deform_names) all_bones)
      as [n|] eqn:E1.
    { apply first_name_Some in E1 as (b & Hb & _ & Ht). split; [done|].
      intros Hall. apply H12, H23 in Ht. apply bool_decide_eq_true in Ht.
      exfalso. by apply (Hall b). }
    destruct (first_name (deform_with_parent deform_names) all_bones)
      as [n|] eqn:E2.
    { apply first_name_Some in E2 as (b & Hb & _ & Ht). split; [done|].
      intros Hall. apply H23 in Ht. apply bool_decide_eq_true in Ht.
      exfalso. by apply (Hall b). }
    rewrite first_name_None. unfold deform_bone. split.
    + intros Hall b Hb. specialize (Hall b Hb).
      by apply bool_decide_eq_false in Hall.
    + intros Hall b Hb. apply bool_decide_eq_false. by apply Hall.
  - intros n.
    destruct (first_name (deform_child_of_root roots deform_names) all_bones)
      as [n1|] eqn:E1.
    { intros [= <-]. apply first_name_Some in E1 as (b & Hb & Hn & Ht).
      exists b. split; [done|]. split; [done|].
      pose proof (H12 b Ht) as Ht2. pose proof (H23 b Ht2) as Ht3.
      apply bool_decide_eq_true in Ht3. rewrite Hn in Ht3. split; [done|].
      split; [done|]. intros _.
      unfold deform_with_parent in Ht2. apply andb_true_iff in Ht2 as [_ Hp].
      by apply bool_decide_eq_true in Hp. }
    pose proof (proj1 (first_name_None _ _) E1) as Hnone1.
    destruct (first_name (deform_with_parent deform_names) all_bones)
      as [n2|] eqn:E2.
    { intros [= <-]. apply first_name_Some in E2 as (b & Hb & Hn & Ht).
      exists b. split; [done|]. split; [done|].
      pose proof (H23 b Ht) as Ht3.
      apply bool_decide_eq_true in Ht3. rewrite Hn in Ht3. split; [done|].
      split.
      - intros (b' & Hb' & Ht'). rewrite (Hnone1 b' Hb') in Ht'. done.
      - intros _. unfold deform_with_parent in Ht.
        apply andb_true_iff in Ht as [_ Hp]. by apply bool_decide_eq_true in Hp. }
    pose proof (proj1 (first_name_None _ _) E2) as Hnone2.
    intros E3. apply first_name_Some in E3 as (b & Hb & Hn & Ht).
    exists b. split; [done|]. split; [done|].
    apply bool_decide_eq_true in Ht. rewrite Hn in Ht. split; [done|]. split.
    + intros (b' & Hb' & Ht'). rewrite (Hnone1 b' Hb') in Ht'. done.
    + intros (b' & Hb' & Ht'). rewrite (Hnone2 b' Hb') in Ht'. done.
Qed.

Lemma first_nonroot_deform_child_priority_witness :
  let bones := [ {| bone_name := "root"; bone_parent := None |};
                 {| bone_name := "ctrl"; bone_parent := Some "root" |};
                 {| bone_name := "hand"; bone_parent := Some "arm" |};
                 {| bone_name := "arm"; bone_parent := Some "root" |} ]%string in
  ∃ b, b ∈ bones ∧ bone_name b = "arm"%string
       ∧ bone_parent b ≠ None.
Proof.
  intros bones.
  destruct (first_nonroot_deform_child_priority bones {[ "hand"; "arm" ]}%string)
    as [_ H].
  destruct (H "arm"%string eq_refl) as (b & Hb & Hn & _ & _ & Hp).
  exists b. split; [exact Hb|]. split; [exact Hn|]. apply Hp.
  exists {| bone_name := "hand"; bone_parent := Some "arm" |}%string.
  split; [right; right; left|reflexivity].
Defined.

(** *** [dominant_deform_vg_on_mesh] *)

Lemma recorded_cons k e cs :
  recorded k (e :: cs)
  = ((if decide (e.1 = k) then e.2 else 0) + recorded k cs)%nat.
Proof. unfold recorded. rewrite filter_cons. by case_decide. Qed.

Lemma recorded_count_up vg cs k :
  recorded k (count_up vg cs)
  = (recorded k cs + if decide (k = vg) then 1 else 0)%nat.
Proof.
  induction cs as [|[k' n] cs IH]; cbn [count_up].
  - rewrite recorded_cons. simpl. unfold recorded. simpl.
    destruct (decide (vg = k)), (decide (k = vg)); try done; congruence.
  - destruct (decide (k' = vg)) as [->|Hne]; rewrite !recorded_cons; simpl.
    + destruct (decide (vg = k)), (decide (k = vg)); try lia; congruence.
    + rewrite IH. lia.
Qed.

Lemma keys_count_up vg cs :
  (count_up vg cs).*1 = if decide (vg ∈ cs.*1) then cs.*1 else cs.*1 ++ [vg].
Proof.
  induction cs as [|[k n] cs IH].
  - rewrite decide_False; [done|]. apply not_elem_of_nil.
  - cbn [count_up]. destruct (decide (k = vg)) as [->|Hne].
    + rewrite decide_True by (rewrite fmap_cons; left). done.
    + rewrite !fmap_cons, IH. cbn [fst].
      destruct (decide (vg ∈ cs.*1)) as [Hin|Hnin].
      * rewrite decide_True by (by right). done.
      * rewrite decide_False; [done|]. rewrite elem_of_cons. intros [?|?]; done.
Qed.

Lemma count_up_positive vg cs :
  Forall (λ e, 0 < e.2)%nat cs → Forall (λ e, 0 < e.2)%nat (count_up vg cs).
Proof.
  induction 1 as [|[k n] cs Hn Hcs IH]; simpl.
  - repeat constructor.
  - case_decide; constructor; try done. simpl. lia.
Qed.

Lemma recorded_NoDup cs k n :
  NoDup cs.*1 → (k, n) ∈ cs → recorded k cs = n.
Proof.
  unfold recorded. induction cs as [|[k' n'] cs IH]; simpl; intros Hnd Hin.
  - by apply elem_of_nil in Hin.
  - apply NoDup_cons in Hnd as [Hk' Hnd]. rewrite filter_cons. simpl.
    apply elem_of_cons in Hin as [[= <- <-]|Hin].
    + rewrite decide_True by done. simpl.
      assert (filter (λ e : string * nat, e.1 = k) cs = []) as ->; [|simpl; lia].
      apply elem_of_nil_inv. intros [k2 n2] Hf.
      apply list_elem_of_filter in Hf as [Hk Hf]. simpl in Hk. subst k2.
      apply Hk'. apply list_elem_of_fmap. by exists (k, n2).
    + rewrite decide_False; [by apply IH|].
      intros ->. apply Hk'. apply list_elem_of_fmap. by exists (k, n).
Qed.

Lemma recorded_absent cs k : k ∉ cs.*1 → recorded k cs = 0%nat.
Proof.
  intros Hk. unfold recorded.
  assert (filter (λ e : string * nat, e.1 = k) cs = []) as ->; [|done].
  apply elem_of_nil_inv. intros [k2 n2] Hf.
  apply list_elem_of_filter in Hf as [Hk2 Hf]. simpl in Hk2. subst k2.
  apply Hk. apply list_elem_of_fmap. by exists (k, n2).
Qed.

Lemma max_count_spec items :
  ∀ best, (max_count best items ∈ best :: items)
    ∧ ∀ e, e ∈ best :: items → (e.2 ≤ (max_count best items).2)%nat.
Proof.
  induction items as [|x items IH]; intros best; simpl.
  - split; [left|]. intros e He. apply list_elem_of_singleton in He. by subst.
  - destruct (IH (if (best.2 <? x.2)%nat then x else best)) as [Hin Hmax].
    split.
    + apply elem_of_cons in Hin as [Hin|Hin]; [|by do 2 right].
      rewrite Hin. destruct (best.2 <? x.2)%nat; [right; left|left].
    + intros e He.
      assert (((if (best.2 <? x.2)%nat then x else best).2
               ≤ (max_count (if (best.2 <? x.2)%nat then x else best) items).2)%nat)
        as Hb by (apply Hmax; left).
      apply elem_of_cons in He as [->|He].
      * destruct (Nat.ltb_spec best.2 x.2); simpl in *; lia.
      * apply elem_of_cons in He as [->|He].
        -- destruct (Nat.ltb_spec best.2 x.2); simpl in *; lia.
        -- apply Hmax. by right.
Qed.

(** The dictionary after the loops, in terms of the counted names. *)
Lemma deform_counts_hits obj deform :
  deform_counts obj deform
  = foldl (λ counts vg, count_up vg counts) [] (deform_hits obj deform).
Proof.
  unfold deform_counts, deform_hits.
  generalize ([] : list (string * nat)).
  induction (mesh_vertices obj) as [|v vs IH]; intros cs; simpl; [done|].
  rewrite foldl_app, <- IH. f_equal.
  revert cs. induction (groups v) as [|g gs IHg]; intros cs; simpl; [done|].
  unfold count_group at 2.
  destruct (vg_index_to_name obj !! group g) as [vg|]; [|apply IHg].
  destruct (_ && _); simpl; apply IHg.
Qed.

Lemma counts_invariant hits :
  let cs := foldl (λ counts vg, count_up vg counts) [] hits in
  NoDup cs.*1
  ∧ Forall (λ e, 0 < e.2)%nat cs
  ∧ (∀ k, recorded k cs = length (filter (λ h, h = k) hits))
  ∧ (∀ k, k ∈ cs.*1 ↔ k ∈ hits).
Proof.
  induction hits as [|h hits IH] using rev_ind; simpl.
  - split; [constructor|]. split; [constructor|]. split; [done|].
    intros k. split; intros H; by apply elem_of_nil in H.
  - rewrite foldl_snoc. destruct IH as (Hnd & Hpos & Hrec & Hkeys).
    set (cs := foldl (λ counts vg, count_up vg counts) [] hits) in *.
    split; [|split; [|split]].
    + rewrite keys_count_up. case_decide as Hin; [done|].
      apply NoDup_app. split; [done|]. split; [|apply NoDup_singleton].
      intros x Hx Hx'. apply list_elem_of_singleton in Hx'. by subst.
    + by apply count_up_positive.
    + intros k. rewrite recorded_count_up, Hrec, filter_app, length_app.
      rewrite filter_cons, filter_nil.
      destruct (decide (h = k)) as [->|Hne].
      * rewrite decide_True by done. done.
      * rewrite (decide_False (P := k = h)) by done. done.
    + intros k. rewrite keys_count_up, elem_of_app, list_elem_of_singleton.
      case_decide as Hin.
      * rewrite Hkeys. split; [by left|]. intros [?| ->]; [done|].
        by apply Hkeys.
      * rewrite elem_of_app, list_elem_of_singleton, Hkeys. done.
Qed.

Lemma elem_of_deform_hits obj deform vg :
  vg ∈ deform_hits obj deform → vg ∈ deform.
Proof.
  unfold deform_hits. rewrite list_elem_of_In, in_flat_map.
  intros (v & _ & Hin). rewrite <- list_elem_of_In in Hin.
  apply list_elem_of_omap in Hin as (g & _ & Hg).
  destruct (vg_index_to_name obj !! group g) as [n|]; [|done].
  destruct (bool_decide (n ∈ deform)) eqn:E; [|done].
  apply bool_decide_eq_true in E. destruct (Qgt_bool _ _); [|done].
  simpl in Hg. by injection Hg as <-.
Qed.

(** X16. [dominant_deform_vg_on_mesh] returns [None] exactly when no group
    entry of any vertex names a deform bone with positive weight. Otherwise
    it returns a deform bone name that is counted at least once and at
    least as often as every other name. *)
Theorem dominant_deform_vg_is_most_frequent
    (obj : mesh_object) (deform_names : gset string) :
  (dominant_deform_vg_on_mesh obj deform_names = None
   ↔ deform_hits obj deform_names = [])
  ∧ ∀ vg, dominant_deform_vg_on_mesh obj deform_names = Some vg →
      vg ∈ deform_names
      ∧ (0 < hit_count obj deform_names vg)%nat
      ∧ ∀ other, (hit_count obj deform_names other
                  ≤ hit_count obj deform_names vg)%nat.
Proof.
  unfold dominant_deform_vg_on_mesh, hit_count. rewrite deform_counts_hits.
  destruct (counts_invariant (deform_hits obj deform_names))
    as (Hnd & Hpos & Hrec & Hkeys).
  set (hits := deform_hits obj deform_names) in *.
  set (cs := foldl (λ counts vg, count_up vg counts) [] hits) in *.
  split.
  - destruct cs as [|x rest] eqn:E.
    + split; [intros _|done]. apply elem_of_nil_inv. intros k Hk.
      apply Hkeys in Hk. by apply elem_of_nil in Hk.
    + split; [done|]. intros Hh. exfalso.
      assert (x.1 ∈ (x :: rest).*1) as Hx by left.
      apply Hkeys in Hx. rewrite Hh in Hx. by apply elem_of_nil in Hx.
  - intros vg. destruct cs as [|x rest] eqn:E; [done|]. intros [= <-].
    destruct (max_count_spec rest x) as [Hin Hmax].
    set (best := max_count x rest) in *.
    assert (recorded best.1 (x :: rest) = best.2) as Hbest.
    { apply recorded_NoDup; [done|]. by destruct best. }
    assert (best.1 ∈ hits) as Hhit.
    { apply Hkeys. apply list_elem_of_fmap. by exists best. }
    split; [by eapply elem_of_deform_hits|].
    rewrite <- !Hrec, Hbest. split.
    + rewrite Forall_forall in Hpos. by apply Hpos.
    + intros other. rewrite <- Hrec.
      destruct (decide (other ∈ (x :: rest).*1)) as [Ho|Ho].
      * apply list_elem_of_fmap in Ho as ([k n] & -> & Ho). simpl.
        rewrite (recorded_NoDup _ k n Hnd Ho). by apply (Hmax (k, n)).
      * rewrite recorded_absent by done. lia.
Qed.

Lemma dominant_deform_vg_is_most_frequent_witness :
  let v0 := {| index := 0; groups := [ {| group := 0; weight := 1 # 2 |};
                                       {| group := 1; weight := 1 # 2 |} ] |} in
  let v1 := {| index := 1; groups := [ {| group := 1; weight := 1 |} ] |} in
  let obj := {| vertex_groups := ["arm"; "leg"]%string;
                mesh_vertices := [v0; v1] |} in
  (hit_count obj {[ "arm"; "leg" ]}%string "arm"
   ≤ hit_count obj {[ "arm"; "leg" ]}%string "leg")%nat.
Proof.
  intros v0 v1 obj.
  destruct (dominant_deform_vg_is_most_frequent obj {[ "arm"; "leg" ]}%string)
    as [_ H].
  destruct (H "leg"%string eq_refl) as (_ & _ & Hmax). apply Hmax.
Defined.

(** *** [pick_slot_bone_for_object] *)

Lemma rootish_spec lower all_bones :
  (all_bones ≠ [] → is_Some (rootish lower all_bones))
  ∧ ∀ n, rootish lower all_bones = Some n → n ∈ bone_name <$> all_bones.
Proof.
  unfold rootish.
  set (tops := filter (λ b, bone_parent b = None) all_bones).
  assert (∀ b, b ∈ tops → b ∈ all_bones) as Htops.
  { intros b Hb. by apply list_elem_of_filter in Hb as [_ ?]. }
  destruct (filter _ tops) as [|tb l] eqn:E; simpl.
  - destruct tops as [|t ts] eqn:Et.
    + split.
      * intros Hne. destruct all_bones; [done|]. by eexists.
      * intros n Hn. destruct all_bones as [|b bs]; [done|].
        injection Hn as <-. rewrite fmap_cons. left.
    + split; [by eexists|]. intros n [= <-]. apply list_elem_of_fmap.
      exists t. split; [done|]. apply Htops. left.
  - split; [by eexists|]. intros n [= <-]. apply list_elem_of_fmap.
    exists tb. split; [done|]. apply Htops.
    assert (tb ∈ filter (λ tb, lower (bone_name tb) = "root"%string) tops) as Hin
      by (rewrite E; left).
    by apply list_elem_of_filter in Hin as [_ ?].
Qed.

Lemma first_nonroot_deform_child_bone all_bones deform n :
  first_nonroot_deform_child all_bones deform = Some n →
  n ∈ bone_name <$> all_bones.
Proof.
  unfold first_nonroot_deform_child. intros Hn.
  assert (∃ test, first_name test all_bones = Some n) as [test Ht].
  { destruct (first_name (deform_child_of_root _ _) all_bones) eqn:E1;
      [injection Hn as <-; by eexists|].
    destruct (first_name (deform_with_parent _) all_bones) eqn:E2;
      [injection Hn as <-; by eexists|]. by eexists. }
  apply first_name_Some in Ht as (b & Hb & <- & _).
  apply list_elem_of_fmap. by exists b.
Qed.

(** X17. With at least one bone [pick_slot_bone_for_object] always returns;
    the name it returns is a key of [bone_to_skel_idx] or the name of a
    bone of [all_bones], so, [bone_to_skel_idx] being built from the same
    bones, the slot bone is a bone of the skeleton. Without bones the
    root-ish rules raise. *)
Theorem slot_bone_is_a_skeleton_bone
    (lower : string → string) (parented_to_arm : bool) (parent_bone : string)
    (obj : mesh_object) (bone_to_skel_idx : gmap string nat)
    (all_bones : list bone) (deform_names : gset string) :
  (all_bones ≠ [] →
     is_Some (pick_slot_bone_for_object lower parented_to_arm parent_bone obj
                bone_to_skel_idx all_bones deform_names))
  ∧ (∀ n, pick_slot_bone_for_object lower parented_to_arm parent_bone obj
            bone_to_skel_idx all_bones deform_names = Some n →
       (∀ k, is_Some (bone_to_skel_idx !! k) → k ∈ bone_name <$> all_bones) →
       n ∈ bone_name <$> all_bones)
  ∧ (all_bones = [] →
     pick_slot_bone_for_object lower true EmptyString obj bone_to_skel_idx
       all_bones deform_names = None).
Proof.
  destruct (rootish_spec lower all_bones) as [Hsome Hin].
  assert (∀ n, match first_nonroot_deform_child all_bones deform_names with
               | Some fb => if bool_decide (fb ≠ EmptyString) then Some fb
                            else rootish lower all_bones
               | None => rootish lower all_bones
               end = Some n → n ∈ bone_name <$> all_bones) as Hfb.
  { intros n. destruct (first_nonroot_deform_child _ _) as [fb|] eqn:E; [|auto].
    case_bool_decide; [|auto]. intros [= <-].
    by eapply first_nonroot_deform_child_bone. }
  assert (all_bones ≠ [] →
          is_Some match first_nonroot_deform_child all_bones deform_names with
                  | Some fb => if bool_decide (fb ≠ EmptyString) then Some fb
                               else rootish lower all_bones
                  | None => rootish lower all_bones
                  end) as Hfbs.
  { intros Hne. destruct (first_nonroot_deform_child _ _) as [fb|]; [|auto].
    case_bool_decide; [by eexists|auto]. }
  unfold pick_slot_bone_for_object. split; [|split].
  - intros Hne. destruct (_ && _); [auto|].
    destruct (dominant_deform_vg_on_mesh obj deform_names) as [d|]; [|auto].
    destruct (_ && _); [by eexists|auto].
  - intros n Hn Hidx. destruct (_ && _); [auto|].
    destruct (dominant_deform_vg_on_mesh obj deform_names) as [d|]; [|auto].
    destruct (bool_decide (d ≠ EmptyString)
              && bool_decide (is_Some (bone_to_skel_idx !! d))) eqn:E; [|auto].
    injection Hn as <-. apply andb_true_iff in E as [_ E].
    apply bool_decide_eq_true in E. auto.
  - intros ->. done.
Qed.

Lemma slot_bone_is_a_skeleton_bone_witness :
  let bones := [ {| bone_name := "Root"; bone_parent := None |};
                 {| bone_name := "arm"; bone_parent := Some "Root" |} ]%string in
  let obj := {| vertex_groups := []; mesh_vertices := [] |} in
  is_Some (pick_slot_bone_for_object (λ s, s) false "" obj ∅ bones ∅).
Proof.
  intros bones obj.
  apply (slot_bone_is_a_skeleton_bone (λ s, s) false "" obj ∅ bones ∅).
  done.
Defined.

End WeightHelperFacts.

(** ** Angles modulo 360 *)

Module AngleFacts.
Import PyNum PyNumFacts Skeleton SkeletonFacts.
Local Open Scope Q_scope.

Lemma small_integer (m : Z) : -1 < inject_Z m → inject_Z m < 1 → m = 0%Z.
Proof.
  intros Hlo Hhi. change (-1) with (inject_Z (-1)) in Hlo.
  change 1 with (inject_Z 1) in Hhi.
  rewrite <- Zlt_Qlt in Hlo, Hhi. lia.
Qed.

(** The representative in [(-180, 180]] of an angle modulo 360 is unique. *)
Lemma normalize_deg_unique a x (k : Z) :
  -180 < x → x <= 180 → x == a + 360 * inject_Z k → normalize_deg a == x.
Proof.
  intros Hlo Hhi Hx.
  destruct (normalize_deg_spec a) as [[Nlo Nhi] [k1 Hk1]].
  assert (k1 - k = 0)%Z as Hk.
  { apply small_integer; unfold Zminus;
      rewrite inject_Z_plus, inject_Z_opp; lra. }
  assert (k1 = k) as -> by lia. lra.
Qed.






(** X19. A bone whose frame-space angle equals its parent's, up to whole
    turns, is exported without a [rotation] entry, whatever the vertical
    tolerance. *)
Theorem aligned_bone_has_no_rotation (angle_b angle_p tol : Q) (k : Z) :
  angle_b == angle_p + 360 * inject_Z k →
  rot_spine angle_b angle_p tol == 0
  ∧ exported_rotation angle_b angle_p tol = None.
Proof.
  intros Hal.
  assert (normalize_deg (- (angle_b - angle_p)) == 0) as Hn.
  { apply (normalize_deg_unique _ _ k); [reflexivity|discriminate|]. lra. }
  assert (rot_spine angle_b angle_p tol == 0) as Hr.
  { unfold rot_spine. destruct (negb _); rewrite Hn; reflexivity. }
  split; [exact Hr|]. unfold exported_rotation.
  assert (Qgt_bool (Qabs (rot_spine angle_b angle_p tol)) (1 # 1000000) = false)
    as ->; [|done].
  apply Qgt_bool_false. rewrite Hr. discriminate.
Qed.

Lemma aligned_bone_has_no_rotation_witness :
  exported_rotation 450 90 5 = None.
Proof.
  apply (aligned_bone_has_no_rotation 450 90 5 1). reflexivity.
Defined.

End AngleFacts.

(** ** Rotation and signed area *)

Module RotationFacts.
Import PyNum PyNumFacts Hull Plane PlaneFacts Rotation.
Local Open Scope Q_scope.




End RotationFacts.

(** ** Remapped triangles and the centred region *)

Module TriangleFacts.
Import PyNum PyNumFacts Region RegionFacts Hull Plane PlaneFacts Triangles.
Local Open Scope Q_scope.

(** The key [remap_triangles_to_new] looks up for a corner is the key
    [build_region_vertices_uvs] stored for its loop. *)
Lemma uv_key_key_of uvl li loop :
  uv_key uvl (vertex_index loop) li = key_of uvl li loop.
Proof.
  unfold uv_key, key_of, loop_uv.
  assert (Q2Qc 0 = Q2Qc (py_round 0 6)) as H0
    by (apply Qc_is_canon; reflexivity).
  assert (Q2Qc 1 = Q2Qc (py_round 1 6)) as H1
    by (apply Qc_is_canon; reflexivity).
  destruct uvl as [data|]; [|simpl; by rewrite H0, H1].
  destruct (data !! li) as [uv|]; [done|simpl; by rewrite H0, H1].
Qed.

Lemma corner_lookup loops uvl img_w img_h l v :
  corner_ok loops l v →
  let r := build_region_vertices_uvs loops uvl img_w img_h in
  ∃ a, loopkey_to_new r !! uv_key uvl v l = Some a
       ∧ (a < length (new_to_src r))%nat ∧ new_index_for r a v.
Proof.
  intros (loop & Hl & <-) r.
  destruct (dedup_inv_foldl uvl img_w img_h (enumerate loops))
    as [_ _ _ _ Hfound Hsrc _ _].
  fold (build_region_vertices_uvs loops uvl img_w img_h) in Hfound, Hsrc.
  fold r in Hfound, Hsrc.
  apply elem_of_enumerate in Hl.
  destruct (Hfound l loop Hl) as [a Ha]. rewrite uv_key_key_of.
  exists a. split; [done|].
  destruct (Hsrc _ _ Ha) as (lj & loop' & _ & Hkey & Hn).
  split; [by apply lookup_lt_Some in Hn|]. exists lj.
  assert (vertex_index loop' = vertex_index loop) as <-; [|done].
  unfold key_of in Hkey. by injection Hkey.
Qed.

Lemma remap_triangles_shape
    (loops : list mesh_loop) (loop_triangles : list loop_triangle)
    (uvl : uv_layer) (img_w img_h : Q) :
  triangles_fit_loops loops loop_triangles →
  let r := build_region_vertices_uvs loops uvl img_w img_h in
  let triangles := remap_triangles_to_new loop_triangles uvl (loopkey_to_new r) in
  length triangles = (3 * length loop_triangles)%nat
  ∧ Forall (λ a, (a < length (new_to_src r))%nat) triangles
  ∧ Forall2 (λ lt t, new_index_for r t.1.1 (lt_vertices lt).1.1
                     ∧ new_index_for r t.1.2 (lt_vertices lt).1.2
                     ∧ new_index_for r t.2 (lt_vertices lt).2)
      loop_triangles (tris_of triangles).
Proof.
  intros Hfit r triangles. subst triangles. unfold remap_triangles_to_new.
  induction Hfit as [|lt lts (H0 & H1 & H2) _ (IHlen & IHr & IH2)];
    cbn [flat_map].
  - split; [done|]. split; constructor.
  - assert (∃ a b c, remap_triangle uvl (loopkey_to_new r) lt = [a; b; c]
      ∧ (a < length (new_to_src r))%nat ∧ (b < length (new_to_src r))%nat
      ∧ (c < length (new_to_src r))%nat
      ∧ new_index_for r a (lt_vertices lt).1.1
      ∧ new_index_for r b (lt_vertices lt).1.2
      ∧ new_index_for r c (lt_vertices lt).2)
      as (a & b & c & -> & Hal & Hbl & Hcl & Han & Hbn & Hcn).
    { destruct lt as [[[l0 l1] l2] [[v0 v1] v2]]. simpl in H0, H1, H2.
      destruct (corner_lookup loops uvl img_w img_h l0 v0 H0) as (a & Ha & ? & ?).
      destruct (corner_lookup loops uvl img_w img_h l1 v1 H1) as (b & Hb & ? & ?).
      destruct (corner_lookup loops uvl img_w img_h l2 v2 H2) as (c & Hc & ? & ?).
      exists a, b, c. unfold remap_triangle. simpl.
      fold r in Ha, Hb, Hc. rewrite Ha, Hb, Hc. done. }
    cbn [app length tris_of]. split; [rewrite IHlen; lia|]. split.
    + repeat (constructor; [done|]). done.
    + constructor; [done|]. done.
Qed.

(** X21. When every corner of every loop triangle names a loop of the mesh
    and that loop's vertex, [remap_triangles_to_new], run on the dictionary
    of [build_region_vertices_uvs], drops no triangle: it returns three NEW
    indices per loop triangle, in order, each below the number of region
    vertices and standing for the source vertex of its corner. *)
Theorem remap_keeps_every_triangle
    (loops : list mesh_loop) (loop_triangles : list loop_triangle)
    (uvl : uv_layer) (img_w img_h : Q) :
  triangles_fit_loops loops loop_triangles →
  let r := build_region_vertices_uvs loops uvl img_w img_h in
  let triangles := remap_triangles_to_new loop_triangles uvl (loopkey_to_new r) in
  length triangles = (3 * length loop_triangles)%nat
  ∧ Forall (λ a, (a < length (new_to_src r))%nat) triangles
  ∧ Forall2 (λ lt t, new_index_for r t.1.1 (lt_vertices lt).1.1
                     ∧ new_index_for r t.1.2 (lt_vertices lt).1.2
                     ∧ new_index_for r t.2 (lt_vertices lt).2)
      loop_triangles (tris_of triangles).
Proof. apply remap_triangles_shape. Qed.

Lemma remap_keeps_every_triangle_witness :
  let loops := [ {| vertex_index := 7 |}; {| vertex_index := 8 |};
                 {| vertex_index := 9 |} ]%Z in
  let lts := [ {| lt_loops := (0, 1, 2)%nat; lt_vertices := (7, 8, 9)%Z |} ] in
  let r := build_region_vertices_uvs loops None 100 100 in
  length (remap_triangles_to_new lts None (loopkey_to_new r)) = 3%nat.
Proof.
  intros loops lts r.
  destruct (remap_keeps_every_triangle loops lts None 100 100) as [H _].
  - repeat constructor; simpl; by eexists.
  - exact H.
Defined.

(** *** [center_region_xy] *)







End TriangleFacts.

(** ** Hull indices and the reordered arrays in general *)

Module ReorderShapeFacts.
Import PyNum PyNumFacts Hull Plane PlaneFacts SortFacts PolygonFacts
  ReorderSpec ReorderFacts ReorderShape.
Local Open Scope Q_scope.

Lemma pop_while_subset pts i st x : x ∈ pop_while pts st i → x ∈ st.
Proof.
  induction st as [|top [|second below] IH]; simpl; try done.
  destruct (Qle_bool _ _); [|done]. intros Hx. right. by apply IH.
Qed.

Lemma foldl_push_subset pts order :
  ∀ st x, x ∈ foldl (push_point pts) st order → x ∈ st ∨ x ∈ order.
Proof.
  induction order as [|i order IH]; intros st x; simpl; [by left|].
  intros Hx. apply IH in Hx as [Hx|Hx]; [|right; by right].
  unfold push_point in Hx. apply elem_of_cons in Hx as [->|Hx].
  - right. left.
  - left. by eapply pop_while_subset.
Qed.

Lemma chain_subset pts order x : x ∈ chain pts order → x ∈ order.
Proof.
  unfold chain. rewrite elem_of_reverse. intros Hx.
  apply foldl_push_subset in Hx as [Hx|Hx]; [by apply elem_of_nil in Hx|done].
Qed.

Lemma removelast_subset {A} (l : list A) x : x ∈ removelast l → x ∈ l.
Proof.
  induction l as [|y [|z l] IH]; simpl; try done.
  - intros H. by apply elem_of_nil in H.
  - intros H. apply elem_of_cons in H as [->|H]; [left|right; by apply IH].
Qed.

Lemma dedup_spec l : ∀ seen,
  NoDup (dedup seen l) ∧ ∀ x, x ∈ dedup seen l → x ∈ l ∧ x ∉ seen.
Proof.
  induction l as [|i l IH]; intros seen; simpl.
  - split; [constructor|]. intros x H. by apply elem_of_nil in H.
  - case_decide as Hi.
    + destruct (IH seen) as [Hnd Hin]. split; [done|].
      intros x Hx. apply Hin in Hx as [? ?]. split; [by right|done].
    + destruct (IH ({[i]} ∪ seen)) as [Hnd Hin]. split.
      * constructor; [|done]. intros Hx. apply Hin in Hx as [_ Hx].
        apply Hx. apply elem_of_union. left. by apply elem_of_singleton.
      * intros x Hx. apply elem_of_cons in Hx as [->|Hx]; [split; [left|done]|].
        apply Hin in Hx as [? Hx]. split; [by right|].
        intros ?. apply Hx. apply elem_of_union. by right.
Qed.

Lemma hull_valid (pts : list point) :
  NoDup (convex_hull_indices_xy pts)
  ∧ ∀ e, e ∈ convex_hull_indices_xy pts → (e < length pts)%nat.
Proof.
  unfold convex_hull_indices_xy.
  destruct (length pts <=? 3)%nat.
  - split; [apply NoDup_seq|]. intros e He. apply elem_of_seq in He. lia.
  - destruct (dedup_spec (removelast (chain pts (sorted_idx pts))
                          ++ removelast (chain pts (reverse (sorted_idx pts)))) ∅)
      as [Hnd Hin].
    split; [done|]. intros e He. apply Hin in He as [He _].
    assert (e ∈ sorted_idx pts) as Hs.
    { apply elem_of_app in He as [He|He];
        apply removelast_subset, chain_subset in He; [done|].
      by rewrite elem_of_reverse in He. }
    rewrite sorted_idx_perm in Hs. apply elem_of_seq in Hs. lia.
Qed.

(** X23. Whatever the points (repeated or collinear ones included),
    [convex_hull_indices_xy] returns pairwise distinct indices, each a valid
    index into the point list. *)
Theorem hull_indices_are_valid (pts : list point) :
  NoDup (convex_hull_indices_xy pts)
  ∧ Forall (λ e, (e < length pts)%nat) (convex_hull_indices_xy pts)
  ∧ (length (convex_hull_indices_xy pts) ≤ length pts)%nat.
Proof.
  destruct (hull_valid pts) as [Hnd Hr]. split; [done|].
  split; [by apply Forall_forall|].
  rewrite <- (length_seq (length pts) 0%nat) at 1.
  apply submseteq_length, NoDup_submseteq; [done|].
  intros e He. apply elem_of_seq. apply Hr in He. lia.
Qed.

(** The hull used by [hull_first_reorder]. *)
Lemma reorder_hull_valid (pts : list point) :
  let n := length pts in
  let H := if (3 <=? n)%nat then convex_hull_indices_xy pts else seq 0 n in
  NoDup H ∧ ∀ e, e ∈ H → (e < n)%nat.
Proof.
  intros n H. subst H. destruct (3 <=? n)%nat; [apply hull_valid|].
  split; [apply NoDup_seq|]. intros e He. apply elem_of_seq in He. lia.
Qed.

Lemma new_order_perm n H :
  NoDup H → (∀ e, e ∈ H → (e < n)%nat) → new_order n H ≡ₚ seq 0 n.
Proof.
  intros Hnd Hr. apply NoDup_Permutation.
  - unfold new_order. apply NoDup_app. split; [done|]. split.
    + intros x Hx Hf. apply list_elem_of_filter in Hf as [Hf _].
      apply Hf. by apply elem_of_list_to_set.
    + apply NoDup_filter, NoDup_seq.
  - apply NoDup_seq.
  - intros x. rewrite elem_of_new_order, elem_of_seq. split.
    + intros [Hx|[? _]]; [apply Hr in Hx|]; lia.
    + intros [_ Hx]. destruct (decide (x ∈ H)); [by left|right]. split; [lia|done].
Qed.

Lemma pt_seq (pts : list point) : pt pts <$> seq 0 (length pts) = pts.
Proof.
  apply list_eq. intros i. rewrite list_lookup_fmap.
  destruct (decide (i < length pts)%nat) as [Hi|Hi].
  - rewrite lookup_seq_lt by done. simpl.
    destruct (lookup_lt_is_Some_2 pts i Hi) as [p Hp].
    unfold pt. unfold point in *. by rewrite Hp.
  - rewrite lookup_seq_ge by lia. simpl. symmetry. apply lookup_ge_None. lia.
Qed.

Lemma flat_pairs_lookup (ps : list (Q * Q)) i :
  flat_map (λ p : Q * Q, [p.1; p.2]) ps !! (2 * i)%nat = fst <$> ps !! i
  ∧ flat_map (λ p : Q * Q, [p.1; p.2]) ps !! (2 * i + 1)%nat = snd <$> ps !! i.
Proof.
  revert i. induction ps as [|p ps IH]; intros i; [done|].
  cbn [flat_map app]. destruct i as [|i]; [done|].
  replace (2 * S i)%nat with (S (S (2 * i))) by lia.
  replace (S (S (2 * i)) + 1)%nat with (S (S (2 * i + 1))) by lia.
  exact (IH i).
Qed.

Lemma flat_pairs_length (ps : list (Q * Q)) :
  length (flat_map (λ p : Q * Q, [p.1; p.2]) ps) = (2 * length ps)%nat.
Proof. induction ps as [|p ps IH]; simpl; [done|]. rewrite IH. lia. Qed.

Lemma uvs_pairs_lookup uvs : ∀ i p,
  uvs_pairs uvs !! i = Some p →
  uvs !! (2 * i)%nat = Some p.1 ∧ uvs !! (2 * i + 1)%nat = Some p.2.
Proof.
  remember (length uvs) as n eqn:Hn. revert uvs Hn.
  induction n as [n IH] using lt_wf_ind. intros uvs -> i p.
  destruct uvs as [|u [|v uvs]]; cbn [uvs_pairs]; try done.
  destruct i as [|i].
  - by intros [= <-].
  - intros Hp. replace (2 * S i)%nat with (S (S (2 * i))) by lia.
    replace (S (S (2 * i)) + 1)%nat with (S (S (2 * i + 1))) by lia.
    apply (IH (length uvs) ltac:(simpl; lia) uvs eq_refl i p Hp).
Qed.

(** The dictionary [old_to_new] sends an old index to a position of
    [new_order] that holds it. *)
Lemma old_to_new_lookup order a i :
  old_to_new_of order !! a = Some i → order !! i = Some a.
Proof.
  unfold old_to_new_of.
  assert (∀ k (m : gmap nat nat),
    (∀ a i, m !! a = Some i → order !! i = Some a) →
    ∀ l, (∀ j x, l !! j = Some x → order !! (k + j)%nat = Some x) →
    ∀ a i, foldl (λ m e, <[e.2 := e.1]> m) m (imap (λ i old, (k + i, old)%nat) l)
           !! a = Some i → order !! i = Some a) as Hgen.
  { intros k m Hm l. revert k m Hm.
    induction l as [|x l IH]; intros k m Hm Hl a' i'; simpl; [apply Hm|].
    assert (imap ((λ (i0 : nat) (old : nat), ((k + i0)%nat, old)) ∘ S) l
            = imap (λ i0 old, ((S k + i0)%nat, old)) l) as ->.
    { apply imap_ext. intros j y _. simpl. f_equal. lia. }
    apply IH.
    - intros a0 i0. destruct (decide (x = a0)) as [->|Hne].
      + rewrite lookup_insert_eq. intros [= <-].
        specialize (Hl 0%nat a0 eq_refl). by rewrite Nat.add_0_r in *.
      + rewrite lookup_insert_ne by done. apply Hm.
    - intros j y Hj. specialize (Hl (S j) y Hj).
      by replace (S k + j)%nat with (k + S j)%nat by lia. }
  apply (Hgen 0%nat ∅ ltac:(intros ? ?; by rewrite lookup_empty) order).
  intros j x Hj. done.
Qed.

(** What [hull_first_reorder] returns, whenever it returns. *)
Lemma reorder_result pts uvs new_to_src triangles res :
  hull_first_reorder pts uvs new_to_src triangles = Some res →
  let n := length pts in
  let H := if (3 <=? n)%nat then convex_hull_indices_xy pts else seq 0 n in
  let order := new_order n H in
  ∃ pairs remapped,
    Forall2 (λ old p, uvs_pairs uvs !! old = Some p) order pairs
    ∧ Forall2 (λ old s, new_to_src !! old = Some s) order (new_to_src2 res)
    ∧ remap_tris (old_to_new_of order) (pt pts <$> order) triangles = Some remapped
    ∧ region_xy2 res = pt pts <$> order
    ∧ uvs2 res = flat_map (λ p : Q * Q, [p.1; p.2]) pairs
    ∧ hull_idx res = H
    ∧ triangles2 res = match remapped with
                       | [] => if (3 <=? length (pt pts <$> order))%nat
                               then fan_tris (length (pt pts <$> order)) else []
                       | _ => remapped
                       end.
Proof.
  intros Hres n H order. unfold hull_first_reorder in Hres.
  fold n in Hres. fold H in Hres. fold order in Hres.
  destruct (mapM (λ old, uvs_pairs uvs !! old) order) as [pairs|] eqn:Ep; [|done].
  destruct (mapM (λ old, new_to_src !! old) order) as [src2|] eqn:Es; [|done].
  destruct (remap_tris (old_to_new_of order) (pt pts <$> order) triangles)
    as [remapped|] eqn:Er; [|done].
  cbn [mbind option_bind] in Hres. injection Hres as <-.
  exists pairs, remapped. cbn [region_xy2 uvs2 new_to_src2 triangles2 hull_idx].
  apply mapM_Some in Ep, Es. done.
Qed.

Lemma fan_tris_shape n :
  Forall (λ a, (a < n)%nat) (fan_tris n) ∧ (length (fan_tris n) mod 3 = 0)%nat.
Proof.
  unfold fan_tris.
  assert (∀ l : list nat, Forall (λ i, (1 ≤ i ∧ i + 1 < n)%nat) l →
            Forall (λ a, (a < n)%nat) (flat_map (λ i, [0; i; i + 1]%nat) l)
            ∧ (length (flat_map (λ i, [0; i; i + 1]%nat) l) mod 3 = 0)%nat) as Hgen.
  { induction 1 as [|i l [Hi1 Hi2] _ [IH1 IH2]]; [split; [constructor|done]|].
    cbn [flat_map app length]. split.
    - repeat (constructor; [lia|]). done.
    - pose proof (Nat.Div0.mod_add
                    (length (flat_map (λ i, [0; i; i + 1]%nat) l)) 1 3) as Hm.
      replace (length (flat_map (λ i, [0; i; i + 1]%nat) l) + 1 * 3)%nat
        with (S (S (S (length (flat_map (λ i, [0; i; i + 1]%nat) l)))))
        in Hm by lia.
      congruence. }
  apply Hgen. apply Forall_forall. intros i Hi. apply elem_of_seq in Hi. lia.
Qed.

Lemma remap_tris_shape (m : gmap nat nat) (xy : list point) (tris : list nat) n :
  (∀ a i, m !! a = Some i → (i < n)%nat) →
  ∀ out, remap_tris m xy tris = Some out →
    Forall (λ a, (a < n)%nat) out ∧ (length out mod 3 = 0)%nat.
Proof.
  intros Hm. remember (length tris) as k eqn:Hk. revert tris Hk.
  induction k as [k IH] using lt_wf_ind. intros tris -> out Hout.
  destruct tris as [|a [|b [|c rest]]]; cbn [remap_tris] in Hout;
    [injection Hout as <-; split; [constructor|done]|done|done|].
  destruct (m !! a) as [a2|] eqn:Ea; [|done].
  destruct (m !! b) as [b2|] eqn:Eb; [|done].
  destruct (m !! c) as [c2|] eqn:Ec; [|done]. simpl in Hout.
  destruct (remap_tris m xy rest) as [tl|] eqn:Etl; [|done]. simpl in Hout.
  destruct (IH (length rest) ltac:(simpl; lia) rest eq_refl tl Etl) as [Hr Hl].
  apply Hm in Ea, Eb, Ec.
  assert (length (a2 :: b2 :: c2 :: tl) mod 3 = 0)%nat as Hl3.
  { pose proof (Nat.Div0.mod_add (length tl) 1 3) as Hmod.
    replace (length tl + 1 * 3)%nat with (S (S (S (length tl)))) in Hmod by lia.
    cbn [length]. congruence. }
  destruct (Qlt_bool _ _); [by injection Hout as <-|].
  destruct (Qlt_bool _ _); injection Hout as <-;
    (split; [repeat (constructor; [done|]); done|exact Hl3]).
Qed.

(** The shape of what [hull_first_reorder] returns. *)
Lemma reorder_shape pts uvs new_to_src triangles res :
  hull_first_reorder pts uvs new_to_src triangles = Some res →
  length (region_xy2 res) = length pts
  ∧ length (new_to_src2 res) = length pts
  ∧ length (uvs2 res) = (2 * length pts)%nat
  ∧ Forall (λ a, (a < length pts)%nat) (triangles2 res)
  ∧ (length (triangles2 res) mod 3 = 0)%nat
  ∧ NoDup (hull_idx res)
  ∧ Forall (λ e, (e < length pts)%nat) (hull_idx res).
Proof.
  intros Hres.
  destruct (reorder_result _ _ _ _ _ Hres)
    as (pairs & remapped & Hp & Hs & Hr & Hxy & Huv & Hh & Ht).
  destruct (reorder_hull_valid pts) as [Hnd Hrange].
  set (n := length pts) in *.
  set (H := if (3 <=? n)%nat then convex_hull_indices_xy pts else seq 0 n) in *.
  assert (length (new_order n H) = n) as Hlen.
  { rewrite (new_order_perm n H Hnd Hrange). apply length_seq. }
  assert (length (region_xy2 res) = n) as Hxylen
    by (by rewrite Hxy, length_fmap).
  split; [done|]. split; [apply Forall2_length in Hs; lia|].
  split; [rewrite Huv, flat_pairs_length; apply Forall2_length in Hp; lia|].
  assert (Forall (λ a, (a < n)%nat) (triangles2 res)
          ∧ (length (triangles2 res) mod 3 = 0)%nat) as [? ?].
  { rewrite Ht. rewrite <- Hxy, Hxylen.
    eapply (remap_tris_shape _ _ _ n) in Hr.
    - destruct remapped as [|x remapped]; [|exact Hr].
      destruct (3 <=? n)%nat; [apply fan_tris_shape|split; [constructor|done]].
    - intros a i Hai. apply old_to_new_lookup, lookup_lt_Some in Hai. lia. }
  split; [done|]. split; [done|]. rewrite Hh. split; [done|].
  by apply Forall_forall.
Qed.

(** X24. [hull_first_reorder] permutes the region: the order it applies is
    a permutation of [0 .. n-1] that starts with the hull indices, the
    returned coordinates are a permutation of the given ones, and the UV
    pairs and the source entries are moved together with their points:
    position [i] of each returned array holds what position [order[i]] of
    the corresponding input array held. *)
Theorem reorder_permutes_arrays_together
    (pts : list point) (uvs : list Q) (new_to_src : list (Z * nat))
    (triangles : list nat) (res : reordered) :
  hull_first_reorder pts uvs new_to_src triangles = Some res →
  ∃ order,
    order ≡ₚ seq 0 (length pts)
    ∧ take (length (hull_idx res)) order = hull_idx res
    ∧ region_xy2 res ≡ₚ pts
    ∧ length (new_to_src2 res) = length pts
    ∧ length (uvs2 res) = (2 * length pts)%nat
    ∧ ∀ i old, order !! i = Some old →
        region_xy2 res !! i = pts !! old
        ∧ new_to_src2 res !! i = new_to_src !! old
        ∧ uv_at (uvs2 res) i = uv_at uvs old.
Proof.
  intros Hres.
  destruct (reorder_result _ _ _ _ _ Hres)
    as (pairs & remapped & Hp & Hs & _ & Hxy & Huv & Hh & _).
  destruct (reorder_hull_valid pts) as [Hnd Hr].
  set (n := length pts) in *.
  set (H := if (3 <=? n)%nat then convex_hull_indices_xy pts else seq 0 n) in *.
  pose proof (new_order_perm n H Hnd Hr) as Hperm.
  exists (new_order n H). split; [done|]. split.
  { rewrite Hh. unfold new_order. apply take_app_length. }
  assert (length (new_order n H) = n) as Hlen.
  { rewrite Hperm. apply length_seq. }
  split; [|split; [|split]].
  - rewrite Hxy, Hperm. by rewrite pt_seq.
  - apply Forall2_length in Hs. lia.
  - rewrite Huv, flat_pairs_length. apply Forall2_length in Hp. lia.
  - intros i old Hio.
    assert (old < n)%nat as Hold.
    { apply list_elem_of_lookup_2 in Hio. rewrite Hperm in Hio.
      apply elem_of_seq in Hio. lia. }
    split; [|split].
    + rewrite Hxy, list_lookup_fmap, Hio. simpl.
      destruct (lookup_lt_is_Some_2 pts old Hold) as [p Hpo].
      unfold pt. unfold point in *. by rewrite Hpo.
    + destruct (Forall2_lookup_l _ _ _ _ _ Hs Hio) as (s & Hsi & Hso).
      by rewrite Hsi, Hso.
    + destruct (Forall2_lookup_l _ _ _ _ _ Hp Hio) as (p & Hpi & Hpo).
      apply uvs_pairs_lookup in Hpo as [Hu Hv].
      unfold uv_at. rewrite Huv.
      destruct (flat_pairs_lookup pairs i) as [-> ->].
      rewrite Hpi, Hu, Hv. done.
Qed.

Lemma reorder_permutes_arrays_together_witness :
  ∃ res,
    hull_first_reorder sample_region (repeat 0 10)
      (imap (λ i _, (Z.of_nat i, i)) sample_region)
      [0; 1; 4; 0; 4; 2; 0; 2; 3; 0; 3; 1]%nat = Some res
    ∧ region_xy2 res ≡ₚ sample_region.
Proof.
  eexists. split; [vm_compute; reflexivity|].
  match goal with |- region_xy2 ?r ≡ₚ _ =>
    destruct (reorder_permutes_arrays_together sample_region (repeat 0 10)
                (imap (λ i _, (Z.of_nat i, i)) sample_region)
                [0; 1; 4; 0; 4; 2; 0; 2; 3; 0; 3; 1]%nat r)
      as (order & _ & _ & Hperm & _)
  end; [vm_compute; reflexivity|exact Hperm].
Defined.

(** *** The remapped triangles *)




Lemma remap_tris_stray (m : gmap nat nat) (xy : list point) (tris : list nat) a :
  a ∈ tris → m !! a = None → remap_tris m xy tris = None.
Proof.
  intros Ha Hm. remember (length tris) as n eqn:Hn. revert tris Hn Ha.
  induction n as [n IH] using lt_wf_ind. intros tris -> Ha.
  destruct tris as [|x [|y [|z rest]]]; cbn [remap_tris]; try done.
  { by apply elem_of_nil in Ha. }
  destruct (m !! x) as [x2|] eqn:Ex; [|done].
  destruct (m !! y) as [y2|] eqn:Ey; [|done].
  destruct (m !! z) as [z2|] eqn:Ez; [|done]. simpl.
  rewrite (IH (length rest)); [done|simpl; lia|done|].
  repeat (apply elem_of_cons in Ha as [->|Ha]; [congruence|]). done.
Qed.

(** X26. [hull_first_reorder] never accepts a triangle corner that is not
    an index of the region: any such corner in the triangle stream makes
    the call raise. So does a triangle stream that is not made of whole
    triangles. *)
Theorem stray_triangle_index_raises
    (pts : list point) (uvs : list Q) (new_to_src : list (Z * nat))
    (triangles : list nat) :
  ((∃ a, a ∈ triangles ∧ (length pts ≤ a)%nat) →
     hull_first_reorder pts uvs new_to_src triangles = None)
  ∧ ((length triangles mod 3 ≠ 0)%nat →
     hull_first_reorder pts uvs new_to_src triangles = None).
Proof.
  split.
  - intros (a & Ha & Hge).
    destruct (hull_first_reorder pts uvs new_to_src triangles) as [res|] eqn:E;
      [|done]. exfalso.
    destruct (reorder_result _ _ _ _ _ E) as (_ & remapped & _ & _ & Hr & _).
    rewrite (remap_tris_stray _ _ _ a Ha) in Hr; [done|].
    destruct (old_to_new_of _ !! a) as [i|] eqn:Ei; [|done]. exfalso.
    apply old_to_new_lookup, list_elem_of_lookup_2 in Ei.
    destruct (reorder_hull_valid pts) as [Hnd Hrange].
    rewrite (new_order_perm _ _ Hnd Hrange) in Ei.
    apply elem_of_seq in Ei. lia.
  - intros Hmod.
    destruct (hull_first_reorder pts uvs new_to_src triangles) as [res|] eqn:E;
      [|done]. exfalso.
    destruct (reorder_result _ _ _ _ _ E) as (_ & remapped & _ & _ & Hr & _).
    clear E. revert Hr Hmod. generalize (old_to_new_of
      (new_order (length pts)
         (if (3 <=? length pts)%nat then convex_hull_indices_xy pts
          else seq 0 (length pts)))).
    generalize (pt pts <$> new_order (length pts)
         (if (3 <=? length pts)%nat then convex_hull_indices_xy pts
          else seq 0 (length pts))).
    intros xy m. revert remapped.
    remember (length triangles) as k eqn:Hk. revert triangles Hk.
    induction k as [k IH] using lt_wf_ind. intros tris -> remapped Hr Hmod.
    destruct tris as [|x [|y [|z rest]]]; cbn [remap_tris length] in *;
      try done.
    destruct (m !! x); [|done]. destruct (m !! y); [|done].
    destruct (m !! z); [|done]. simpl in Hr.
    destruct (remap_tris m xy rest) as [tl|] eqn:Etl; [|done].
    eapply (IH (length rest)); [lia|done|done|].
    pose proof (Nat.Div0.mod_add (length rest) 1 3) as Hm.
    replace (length rest + 1 * 3)%nat with (S (S (S (length rest)))) in Hm by lia.
    congruence.
Qed.

Lemma stray_triangle_index_raises_witness :
  hull_first_reorder [(0, 0); (1, 0); (0, 1)] (repeat 0 6)
    [(0%Z, 0%nat); (1%Z, 1%nat); (2%Z, 2%nat)] [0; 1; 3]%nat = None.
Proof.
  apply (proj1 (stray_triangle_index_raises [(0, 0); (1, 0); (0, 1)] (repeat 0 6)
                  [(0%Z, 0%nat); (1%Z, 1%nat); (2%Z, 2%nat)] [0; 1; 3]%nat)).
  exists 3%nat. split; [right; right; left|simpl; lia].
Defined.

End ReorderShapeFacts.

(** ** [prepare_region] as a whole *)

Module PrepareRegionFacts.
Import PyNum PyNumFacts Region RegionFacts Hull Plane PlaneFacts ReorderSpec
  ReorderFacts Triangles TriangleFacts ReorderShape ReorderShapeFacts.
Local Open Scope Q_scope.

Lemma build_region_nonempty loops uvl img_w img_h :
  loops ≠ [] →
  (0 < length (new_to_src (build_region_vertices_uvs loops uvl img_w img_h)))%nat.
Proof.
  intros Hne. destruct loops as [|l0 loops]; [done|].
  destruct (dedup_inv_foldl uvl img_w img_h (enumerate (l0 :: loops)))
    as [_ _ _ _ Hfound Hsrc _ _].
  fold (build_region_vertices_uvs (l0 :: loops) uvl img_w img_h) in Hfound, Hsrc.
  destruct (Hfound 0%nat l0) as [i Hi]; [by apply elem_of_enumerate|].
  destruct (Hsrc _ _ Hi) as (? & ? & _ & _ & Hn).
  apply lookup_lt_Some in Hn. lia.
Qed.

(** X27. [prepare_region] raises on a mesh without loops (the centring
    divides by zero). On a mesh with at least one loop whose loop triangles
    fit its loops it returns, and the arrays it returns fit together: with
    [n] the number of region vertices, there are [n] coordinates, [n]
    source entries and [2n] UV values, the triangle stream consists of
    whole triangles over indices below [n], and the hull indices are
    distinct and below [n]. *)
Theorem prepare_region_wellformed
    (loops : list mesh_loop) (loop_triangles : list loop_triangle)
    (uvl : uv_layer) (img_w img_h : Q)
    (rotate_fn : option (Q → Q → Q → Q * Q)) (rotate_deg : Q) :
  (loops = [] →
     prepare_region loops loop_triangles uvl img_w img_h rotate_fn rotate_deg
     = None)
  ∧ (loops ≠ [] → triangles_fit_loops loops loop_triangles →
     ∃ res,
       prepare_region loops loop_triangles uvl img_w img_h rotate_fn rotate_deg
       = Some res
       ∧ let n := length (new_to_src
                            (build_region_vertices_uvs loops uvl img_w img_h)) in
         (0 < n)%nat
         ∧ length (region_xy2 res) = n
         ∧ length (new_to_src2 res) = n
         ∧ length (uvs2 res) = (2 * n)%nat
         ∧ Forall (λ a, (a < n)%nat) (triangles2 res)
         ∧ (length (triangles2 res) mod 3 = 0)%nat
         ∧ NoDup (hull_idx res)
         ∧ Forall (λ e, (e < n)%nat) (hull_idx res)).
Proof.
  split.
  { intros ->. unfold prepare_region. simpl.
    destruct rotate_fn as [f|]; [destruct (Qgt_bool _ _)|]; done. }
  intros Hne Hfit.
  pose proof (build_region_nonempty loops uvl img_w img_h Hne) as Hpos.
  destruct (remap_triangles_shape loops loop_triangles uvl img_w img_h Hfit)
    as (Htlen & Htr & _).
  destruct (dedup_inv_foldl uvl img_w img_h (enumerate loops))
    as [_ Hxy Huvs _ _ _ _ _].
  fold (build_region_vertices_uvs loops uvl img_w img_h) in Hxy, Huvs.
  unfold prepare_region.
  set (r := build_region_vertices_uvs loops uvl img_w img_h) in *.
  set (n := length (new_to_src r)) in *.
  set (triangles := remap_triangles_to_new loop_triangles uvl (loopkey_to_new r))
    in *.
  set (xy := match rotate_fn with
             | Some f =>
                 if Qgt_bool (Qabs rotate_deg) (1 # 1000000000)
                 then (λ p, f p.1 p.2 rotate_deg) <$> Region.region_xy r
                 else Region.region_xy r
             | None => Region.region_xy r
             end).
  assert (length xy = n) as Hxylen.
  { subst xy. destruct rotate_fn as [f|]; [destruct (Qgt_bool _ _)|];
      rewrite ?length_fmap; done. }
  assert (∃ c cx cy, center_region_xy xy = Some (c, cx, cy) ∧ length c = n)
    as (c & cx & cy & Hc & Hclen).
  { unfold center_region_xy. destruct xy as [|p xy'] eqn:E;
      [simpl in Hxylen; lia|].
    eexists _, _, _. split; [reflexivity|]. by rewrite length_fmap. }
  rewrite Hc. cbn [mbind option_bind fst].
  destruct (hull_first_reorder_returns c (uvs r) (new_to_src r) triangles)
    as (res & Hres & _).
  { unfold reorder_inputs_ok. unfold point in *. rewrite Hclen, Huvs. fold n.
    split; [lia|]. split; [lia|]. split; [|done].
    rewrite Htlen, Nat.mul_comm. apply Nat.Div0.mod_mul. }
  { apply reorder_hull_valid. }
  exists res. split; [done|]. apply reorder_shape in Hres.
  unfold point in *. rewrite Hclen in Hres.
  split; [done|]. exact Hres.
Qed.

Lemma prepare_region_wellformed_witness :
  let loops := [ {| vertex_index := 7 |}; {| vertex_index := 8 |};
                 {| vertex_index := 9 |} ]%Z in
  let lts := [ {| lt_loops := (0, 1, 2)%nat; lt_vertices := (7, 8, 9)%Z |} ] in
  let uvl := Some [(0, 0); (1, 0); (0, 1)] in
  ∃ res, prepare_region loops lts uvl 100 100 None 0 = Some res
         ∧ length (region_xy2 res) = 3%nat.
Proof.
  intros loops lts uvl.
  destruct (prepare_region_wellformed loops lts uvl 100 100 None 0) as [_ H].
  destruct H as (res & Hres & _ & Hlen & _); [done| |].
  - repeat constructor; simpl; by eexists.
  - exists res. split; [exact Hres|exact Hlen].
Defined.

End PrepareRegionFacts.

(** ** Sampled timelines *)

Module TimelineFacts.
Import PyNum PyNumFacts Animation AnimationFacts TimelineSpec.
Local Open Scope Q_scope.

Lemma round_half_even_bounds x :
  (Qfloor x <= round_half_even x <= Qfloor x + 1)%Z.
Proof.
  unfold round_half_even.
  destruct (Qcompare _ _); [destruct (Z.even _)|..]; lia.
Qed.

Lemma round_half_even_mono x y :
  x <= y → (round_half_even x <= round_half_even y)%Z.
Proof.
  intros Hxy. pose proof (Qfloor_resp_le _ _ Hxy) as Hf.
  destruct (Z.eq_dec (Qfloor x) (Qfloor y)) as [E|NE].
  - unfold round_half_even. rewrite <- E.
    destruct (Qcompare (x - inject_Z (Qfloor x)) (1 # 2)) eqn:Cx,
             (Qcompare (y - inject_Z (Qfloor x)) (1 # 2)) eqn:Cy;
      try (destruct (Z.even (Qfloor x))); try lia; exfalso;
      try (apply <- Qeq_alt in Cx); try (apply <- Qgt_alt in Cx); try (apply <- Qlt_alt in Cy); try (apply <- Qeq_alt in Cy); lra.
  - pose proof (round_half_even_bounds x). pose proof (round_half_even_bounds y).
    lia.
Qed.

Lemma py_round_mono x y n : x <= y → py_round x n <= py_round y n.
Proof.
  intros Hxy. unfold py_round. rewrite !Qred_correct.
  assert (0 < inject_Z (10 ^ Z.of_nat n)) as Hd.
  { change 0 with (inject_Z 0). rewrite <- Zlt_Qlt.
    apply Z.pow_pos_nonneg; lia. }
  unfold Qdiv. apply Qmult_le_compat_r.
  - rewrite <- Zle_Qle. apply round_half_even_mono.
    apply Qmult_le_compat_r; [done|]. lra.
  - apply Qinv_le_0_compat. lra.
Qed.

Lemma to_seconds_mono fps (f g : Z) :
  (f <= g)%Z → to_seconds fps f <= to_seconds fps g.
Proof.
  intros Hfg. unfold to_seconds, _scene_seconds.
  assert (inject_Z f <= inject_Z g) as Hq by (by rewrite <- Zle_Qle).
  destruct (Qgt_bool fps 0) eqn:E; [|done].
  apply Qgt_bool_true in E. unfold Qdiv. apply Qmult_le_compat_r; [done|].
  apply Qinv_le_0_compat. lra.
Qed.

Lemma sorted_le_NoDup_lt (l : list Z) :
  StronglySorted Z.le l → NoDup l → StronglySorted Z.lt l.
Proof.
  induction 1 as [|x l Hs IH Hall]; intros Hnd; [constructor|].
  apply NoDup_cons in Hnd as [Hx Hnd]. constructor; [by apply IH|].
  rewrite Forall_forall in Hall |- *. intros y Hy.
  specialize (Hall y Hy). assert (x ≠ y) by (by intros ->). lia.
Qed.

Lemma frames_of_sorted fcurves : StronglySorted Z.lt (frames_of fcurves).
Proof.
  unfold frames_of. apply sorted_le_NoDup_lt.
  - apply StronglySorted_merge_sort; [apply _|intros a b; lia].
  - rewrite merge_sort_Permutation. apply NoDup_elements.
Qed.

Lemma elem_of_frames_of fcurves f :
  f ∈ frames_of fcurves ↔ keyed_frame fcurves f.
Proof.
  unfold frames_of, keyed_frame.
  rewrite merge_sort_Permutation, elem_of_elements, elem_of_list_to_set.
  rewrite list_elem_of_In, in_flat_map. split.
  - intros (fc & Hfc & Hin). apply list_elem_of_In in Hfc. apply list_elem_of_In in Hin.
    apply list_elem_of_fmap in Hin as (k & -> & Hk). by exists fc, k.
  - intros (fc & k & Hfc & Hk & <-). exists fc.
    rewrite <- !list_elem_of_In. split; [done|].
    apply list_elem_of_fmap. by exists k.
Qed.

Lemma emit_loop_last fcurves knotmaps fps to_seconds xforms frames :
  ∀ keys so,
    emit_loop fcurves knotmaps fps to_seconds xforms frames = Some (keys, so) →
    ∀ rec, last keys = Some rec → curve rec = None.
Proof.
  induction frames as [|f rest IH]; intros keys so He rec Hl; simpl in He.
  - injection He as <- <-. done.
  - destruct rest as [|nxt rest'].
    + simpl in He. injection He as <- <-. simpl in Hl. by injection Hl as <-.
    + destruct (segment_curve fcurves knotmaps fps xforms f nxt) as [tag|];
        [|done]. cbn [mbind option_bind] in He.
      destruct (emit_loop fcurves knotmaps fps to_seconds xforms (nxt :: rest'))
        as [[tl so']|] eqn:E; [|done].
      cbn [mbind option_bind fst snd] in He. injection He as <- <-.
      assert (tl ≠ []) as Hne.
      { apply emit_loop_vals in E. inversion E. done. }
      destruct tl as [|r0 tl']; [done|].
      apply (IH (r0 :: tl') so' eq_refl rec). exact Hl.
Qed.

Lemma emit_records fps fcurves to_seconds xforms keys so :
  _emit_channel_timelines fps fcurves to_seconds xforms = Some (keys, so) →
  Forall2 (λ f rec, time rec = py_round (to_seconds f) 6
                    ∧ _vals rec = sample_vals fcurves xforms f)
    (frames_of fcurves) keys
  ∧ ∀ rec, last keys = Some rec → curve rec = None.
Proof.
  unfold _emit_channel_timelines. intros He.
  destruct fcurves as [|fc fcs].
  { injection He as <- <-. split; [|done].
    assert (frames_of [] = []) as -> by reflexivity. constructor. }
  destruct (frames_of (fc :: fcs)) as [|f0 frames] eqn:Ef.
  { injection He as <- <-. split; [constructor|done]. }
  split; [by eapply emit_loop_vals|by eapply emit_loop_last].
Qed.

Lemma times_sorted fps (frames : list Z) (keys : list key_record) :
  StronglySorted Z.lt frames →
  Forall2 (λ f rec, time rec = py_round (to_seconds fps f) 6) frames keys →
  StronglySorted Qle (time <$> keys).
Proof.
  intros Hs H2. revert Hs.
  induction H2 as [|f rec frames keys Ht H2 IH]; intros Hs; [constructor|].
  apply StronglySorted_inv in Hs as [Hs Hall].
  rewrite fmap_cons. constructor; [by apply IH|].
  clear IH Hs. induction H2 as [|g rec' frames keys Ht' H2 IH]; [constructor|].
  apply Forall_cons in Hall as [Hfg Hall]. rewrite fmap_cons.
  constructor; [|by apply IH].
  rewrite Ht, Ht'. apply py_round_mono, to_seconds_mono. lia.
Qed.

(** X28. The records [_emit_channel_timelines] returns to [build_animations]
    are one per keyed frame: the frames, strictly increasing, are exactly
    the rounded times of the keyframes of the given curves, the i-th record
    carries the time in seconds of the i-th frame and the transformed
    samples of all channels at it, the times never decrease, and the last
    record has no [curve] entry. *)
Theorem timeline_records_follow_frames
    (fps : Q) (fcurves : list fcurve) (xforms : list (Q → Q))
    (keys : list key_record) (stepped_only : bool) :
  _emit_channel_timelines fps fcurves (to_seconds fps) xforms
  = Some (keys, stepped_only) →
  StronglySorted Z.lt (frames_of fcurves)
  ∧ (∀ f, f ∈ frames_of fcurves ↔ keyed_frame fcurves f)
  ∧ Forall2 (λ f rec, time rec = py_round (to_seconds fps f) 6
                      ∧ _vals rec = sample_vals fcurves xforms f)
      (frames_of fcurves) keys
  ∧ StronglySorted Qle (time <$> keys)
  ∧ ∀ rec, last keys = Some rec → curve rec = None.
Proof.
  intros He. apply emit_records in He as [H2 Hlast].
  split; [apply frames_of_sorted|]. split; [apply elem_of_frames_of|].
  split; [done|]. split; [|done].
  apply (times_sorted fps (frames_of fcurves)); [apply frames_of_sorted|].
  eapply Forall2_impl; [exact H2|]. by intros f rec [? _].
Qed.

Lemma timeline_records_follow_frames_witness :
  ∃ keys so,
    _emit_channel_timelines 24 [Sample.ramp "p" 0 0 1] (to_seconds 24) []
    = Some (keys, so)
    ∧ StronglySorted Qle (time <$> keys).
Proof.
  eexists _, _. split; [vm_compute; reflexivity|].
  match goal with |- StronglySorted Qle (time <$> ?k) =>
    destruct (timeline_records_follow_frames 24 [Sample.ramp "p" 0 0 1] [] k true)
      as (_ & _ & _ & Hs & _)
  end; [vm_compute; reflexivity|exact Hs].
Defined.

(** *** The two-channel timelines *)

Lemma xy_key_spec rec k :
  xy_key rec = Some k →
  ∃ x y, _vals rec = [x; y] ∧ k_time k = time rec ∧ k_curve k = curve rec
         ∧ k_x k = Some x ∧ k_y k = Some y ∧ k_value k = None.
Proof.
  unfold xy_key. destruct (_vals rec) as [|x [|y [|? ?]]]; try done.
  intros [= <-]. by exists x, y.
Qed.

(** The TRANSLATE and SCALE blocks of the bone loop, for the channel
    indices [ix], [iy] and the value transform [xf]. *)
Lemma pair_timeline_spec fps act path ix iy (xf : Q → Q) keys :
  (let pair := channel_pair (by_index (_fcurves_for_path act path [0; 1; 2]%Z))
                 ix iy in
   if bool_decide (length pair = 2%nat) then
     res ← _emit_channel_timelines fps (sort_pair ix pair) (to_seconds fps) [xf; xf];
     match res.1 with
     | [] => Some None
     | keys => Some <$> mapM xy_key keys
     end
   else Some None) = Some (Some keys) →
  ∃ fx fy, channel_of act path ix fx ∧ channel_of act path iy fy
    ∧ Forall2 (samples_pair fps xf fx fy) (frames_of [fx; fy]) keys.
Proof.
  cbv zeta. unfold channel_pair, channel_of.
  set (by_idx := by_index (_fcurves_for_path act path [0; 1; 2]%Z)).
  destruct (by_idx !! ix) as [fx|] eqn:Ex, (by_idx !! iy) as [fy|] eqn:Ey;
    simpl; try done.
  destruct (by_index_lookup _ _ _ Ex) as [_ Hx].
  rewrite (bool_decide_eq_false_2 (array_index fx ≠ ix)) by auto. cbn [andb].
  destruct (_emit_channel_timelines fps [fx; fy] (to_seconds fps) [xf; xf])
    as [[keys0 so]|] eqn:Ee; [|done].
  cbn [mbind option_bind fst]. intros Hk.
  assert (mapM xy_key keys0 = Some keys) as Hm.
  { destruct keys0 as [|k0 keys0]; [done|].
    change (Some <$> mapM xy_key (k0 :: keys0) = Some (Some keys)) in Hk.
    destruct (mapM xy_key (k0 :: keys0)); [|done].
    simpl in Hk. by injection Hk as ->. }
  apply mapM_Some in Hm. apply emit_records in Ee as [Ee _].
  exists fx, fy. split; [done|]. split; [done|].
  clear Hk. revert keys Hm.
  induction Ee as [|f rec frames keys0 [Ht Hv] _ IH]; intros keys Hm.
  - inversion Hm. constructor.
  - inversion Hm as [|? k ? keys' Hk Hm']; subst. constructor; [|by apply IH].
    apply xy_key_spec in Hk as (x & y & Hvals & Htime & _ & Hx & Hy & Hval).
    rewrite Hvals in Hv. unfold sample_vals in Hv. simpl in Hv.
    injection Hv as -> ->. unfold samples_pair. by rewrite Htime, Ht.
Qed.

(** X29. In the animation [build_animations] returns, the translate
    timeline of a bone samples F-curve 1 of the bone's location for the
    Spine [x] and F-curve 0 for [y], each value multiplied by the rig scale
    and rounded to 4 decimals; the scale timeline samples F-curve 0 of the
    bone's scale for [x] and F-curve 2 for [y], rounded to 6 decimals.
    There is one record per frame keyed on either channel, both axes are
    always written, and no record has a [value] field. *)
Theorem pair_timelines_sample_both_axes
    (degrees : Q → Q) (fps SCALE : Q) (act : action) (bones : list string)
    (anim : animation) (blk : gmap string bone_timelines) (bname : string) :
  build_animations degrees fps SCALE (Some act) bones = Some (Some anim) →
  anim_bones anim = Some blk →
  (∀ keys, translate (tl_of blk bname) = Some keys →
     ∃ fx fy, channel_of act (_bone_path bname "location") 1 fx
       ∧ channel_of act (_bone_path bname "location") 0 fy
       ∧ Forall2 (samples_pair fps (λ v, py_round (v * SCALE) 4) fx fy)
           (frames_of [fx; fy]) keys)
  ∧ (∀ keys, scale (tl_of blk bname) = Some keys →
     ∃ fx fy, channel_of act (_bone_path bname "scale") 0 fx
       ∧ channel_of act (_bone_path bname "scale") 2 fy
       ∧ Forall2 (samples_pair fps (λ v, py_round v 6) fx fy)
           (frames_of [fx; fy]) keys).
Proof.
  intros Hb Ha.
  pose proof (build_animations_sound _ _ _ _ _ _ _ Hb Ha) as Hs.
  split; intros keys Hk; destruct (Hs bname keys) as (Ht & _ & Hsc).
  - apply Ht in Hk.
    by apply (pair_timeline_spec fps act (_bone_path bname "location") 1 0
                (λ v, py_round (v * SCALE) 4)).
  - apply Hsc in Hk.
    by apply (pair_timeline_spec fps act (_bone_path bname "scale") 0 2
                (λ v, py_round v 6)).
Qed.

Lemma pair_timelines_sample_both_axes_witness :
  ∃ fx fy, channel_of Sample.arm_action (_bone_path "arm" "location") 1 fx
    ∧ channel_of Sample.arm_action (_bone_path "arm" "location") 0 fy.
Proof.
  destruct sample_build
    as (anim & blk & k0 & k1 & tr & H1 & H2 & _ & _ & _ & _ & _ & H3 & _).
  destruct (pair_timelines_sample_both_axes _ _ _ _ _ _ _ "arm"%string H1 H2)
    as [Ht _].
  destruct (Ht tr H3) as (fx & fy & Hx & Hy & _). by exists fx, fy.
Defined.

(** *** The bones block *)

Lemma set_timeline_inv bname upd tl (blk0 blk : gmap string bone_timelines) :
  (∀ old keys, upd old keys ≠ no_timelines) →
  (∀ b t, blk !! b = Some t →
     t ≠ no_timelines ∧ (b = bname ∨ is_Some (blk0 !! b))) →
  ∀ b t, set_timeline bname upd tl blk !! b = Some t →
    t ≠ no_timelines ∧ (b = bname ∨ is_Some (blk0 !! b)).
Proof.
  intros Hupd Hblk b t. unfold set_timeline. destruct tl as [keys|]; [|by auto].
  destruct (decide (b = bname)) as [->|Hne].
  - rewrite lookup_insert_eq. intros [= <-]. split; [apply Hupd|by left].
  - rewrite lookup_insert_ne by done. by auto.
Qed.

Lemma bone_step_keys degrees fps SCALE act blk b blk' :
  (∀ b t, blk !! b = Some t → t ≠ no_timelines) →
  bone_step degrees fps SCALE act blk b = Some blk' →
  ∀ b' t, blk' !! b' = Some t →
    t ≠ no_timelines ∧ (b' = b ∨ is_Some (blk !! b')).
Proof.
  intros Hblk Hstep. unfold bone_step in Hstep.
  destruct (translate_timeline fps SCALE act b) as [t|]; [|done].
  destruct (rotate_timeline degrees fps act b) as [r|]; [|done].
  destruct (scale_timeline fps act b) as [sc|]; [|done].
  cbn [mbind option_bind] in Hstep. injection Hstep as <-.
  repeat (apply set_timeline_inv; [by intros old keys|]).
  intros b' t' Hl. split; [by eapply Hblk|right; by eexists].
Qed.

Lemma bones_loop_keys degrees fps SCALE act bones :
  ∀ blk blk', (∀ b t, blk !! b = Some t → t ≠ no_timelines) →
    bones_loop degrees fps SCALE act blk bones = Some blk' →
    ∀ b t, blk' !! b = Some t →
      t ≠ no_timelines ∧ (b ∈ bones ∨ is_Some (blk !! b)).
Proof.
  induction bones as [|b0 bones IH]; intros blk blk' Hblk Hl b t Hb;
    cbn [bones_loop] in Hl.
  - injection Hl as <-. split; [by eapply Hblk|right; by eexists].
  - destruct (bone_step degrees fps SCALE act blk b0) as [blk1|] eqn:E; [|done].
    cbn [mbind option_bind] in Hl.
    pose proof (bone_step_keys _ _ _ _ _ _ _ Hblk E) as H1.
    destruct (IH blk1 blk' (λ b t Hbt, proj1 (H1 b t Hbt)) Hl b t Hb)
      as [Hne [Hin|[t1 Ht1]]].
    + split; [done|]. left. by right.
    + split; [done|]. destruct (H1 b t1 Ht1) as [_ [->|?]]; [left; left|by right].
Qed.

Lemma no_fcurves_no_timelines degrees fps SCALE act bones :
  fcurves act = [] → ∀ blk, bones_loop degrees fps SCALE act blk bones = Some blk.
Proof.
  intros Hnone. induction bones as [|b bones IH]; intros blk; [done|].
  cbn [bones_loop].
  assert (bone_step degrees fps SCALE act blk b = Some blk) as ->; [|apply IH].
  unfold bone_step, translate_timeline, rotate_timeline, scale_timeline,
    _fcurves_for_path. rewrite Hnone. done.
Qed.

(** X30. Without an action [build_animations] returns the empty dictionary.
    With one, the animation is named after the action ("Action" when the
    name is empty); its [bones] entry is present exactly when some bone got
    a timeline, lists only bones of the armature, and every listed bone has
    at least one timeline. An action without F-curves gives no [bones]
    entry. *)
Theorem bones_block_lists_animated_bones
    (degrees : Q → Q) (fps SCALE : Q) (act : action) (bones : list string)
    (anim : animation) :
  build_animations degrees fps SCALE None bones = Some None
  ∧ (build_animations degrees fps SCALE (Some act) bones = Some (Some anim) →
     anim_name anim = (if bool_decide (action_name act = EmptyString)
                       then "Action"%string else action_name act)
     ∧ (∀ blk, anim_bones anim = Some blk →
          blk ≠ ∅
          ∧ ∀ b t, blk !! b = Some t → b ∈ bones ∧ t ≠ no_timelines)
     ∧ (fcurves act = [] → anim_bones anim = None)).
Proof.
  split; [done|]. unfold build_animations. intros Hb.
  destruct (bones_loop degrees fps SCALE act ∅ bones) as [blk0|] eqn:E; [|done].
  cbn [mbind option_bind] in Hb. injection Hb as <-. simpl.
  split; [done|]. split.
  - intros blk. case_bool_decide as He; [done|]. intros [= <-].
    split; [done|]. intros b t Hl.
    destruct (bones_loop_keys _ _ _ _ _ ∅ blk0
                ltac:(intros ? ?; by rewrite lookup_empty) E b t Hl)
      as [Hne [?|[? Hbad]]]; [done|]. by rewrite lookup_empty in Hbad.
  - intros Hnone. rewrite (no_fcurves_no_timelines _ _ _ _ _ Hnone) in E.
    injection E as <-. by rewrite bool_decide_eq_true_2.
Qed.

Lemma bones_block_lists_animated_bones_witness :
  ∃ anim,
    build_animations Sample.degrees 24 100 (Some Sample.arm_action) ["arm"%string]
    = Some (Some anim)
    ∧ anim_name anim = "wave"%string.
Proof.
  destruct sample_build as (anim & blk & k0 & k1 & tr & H1 & _).
  exists anim. split; [exact H1|].
  destruct (bones_block_lists_animated_bones Sample.degrees 24 100
              Sample.arm_action ["arm"%string] anim) as [_ H].
  destruct (H H1) as [Hn _]. exact Hn.
Defined.

End TimelineFacts.
